(** * shared_mutable_access.c: the shared-counter race experiment

    A shallow embedding of [shared_mutable_access.c].

    - [Module Trial]: one experiment.  The worker threads are a pool of
      program points stepped by a scheduler, under the interleaving
      semantics the source's own comment tables use (one instruction of
      one thread at a time, shared memory read and written in that
      order).  Both settings of [USE_ATOMICS] are modelled.  A schedule
      is the list of thread ids in the order the threads are run; the
      threads that [pthread_create] has not started yet are the ones the
      schedule has not run yet.
    - [Module F32]: the arithmetic of [print_stats], which is C [float]
      (IEEE 754 binary32) with [pow] and [sqrt] evaluated in [double]
      (binary64), round to nearest even, through [SpecFloat].
    - [Module Sweep]: [print_stats], [complex_mode], [simple_mode] and
      [main] over the globals of the program.  The banner lines that
      [complex_mode] and [simple_mode] print are left out; the rows of
      the table are kept as numbers, before [printf] formats them. *)

From Stdlib Require Import ZArith Lia Floats.SpecFloat.
From stdpp Require Import base tactics option list.

Local Open Scope Z_scope.

(** ** C [int] and [atomic_int] *)

Definition INT_MAX : Z := 2147483647.
Definition INT_MIN : Z := -2147483648.

(** Two's complement wrap-around of a 32-bit signed result. *)
Definition wrap_int (z : Z) : Z := (z + 2147483648) mod 4294967296 - 2147483648.

(** ** The globals of the program

    [static atomic_int thread_count], [static atomic_int wait_lock] and
    [shared_data], which is [int] or [atomic_int] by [USE_ATOMICS]. *)

Record globals := Globals {
  thread_count : Z;
  wait_lock : Z;
  shared_data : Z
}.

Definition set_thread_count (v : Z) (g : globals) : globals :=
  Globals v (wait_lock g) (shared_data g).
Definition set_wait_lock (v : Z) (g : globals) : globals :=
  Globals (thread_count g) v (shared_data g).
Definition set_shared_data (v : Z) (g : globals) : globals :=
  Globals (thread_count g) (wait_lock g) v.

(** Sum of a mark over a thread pool (how many threads have arrived, how
    many have stored). *)
Fixpoint tally {A : Type} (f : A -> Z) (l : list A) : Z :=
  match l with
  | [] => 0
  | x :: l => f x + tally f l
  end.

(** ** One trial: barrier, worker and the thread pool *)
Module Trial.

(** The program point of a worker thread, in [barrier] or back in
    [worker]; with [USE_ATOMICS = 0] the statement [shared_data += 1] is
    the three instructions of the source's listing
    ([mov eax,shared_data], [add eax,1], [mov shared_data,eax]), with
    [eax] private to the thread. *)
Inductive pc :=
  | BarrierArrive          (* at [wait_lock += 1] *)
  | BarrierSpin            (* at the test of [while (wait_lock != thread_count)] *)
  | Increment              (* [barrier] returned; at [shared_data += 1] *)
  | AddEax (eax : Z)       (* loaded; at [add eax,0x1] *)
  | StoreEax (eax : Z)     (* added; at [mov shared_data,eax] *)
  | Returned.              (* [return NULL] *)

Record machine := Machine {
  mem : globals;
  threads : list pc
}.

(** One instruction of a thread inside [barrier()].  Operations on
    [atomic_int] are single indivisible steps (sequentially consistent
    read-modify-write).  The test of the spin loop reads [wait_lock] and
    [thread_count] in one step: nothing writes [thread_count] while
    workers run. *)
Definition barrier (g : globals) (p : pc) : globals * pc :=
  match p with
  | BarrierArrive => (set_wait_lock (wrap_int (wait_lock g + 1)) g, BarrierSpin)
  | _ =>
      if wait_lock g =? thread_count g then (g, Increment) else (g, BarrierSpin)
  end.

(** One instruction of [worker]. *)
Definition worker (USE_ATOMICS : bool) (g : globals) (p : pc) : globals * pc :=
  match p with
  | BarrierArrive | BarrierSpin => barrier g p
  | Increment =>
      if USE_ATOMICS
      then (set_shared_data (wrap_int (shared_data g + 1)) g, Returned)
      else (g, AddEax (shared_data g))
  | AddEax eax => (g, StoreEax (wrap_int (eax + 1)))
  | StoreEax eax => (set_shared_data eax g, Returned)
  | Returned => (g, Returned)
  end.

(** The scheduler runs thread [tid] for one instruction.  A thread id
    outside the pool runs nothing. *)
Definition step (USE_ATOMICS : bool) (m : machine) (tid : nat) : machine :=
  match threads m !! tid with
  | None => m
  | Some p =>
      let '(g, p') := worker USE_ATOMICS (mem m) p in
      Machine g (<[tid:=p']> (threads m))
  end.

Definition run (USE_ATOMICS : bool) (sched : list nat) (m : machine) : machine :=
  foldl (step USE_ATOMICS) m sched.

Definition is_returned (p : pc) : bool :=
  match p with Returned => true | _ => false end.

(** [pthread_create] in a loop: [n] threads, each at the start of
    [worker]. *)
Definition spawn (n : Z) (g : globals) : machine :=
  Machine g (replicate (Z.to_nat n) BarrierArrive).

(** [create_threads_and_launch_worker(n)] under the schedule [sched]:
    the [pthread_join] loop returns once every worker has returned.  A
    schedule that ends before that is not a complete execution of the
    call ([None]). *)
Definition create_threads_and_launch_worker
    (USE_ATOMICS : bool) (n : Z) (sched : list nat) (g : globals) : option globals :=
  let m := run USE_ATOMICS sched (spawn n g) in
  if forallb is_returned (threads m) then Some (mem m) else None.

(** *** Marks and ranks of program points *)

Definition arrived (p : pc) : Z :=
  match p with BarrierArrive => 0 | _ => 1 end.

Definition stored (p : pc) : Z :=
  match p with Returned => 1 | _ => 0 end.

(** A thread is past the barrier once [barrier] has returned. *)
Definition past_barrier (p : pc) : bool :=
  match p with BarrierArrive | BarrierSpin => false | _ => true end.

Definition rank (p : pc) : nat :=
  match p with
  | BarrierArrive => 0
  | BarrierSpin => 1
  | Increment => 2
  | AddEax _ => 3
  | StoreEax _ => 4
  | Returned => 5
  end.

(** Every thread of [m] is at rank [r] or later. *)
Definition ranked (r : nat) (m : machine) : Prop :=
  forall tid p, threads m !! tid = Some p -> (r <= rank p)%nat.

(** *** Invariants of a trial with [n] workers *)

(** The barrier's bookkeeping: the pool has [n] threads, [thread_count]
    is [n] and fits an [int], [wait_lock] counts the threads that have arrived, and a
    thread is past the barrier only when the two are equal. *)
Record barrier_inv (n : nat) (m : machine) : Prop := BarrierInv {
  inv_fits : Z.of_nat n <= INT_MAX;
  inv_pool : length (threads m) = n;
  inv_target : thread_count (mem m) = Z.of_nat n;
  inv_arrivals : wait_lock (mem m) = tally arrived (threads m);
  inv_released : forall tid p,
    threads m !! tid = Some p -> past_barrier p = true ->
    wait_lock (mem m) = thread_count (mem m)
}.

(** What a thread may hold in [eax] when [d] threads have stored.  With
    atomics no thread is ever between the load and the store. *)
Definition eax_ok (USE_ATOMICS : bool) (d : Z) (p : pc) : Prop :=
  match p with
  | AddEax eax => USE_ATOMICS = false /\ 0 <= eax <= d
  | StoreEax eax => USE_ATOMICS = false /\ 1 <= eax <= d + 1
  | _ => True
  end.

(** The counter, by variant: with atomics it counts the workers that
    have returned; without, it never exceeds that count. *)
Definition counter_inv (USE_ATOMICS : bool) (m : machine) : Prop :=
  let d := tally stored (threads m) in
  (if USE_ATOMICS then shared_data (mem m) = d
   else 0 <= shared_data (mem m) <= d /\ (1 <= d -> 1 <= shared_data (mem m)))
  /\ forall tid p, threads m !! tid = Some p -> eax_ok USE_ATOMICS d p.

(** What a completed trial of [tc] workers may leave in [shared_data]. *)
Definition outcome_ok (USE_ATOMICS : bool) (tc v : Z) : Prop :=
  if USE_ATOMICS then v = tc else 0 <= v <= tc /\ (1 <= tc -> 1 <= v).

(** *** Schedules in which every thread keeps being run *)

(** Every thread of the pool is run at least once in [s]. *)
Definition covers (n : nat) (s : list nat) : Prop :=
  forall tid, (tid < n)%nat -> tid ∈ s.

(** [s] contains [k] successive rounds, each running every thread. *)
Fixpoint rounds (k n : nat) (s : list nat) : Prop :=
  match k with
  | O => True
  | S k => exists s1 s2, s = s1 ++ s2 /\ covers n s1 /\ rounds k n s2
  end.

Definition round_robin (k n : nat) : list nat :=
  concat (replicate k (seq 0 n)).

End Trial.

(** ** The arithmetic of [print_stats]

    [float] is IEEE 754 binary32 and [double] binary64, every operation
    rounded to nearest, ties to even, and evaluated in the type C gives
    it ([FLT_EVAL_METHOD] 0): [float] with [int] is [float], [float]
    with [double] is [double], and an assignment to a [float] variable
    rounds to binary32. *)
Module F32.

Definition zero : spec_float := S754_zero false.

(** [(float) i] *)
Definition of_int (i : Z) : spec_float := binary_normalize 24 128 i 0 false.

Definition add : spec_float -> spec_float -> spec_float := SFadd 24 128.
Definition sub : spec_float -> spec_float -> spec_float := SFsub 24 128.
Definition div : spec_float -> spec_float -> spec_float := SFdiv 24 128.

(** [float] to [double] (exact) and [double] to [float] (rounded). *)
Definition to_double (x : spec_float) : spec_float :=
  match x with
  | S754_finite s m e => binary_normalize 53 1024 (cond_Zopp s (Zpos m)) e s
  | _ => x
  end.

Definition of_double (x : spec_float) : spec_float :=
  match x with
  | S754_finite s m e => binary_normalize 24 128 (cond_Zopp s (Zpos m)) e s
  | _ => x
  end.

Definition dadd : spec_float -> spec_float -> spec_float := SFadd 53 1024.

(** [pow(x, 2)] of the C library, as the correctly rounded square. *)
Definition pow2 (x : spec_float) : spec_float := SFmul 53 1024 x x.

(** [sqrt(x)] of the C library (correctly rounded, as IEEE 754 asks). *)
Definition dsqrt : spec_float -> spec_float := SFsqrt 53 1024.

(** [n / d] rounded to an integer, ties to even, for [0 <= n], [0 < d]. *)
Definition div_half_even (n d : Z) : Z :=
  let q := n / d in
  let r := n mod d in
  match 2 * r ?= d with
  | Lt => q
  | Gt => q + 1
  | Eq => if Z.even q then q else q + 1
  end.

(** The number of hundredths [printf] shows for a finite value under
    [%.2f]: the exact binary value rounded to two decimals. *)
Definition centi (x : spec_float) : option Z :=
  match x with
  | S754_zero _ => Some 0
  | S754_finite s m e =>
      Some (cond_Zopp s
              (if 0 <=? e then Zpos m * 100 * 2 ^ e
               else div_half_even (Zpos m * 100) (2 ^ (- e))))
  | _ => None
  end.

End F32.

(** ** [print_stats], [complex_mode], [simple_mode] and [main] *)
Module Sweep.

(** The configuration section of the source. *)
Record config := Config {
  max_threads : Z;
  total_experiments : Z;
  do_complex_mode : bool;
  do_simple_mode : bool;
  USE_ATOMICS : bool
}.

(** One line of the table [print_stats] prints, column by column. *)
Record row := Row {
  row_thread_count : Z;
  row_experiments : Z;
  row_failures : Z;
  row_min : Z;
  row_average : spec_float;
  row_max : Z;
  row_variance : spec_float;
  row_std_deviation : spec_float
}.

(** Body of the first loop of [print_stats] for the element [r]. *)
Definition scan (acc : spec_float * Z * Z) (r : Z) : spec_float * Z * Z :=
  let '(sum, max, min) := acc in
  (F32.add sum (F32.of_int r),
   if max <? r then r else max,
   if r <? min then r else min).

(** The same at index [i]: a read outside [results] has no defined
    value ([None]). *)
Definition scan_step (results : list Z)
    (acc : option (spec_float * Z * Z)) (i : nat) : option (spec_float * Z * Z) :=
  acc ← acc; r ← results !! i; Some (scan acc r).

(** Body of the second loop: [sum1 = sum1 + pow((results[i] - average), 2)]. *)
Definition deviation (average : spec_float) (sum1 : spec_float) (r : Z) : spec_float :=
  F32.of_double
    (F32.dadd (F32.to_double sum1)
       (F32.pow2 (F32.to_double (F32.sub (F32.of_int r) average)))).

Definition deviation_step (results : list Z) (average : spec_float)
    (acc : option spec_float) (i : nat) : option spec_float :=
  sum1 ← acc; r ← results !! i; Some (deviation average sum1 r).

Definition print_stats (cfg : config)
    (thread_count successes : Z) (results : list Z) (experiment_count : Z) : option row :=
  let indices := seq 0 (Z.to_nat experiment_count) in
  '(sum, max, min) ←
    foldl (scan_step results)
      (Some (F32.zero, 0, wrap_int (max_threads cfg + 1))) indices;
  let average := F32.div sum (F32.of_int experiment_count) in
  sum1 ← foldl (deviation_step results average) (Some F32.zero) indices;
  let variance := F32.div sum1 (F32.of_int experiment_count) in
  let std_deviation := F32.of_double (F32.dsqrt (F32.to_double variance)) in
  Some (Row thread_count
            (total_experiments cfg)
            (wrap_int (total_experiments cfg - successes))
            min average max variance std_deviation).

(** Body of the experiment loop of [complex_mode]; [sched] is the
    interleaving the operating system picks for this trial. *)
Definition experiment_step (cfg : config) (sched : nat -> list nat)
    (acc : option (globals * Z * list Z)) (experiment : nat)
    : option (globals * Z * list Z) :=
  '(g, successes, results) ← acc;
  g ← Trial.create_threads_and_launch_worker
         (USE_ATOMICS cfg) (thread_count g) (sched experiment) g;
  let successes :=
    if shared_data g =? thread_count g then wrap_int (successes + 1) else successes in
  let results := <[experiment:=shared_data g]> results in
  Some (set_shared_data 0 (set_wait_lock 0 g), successes, results).

(** The experiment loop: [successes = 0], the array
    [results[total_experiments]] (its cells are all written before
    [print_stats] reads them; they start as 0 here) and the loop over
    [experiment]. *)
Definition experiments (cfg : config) (sched : nat -> list nat) (g : globals)
    : option (globals * Z * list Z) :=
  let count := Z.to_nat (total_experiments cfg) in
  foldl (experiment_step cfg sched) (Some (g, 0, replicate count 0)) (seq 0 count).

(** The loop [for (thread_count = 1; thread_count <= max_threads;
    thread_count++)], from the current [thread_count], with the rows
    printed so far.  [fuel] bounds the number of tests of the loop
    condition. *)
Fixpoint sweep (fuel : nat) (cfg : config) (sched : Z -> nat -> list nat)
    (g : globals) (out : list row) : option (globals * list row) :=
  match fuel with
  | O => None
  | S fuel =>
      if thread_count g <=? max_threads cfg then
        '(g, successes, results) ← experiments cfg (sched (thread_count g)) g;
        r ← print_stats cfg (thread_count g) successes results (total_experiments cfg);
        sweep fuel cfg sched
          (set_thread_count (wrap_int (thread_count g + 1)) g) (out ++ [r])
      else Some (g, out)
  end.

Definition complex_mode (fuel : nat) (cfg : config) (sched : Z -> nat -> list nat)
    (g : globals) : option (globals * list row) :=
  let original_thread_count := thread_count g in
  '(g, out) ← sweep fuel cfg sched (set_thread_count 1 g) [];
  Some (set_thread_count original_thread_count g, out).

(** [simple_mode] prints [thread_count] and [shared_data] after one
    trial; the pair is what the line shows. *)
Definition simple_mode (cfg : config) (sched : list nat) (g : globals)
    : option (globals * (Z * Z)) :=
  g ← Trial.create_threads_and_launch_worker
         (USE_ATOMICS cfg) (thread_count g) sched g;
  Some (set_shared_data 0 (set_wait_lock 0 g), (thread_count g, shared_data g)).

(** What [main] prints: the rows of the table and the line of simple
    mode, each when its mode is on. *)
Definition main (fuel : nat) (cfg : config)
    (sched : Z -> nat -> list nat) (simple_sched : list nat) (g : globals)
    : option (globals * list row * option (Z * Z)) :=
  '(g, rows) ←
    (if do_complex_mode cfg then complex_mode fuel cfg sched g else Some (g, []));
  if do_simple_mode cfg then
    '(g, line) ← simple_mode cfg simple_sched g;
    Some (g, rows, Some line)
  else Some (g, rows, None).

(** The globals as the program starts, for a configured [thread_count]
    (8 in the source). *)
Definition initial_globals (thread_count : Z) : globals := Globals thread_count 0 0.

(** *** The summary in the words of the specification

    The arithmetic mean, the population variance (mean of the squared
    deviations from the mean, divisor the batch size) and its square
    root, each operation in the precision [print_stats] uses: the sum
    of the outcomes, the mean, each deviation and the division by the
    batch size in [float]; the square of a deviation, its addition to
    the running sum and the square root in [double], rounded to [float]
    when stored. *)

Definition batch_sum (batch : list Z) : spec_float :=
  foldl (fun sum r => F32.add sum (F32.of_int r)) F32.zero batch.

Definition batch_size (batch : list Z) : spec_float :=
  F32.of_int (Z.of_nat (length batch)).

Definition mean (batch : list Z) : spec_float :=
  F32.div (batch_sum batch) (batch_size batch).

(** The square of the deviation of [outcome] from [m]: the [float]
    difference, widened to [double] and multiplied by itself. *)
Definition squared_deviation (m : spec_float) (outcome : Z) : spec_float :=
  let d := F32.to_double (F32.sub (F32.of_int outcome) m) in
  SFmul 53 1024 d d.

(** The running sum of the squared deviations from the mean: a [float]
    that each [double] addition is rounded back to. *)
Definition squared_deviations (batch : list Z) : spec_float :=
  foldl (fun sum1 outcome =>
           F32.of_double
             (SFadd 53 1024 (F32.to_double sum1)
                (squared_deviation (mean batch) outcome)))
        F32.zero batch.

Definition population_variance (batch : list Z) : spec_float :=
  F32.div (squared_deviations batch) (batch_size batch).

Definition std_dev (batch : list Z) : spec_float :=
  F32.of_double (F32.dsqrt (F32.to_double (population_variance batch))).

(** Sum of the absolute values of the outcomes: while it stays below
    [2^24] the running [float] sum of [print_stats] is exact. *)
Definition magnitude (batch : list Z) : Z :=
  foldr (fun outcome acc => Z.abs outcome + acc) 0 batch.

(** Sum of the squares of the distances of the outcomes from [m], in
    integers. *)
Definition squares_about (m : Z) (batch : list Z) : Z :=
  foldr (fun outcome acc => (outcome - m) * (outcome - m) + acc) 0 batch.

(** Smallest and largest outcome of a batch. *)
Definition is_minimum (m : Z) (batch : list Z) : Prop :=
  m ∈ batch /\ forall x, x ∈ batch -> m <= x.

Definition is_maximum (m : Z) (batch : list Z) : Prop :=
  m ∈ batch /\ forall x, x ∈ batch -> x <= m.

(** Number of outcomes of a batch that differ from the expected value. *)
Definition failure_count (expected : Z) (batch : list Z) : Z :=
  Z.of_nat (length (filter (fun outcome => outcome <> expected) batch)).

(** A row [complex_mode] can print at [thread_count]: the summary of a
    batch of [total_experiments] outcomes that trials can leave, with
    [successes] as the experiment loop counts it. *)
Definition recorded_row (cfg : config) (thread_count : Z) (r : row) : Prop :=
  exists results,
    Z.of_nat (length results) = total_experiments cfg
    /\ Forall (Trial.outcome_ok (USE_ATOMICS cfg) thread_count) results
    /\ print_stats cfg thread_count
         (total_experiments cfg - failure_count thread_count results)
         results (total_experiments cfg) = Some r.

End Sweep.

(** ** Schedules used in the examples *)
Module Scenario.

(** Every worker arrives at the barrier, then the workers run to their
    return one after the other: no increment is lost. *)
Definition one_by_one (n : nat) : list nat :=
  seq 0 n ++ concat ((fun tid => replicate 4 tid) <$> seq 0 n).

(** Three workers; worker 1 loads the counter before worker 0 has
    stored, so one of the three increments is lost. *)
Definition one_lost : list nat :=
  [0; 1; 2; 0; 1; 2; 0; 1; 0; 0; 1; 1; 2; 2; 2]%nat.

(** A sweep in which the fourth trial at three threads loses an
    increment and every other trial loses none. *)
Definition schedule (thread_count : Z) (experiment : nat) : list nat :=
  if (thread_count =? 3) && (experiment =? 3)%nat then one_lost
  else one_by_one (Z.to_nat thread_count).

(** [count] consecutive steps for each of the threads [first], ...,
    [first + many - 1], one thread after the other. *)
Definition block (count first many : nat) : list nat :=
  concat ((fun tid => replicate count tid) <$> seq first many).

(** A schedule of [n] workers that loses [lost] increments: all arrive
    at the barrier, all leave it, the first [lost + 1] workers load the
    counter before any of them stores, add and store; the other workers
    then load, add and store one at a time. *)
Definition losing (n lost : nat) : list nat :=
  block 1 0 n ++ block 1 0 n
  ++ block 1 0 (S lost) ++ block 1 0 (S lost) ++ block 1 0 (S lost)
  ++ block 3 (S lost) (n - S lost).

End Scenario.

(** * Facts *)

Lemma wrap_int_id z : INT_MIN <= z <= INT_MAX -> wrap_int z = z.
Proof.
  unfold wrap_int, INT_MIN, INT_MAX. intros H.
  rewrite Z.mod_small; lia.
Qed.

Section TallyFacts.
Context {A : Type} (f : A -> Z).

Lemma tally_insert (l : list A) i x y :
  l !! i = Some x -> tally f (<[i:=y]> l) = tally f l - f x + f y.
Proof.
  revert i. induction l as [|a l IH]; intros [|i] H; simplify_eq/=.
  - lia.
  - rewrite (IH i H). lia.
Qed.

Lemma tally_replicate n x : tally f (replicate n x) = Z.of_nat n * f x.
Proof. induction n as [|n IH]; [done|]. cbn [replicate tally]. lia. Qed.

Hypothesis mark : forall x, 0 <= f x <= 1.

Lemma tally_bounds (l : list A) : 0 <= tally f l <= Z.of_nat (length l).
Proof.
  induction l as [|a l IH]; cbn [tally length]; [lia|].
  pose proof (mark a). lia.
Qed.

Lemma tally_missing (l : list A) i x :
  l !! i = Some x -> f x = 0 -> tally f l < Z.of_nat (length l).
Proof.
  revert i. induction l as [|a l IH]; intros [|i] H Hx; simplify_eq/=.
  - pose proof (tally_bounds l). lia.
  - pose proof (IH i H Hx). pose proof (mark a). lia.
Qed.

Lemma tally_full (l : list A) :
  (forall x, x ∈ l -> f x = 1) -> tally f l = Z.of_nat (length l).
Proof.
  induction l as [|a l IH]; intros H; cbn [tally length]; [done|].
  rewrite IH, (H a); [lia|left|]. intros x Hx. apply H. by right.
Qed.
End TallyFacts.

(** ** Facts about one trial *)
Section TrialFacts.
Import Trial.
Variable USE_ATOMICS : bool.
Variable n : nat.

Lemma arrived_mark p : 0 <= arrived p <= 1.
Proof. destruct p; simpl; lia. Qed.

Lemma stored_mark p : 0 <= stored p <= 1.
Proof. destruct p; simpl; lia. Qed.

Lemma step_outside m tid :
  threads m !! tid = None -> step USE_ATOMICS m tid = m.
Proof. unfold step. by intros ->. Qed.

Lemma step_inside m tid p :
  threads m !! tid = Some p ->
  step USE_ATOMICS m tid =
    Machine (worker USE_ATOMICS (mem m) p).1
            (<[tid:=(worker USE_ATOMICS (mem m) p).2]> (threads m)).
Proof. unfold step. intros ->. by destruct (worker _ _ _). Qed.

Lemma worker_thread_count g p :
  thread_count (worker USE_ATOMICS g p).1 = thread_count g.
Proof.
  destruct p; simpl; try done.
  - by destruct (_ =? _).
  - by destruct USE_ATOMICS.
Qed.

Lemma worker_rank g p : (rank p <= rank (worker USE_ATOMICS g p).2)%nat.
Proof.
  destruct p; simpl; try lia.
  - destruct (_ =? _); simpl; lia.
  - destruct USE_ATOMICS; simpl; lia.
Qed.

Lemma barrier_inv_step m tid :
  barrier_inv n m -> barrier_inv n (step USE_ATOMICS m tid).
Proof.
  intros [n_int Hlen Htc Hwl Hrel].
  destruct (threads m !! tid) as [p|] eqn:Hp;
    [|by rewrite step_outside].
  rewrite (step_inside _ _ _ Hp).
  assert (Hin : (tid < length (threads m))%nat) by by eapply lookup_lt_Some.
  pose proof (tally_bounds arrived arrived_mark (threads m)) as Hb.
  split; simpl.
  - done.
  - by rewrite length_insert.
  - by rewrite worker_thread_count.
  - rewrite (tally_insert _ _ _ _ _ Hp).
    destruct p; simpl; try (rewrite Hwl; lia).
    + pose proof (tally_missing arrived arrived_mark _ _ _ Hp eq_refl).
      rewrite wrap_int_id; unfold INT_MIN; lia.
    + destruct (_ =? _); simpl; lia.
    + destruct USE_ATOMICS; simpl; lia.
  - intros j q Hq Hpast. rewrite worker_thread_count.
    destruct (decide (tid = j)) as [->|Hne].
    + rewrite list_lookup_insert_eq in Hq by done. simplify_eq.
      destruct p; simpl in *; try done;
        try (by apply (Hrel _ _ Hp)).
      * destruct (wait_lock (mem m) =? thread_count (mem m)) eqn:E;
          simpl in *; [by apply Z.eqb_eq|done].
      * destruct USE_ATOMICS; simpl; by apply (Hrel _ _ Hp).
    + rewrite list_lookup_insert_ne in Hq by done.
      specialize (Hrel _ _ Hq Hpast).
      destruct p; simpl; try done.
      * pose proof (tally_missing arrived arrived_mark _ _ _ Hp eq_refl). lia.
      * by destruct (_ =? _).
      * by destruct USE_ATOMICS.
Qed.

Lemma barrier_inv_run s m :
  barrier_inv n m -> barrier_inv n (run USE_ATOMICS s m).
Proof.
  revert m. induction s as [|tid s IH]; intros m H; [done|].
  apply IH, barrier_inv_step, H.
Qed.

Lemma eax_ok_mono d d' p :
  d <= d' -> eax_ok USE_ATOMICS d p -> eax_ok USE_ATOMICS d' p.
Proof. intros Hd. destruct p; simpl; intuition lia. Qed.

Lemma counter_inv_step m tid :
  barrier_inv n m -> counter_inv USE_ATOMICS m ->
  counter_inv USE_ATOMICS (step USE_ATOMICS m tid).
Proof.
  intros [n_int Hlen _ _ _] [Hsd Hreg].
  destruct (threads m !! tid) as [p|] eqn:Hp;
    [|by rewrite step_outside].
  rewrite (step_inside _ _ _ Hp).
  pose proof (tally_bounds stored stored_mark (threads m)) as Hb.
  pose proof (Hreg _ _ Hp) as Hme.
  unfold counter_inv in *. simpl.
  rewrite (tally_insert _ _ _ _ _ Hp).
  assert (Hothers : forall d' q,
    tally stored (threads m) <= d' -> eax_ok USE_ATOMICS d' q ->
    forall j p', <[tid:=q]> (threads m) !! j = Some p' ->
    eax_ok USE_ATOMICS d' p').
  { intros d' q Hd Hq j p' Hj.
    destruct (decide (tid = j)) as [->|Hne].
    - rewrite list_lookup_insert_eq in Hj by by eapply lookup_lt_Some.
      by simplify_eq.
    - rewrite list_lookup_insert_ne in Hj by done.
      eapply eax_ok_mono; [exact Hd|]. by eapply Hreg. }
  destruct p; simpl in *.
  - (* wait_lock += 1 *)
    split; [destruct USE_ATOMICS; lia|]. apply Hothers; [lia|done].
  - (* while (wait_lock != thread_count) *)
    destruct (_ =? _); simpl;
      (split; [destruct USE_ATOMICS; lia|]; apply Hothers; [lia|done]).
  - (* shared_data += 1, or its load *)
    pose proof (tally_missing stored stored_mark _ _ _ Hp eq_refl).
    destruct USE_ATOMICS eqn:E; simpl.
    + split; [rewrite wrap_int_id; unfold INT_MIN; lia|].
      apply Hothers; [lia|done].
    + split; [lia|]. apply Hothers; [lia|]. simpl. lia.
  - (* add eax,1 *)
    pose proof (tally_missing stored stored_mark _ _ _ Hp eq_refl).
    destruct Hme as [-> Hme].
    split; [lia|]. apply Hothers; [lia|]. simpl.
    rewrite wrap_int_id; unfold INT_MIN; lia.
  - (* mov shared_data,eax *)
    destruct Hme as [-> Hme].
    split; [lia|]. apply Hothers; [lia|done].
  - split; [destruct USE_ATOMICS; lia|]. apply Hothers; [lia|done].
Qed.

Lemma counter_inv_run s m :
  barrier_inv n m -> counter_inv USE_ATOMICS m ->
  counter_inv USE_ATOMICS (run USE_ATOMICS s m).
Proof.
  revert m. induction s as [|tid s IH]; intros m Hb Hc; [done|].
  apply IH; [by apply barrier_inv_step|by apply counter_inv_step].
Qed.

Lemma barrier_inv_spawn g :
  Z.of_nat n <= INT_MAX ->
  thread_count g = Z.of_nat n -> wait_lock g = 0 ->
  barrier_inv n (spawn (Z.of_nat n) g).
Proof.
  intros Hn Htc Hwl. unfold spawn. rewrite Nat2Z.id. split; simpl.
  - done.
  - by rewrite length_replicate.
  - done.
  - rewrite tally_replicate. simpl. lia.
  - intros tid p Hp. apply lookup_replicate in Hp as [-> _]. done.
Qed.

Lemma counter_inv_spawn g :
  shared_data g = 0 -> counter_inv USE_ATOMICS (spawn (Z.of_nat n) g).
Proof.
  intros Hsd. unfold spawn, counter_inv. rewrite Nat2Z.id. simpl.
  rewrite tally_replicate. simpl. split.
  - destruct USE_ATOMICS; lia.
  - intros tid p Hp. apply lookup_replicate in Hp as [-> _]. done.
Qed.

Lemma step_lookup m tid j p :
  threads m !! j = Some p ->
  exists q, threads (step USE_ATOMICS m tid) !! j = Some q
            /\ (rank p <= rank q)%nat.
Proof.
  intros Hj.
  destruct (threads m !! tid) as [p'|] eqn:Hp;
    [|rewrite step_outside by done; eauto].
  rewrite (step_inside _ _ _ Hp). simpl.
  destruct (decide (tid = j)) as [->|Hne].
  - rewrite list_lookup_insert_eq by by eapply lookup_lt_Some.
    simplify_eq. eexists; split; [done|]. apply worker_rank.
  - rewrite list_lookup_insert_ne by done. eauto.
Qed.

Lemma run_lookup s m j p :
  threads m !! j = Some p ->
  exists q, threads (run USE_ATOMICS s m) !! j = Some q
            /\ (rank p <= rank q)%nat.
Proof.
  revert m p. induction s as [|tid s IH]; intros m p Hj; [by eauto|].
  destruct (step_lookup m tid j p Hj) as (q & Hq & Hle).
  destruct (IH _ _ Hq) as (q' & Hq' & Hle').
  exists q'. split; [done|lia].
Qed.

Lemma ranked_run r s m : ranked r m -> ranked r (run USE_ATOMICS s m).
Proof.
  intros Hr tid q Hq.
  destruct (threads m !! tid) as [p|] eqn:Hp.
  - destruct (run_lookup s m tid p Hp) as (q' & Hq' & Hle).
    simplify_eq. specialize (Hr _ _ Hp). lia.
  - exfalso. revert m Hr Hp Hq.
    induction s as [|t s IH]; intros m Hr Hp Hq; [by simplify_eq/=|].
    apply (IH (step USE_ATOMICS m t)); try done.
    + intros j p Hj.
      destruct (threads m !! j) as [p0|] eqn:Hp0.
      * destruct (step_lookup m t j p0 Hp0) as (q' & Hq' & Hle).
        simplify_eq. specialize (Hr _ _ Hp0). lia.
      * exfalso. apply lookup_ge_None in Hp0.
        apply lookup_lt_Some in Hj.
        destruct (threads m !! t) as [pt|] eqn:Ht;
          [|rewrite step_outside in Hj by done; lia].
        rewrite (step_inside _ _ _ Ht) in Hj. simpl in Hj.
        rewrite length_insert in Hj. lia.
    + apply lookup_ge_None. apply lookup_ge_None in Hp.
      destruct (threads m !! t) as [pt|] eqn:Ht;
        [|by rewrite step_outside].
      rewrite (step_inside _ _ _ Ht). simpl. by rewrite length_insert.
Qed.

(** Once every thread has arrived, the barrier is open. *)
Lemma barrier_open m :
  barrier_inv n m -> ranked 1 m -> wait_lock (mem m) = thread_count (mem m).
Proof.
  intros [_ Hlen Htc Hwl _] Hr. rewrite Hwl, Htc, <- Hlen.
  apply tally_full. intros p Hp.
  apply list_elem_of_lookup in Hp as [tid Hp].
  specialize (Hr _ _ Hp). destruct p; simpl in *; [lia|done..].
Qed.

(** A scheduled thread moves on, unless it spins before the others
    have arrived. *)
Lemma step_advances r m tid p :
  barrier_inv n m -> ranked r m -> threads m !! tid = Some p ->
  exists q, threads (step USE_ATOMICS m tid) !! tid = Some q
            /\ (Nat.min (S r) 5 <= rank q)%nat.
Proof.
  intros Hinv Hr Hp. rewrite (step_inside _ _ _ Hp). simpl.
  rewrite list_lookup_insert_eq by by eapply lookup_lt_Some.
  eexists; split; [done|].
  pose proof (Hr _ _ Hp) as Hme.
  destruct p; simpl in *; try lia.
  - destruct (wait_lock (mem m) =? thread_count (mem m)) eqn:E; simpl; [lia|].
    destruct r as [|r]; [lia|]. exfalso.
    apply Z.eqb_neq in E. apply E, barrier_open; [done|].
    intros j q Hq. specialize (Hr _ _ Hq). lia.
  - destruct USE_ATOMICS; simpl; lia.
Qed.

Lemma round_advances r s m :
  barrier_inv n m -> ranked r m ->
  forall tid q, tid ∈ s -> threads (run USE_ATOMICS s m) !! tid = Some q ->
  (Nat.min (S r) 5 <= rank q)%nat.
Proof.
  revert m. induction s as [|t s IH]; intros m Hinv Hr tid q Hin Hq.
  { by apply elem_of_nil in Hin. }
  assert (Hr' : ranked r (step USE_ATOMICS m t)) by apply (ranked_run r [t] m Hr).
  destruct (decide (tid ∈ s)) as [Hs|Hs].
  { by apply (IH _ (barrier_inv_step _ _ Hinv) Hr' tid q). }
  apply elem_of_cons in Hin as [->|Hin]; [|done].
  change (run USE_ATOMICS (t :: s) m) with (run USE_ATOMICS s (step USE_ATOMICS m t)) in Hq.
  destruct (threads m !! t) as [p|] eqn:Hp.
  - destruct (step_advances r m t p Hinv Hr Hp) as (q1 & Hq1 & Hle).
    destruct (run_lookup s _ t q1 Hq1) as (q2 & Hq2 & Hle2).
    simplify_eq. lia.
  - rewrite step_outside in Hq by done.
    assert (Hnone : threads (run USE_ATOMICS s m) !! t = None); [|congruence].
    pose proof (barrier_inv_run s m Hinv) as [_ Hlen' _ _ _].
    destruct Hinv as [_ Hlen _ _ _].
    apply lookup_ge_None. apply lookup_ge_None in Hp. lia.
Qed.

Lemma rounds_advance k r s m :
  barrier_inv n m -> ranked r m -> rounds k n s ->
  ranked (Nat.min (r + k) 5) (run USE_ATOMICS s m).
Proof.
  revert r s m. induction k as [|k IH]; intros r s m Hinv Hr Hk.
  { rewrite Nat.add_0_r. intros tid q Hq.
    pose proof (ranked_run r s m Hr _ _ Hq). lia. }
  destruct Hk as (s1 & s2 & -> & Hcov & Hk).
  unfold run. rewrite foldl_app. fold (run USE_ATOMICS s1 m).
  fold (run USE_ATOMICS s2 (run USE_ATOMICS s1 m)).
  assert (Hr1 : ranked (Nat.min (S r) 5) (run USE_ATOMICS s1 m)).
  { intros tid q Hq. apply (round_advances r s1 m Hinv Hr tid q); [|done].
    apply Hcov. apply lookup_lt_Some in Hq.
    pose proof (barrier_inv_run s1 m Hinv) as [_ Hlen' _ _ _]. lia. }
  pose proof (IH _ s2 _ (barrier_inv_run s1 m Hinv) Hr1 Hk) as H.
  intros tid q Hq. specialize (H _ _ Hq). lia.
Qed.

Lemma ranked_0 m : ranked 0 m.
Proof. intros tid p _. lia. Qed.

Lemma ranked_returned m :
  ranked 5 m -> forallb is_returned (threads m) = true.
Proof.
  intros Hr. apply forallb_forall. intros p Hp.
  apply list_elem_of_In, list_elem_of_lookup in Hp as [tid Hp].
  specialize (Hr _ _ Hp). destruct p; simpl in *; (done || lia).
Qed.

Lemma returned_stored m :
  forallb is_returned (threads m) = true ->
  tally stored (threads m) = Z.of_nat (length (threads m)).
Proof.
  intros H. apply tally_full. intros p Hp.
  rewrite forallb_forall in H. apply list_elem_of_In, H in Hp.
  by destruct p.
Qed.

Lemma arrivals_complete m :
  barrier_inv n m -> wait_lock (mem m) = thread_count (mem m) ->
  forall q, q ∈ threads m -> arrived q = 1.
Proof.
  intros [_ Hlen Htc Hwl _] Hopen q Hq.
  apply list_elem_of_lookup in Hq as [tid Hq].
  pose proof (arrived_mark q).
  destruct (decide (arrived q = 0)) as [E|]; [|lia].
  pose proof (tally_missing arrived arrived_mark _ _ _ Hq E). lia.
Qed.

End TrialFacts.

Lemma run_thread_count USE_ATOMICS s m :
  thread_count (Trial.mem (Trial.run USE_ATOMICS s m))
  = thread_count (Trial.mem m).
Proof.
  revert m. induction s as [|tid s IH]; intros m; [done|].
  change (Trial.run USE_ATOMICS (tid :: s) m)
    with (Trial.run USE_ATOMICS s (Trial.step USE_ATOMICS m tid)).
  rewrite IH.
  destruct (Trial.threads m !! tid) as [p|] eqn:Hp.
  - rewrite (step_inside _ _ _ _ Hp). simpl. apply worker_thread_count.
  - by rewrite step_outside.
Qed.

Lemma covers_seq n : Trial.covers n (seq 0 n).
Proof. intros tid H. apply elem_of_seq. lia. Qed.

Lemma rounds_round_robin k n : Trial.rounds k n (Trial.round_robin k n).
Proof.
  induction k as [|k IH]; [done|].
  exists (seq 0 n), (Trial.round_robin k n).
  split_and!; [done|apply covers_seq|done].
Qed.

(** A trial whose schedule has five rounds runs to the end of the
    [pthread_join] loop. *)
Lemma trial_completes USE_ATOMICS tc g sched :
  0 <= tc <= INT_MAX -> thread_count g = tc -> wait_lock g = 0 ->
  Trial.rounds 5 (Z.to_nat tc) sched ->
  Trial.create_threads_and_launch_worker USE_ATOMICS tc sched g
  = Some (Trial.mem (Trial.run USE_ATOMICS sched (Trial.spawn tc g))).
Proof.
  intros Htc Hg Hwl Hr. unfold Trial.create_threads_and_launch_worker.
  rewrite <- (Z2Nat.id tc) in * by lia.
  set (n := Z.to_nat tc) in *. rewrite Nat2Z.id in Hr.
  pose proof (barrier_inv_spawn n g (proj2 Htc) Hg Hwl) as Hinv.
  pose proof (rounds_advance USE_ATOMICS n 5 0 sched _ Hinv
                (ranked_0 _) Hr) as H5.
  by rewrite (ranked_returned _ H5).
Qed.

(** The globals a completed trial leaves behind. *)
Lemma trial_outcome USE_ATOMICS tc g sched g' :
  0 <= tc <= INT_MAX -> thread_count g = tc -> wait_lock g = 0 ->
  shared_data g = 0 ->
  Trial.create_threads_and_launch_worker USE_ATOMICS tc sched g = Some g' ->
  thread_count g' = tc /\ wait_lock g' = tc /\
  Trial.outcome_ok USE_ATOMICS tc (shared_data g').
Proof.
  intros Htc Hg Hwl Hsd. unfold Trial.create_threads_and_launch_worker.
  rewrite <- (Z2Nat.id tc) in * by lia.
  set (n := Z.to_nat tc) in *.
  pose proof (barrier_inv_spawn n g (proj2 Htc) Hg Hwl) as Hinv.
  pose proof (counter_inv_spawn USE_ATOMICS n g Hsd) as Hc.
  pose proof (counter_inv_run USE_ATOMICS n sched _ Hinv Hc) as [Hc' _].
  apply (barrier_inv_run USE_ATOMICS n sched) in Hinv.
  destruct (forallb _ _) eqn:Hdone; [|done]. intros [= <-].
  pose proof (returned_stored _ Hdone) as Hd.
  destruct Hinv as [_ Hlen Htc' Hwl' _]. rewrite Hd, Hlen in Hc'.
  unfold Trial.outcome_ok.
  split_and!; [done| |done].
  rewrite Hwl', (tally_full Trial.arrived); [by rewrite Hlen|]. intros p Hp.
  rewrite forallb_forall in Hdone. apply list_elem_of_In, Hdone in Hp.
  by destruct p.
Qed.

(** C1.  With the atomic counter ([USE_ATOMICS] set), a trial with
    [thread_count >= 1] workers started from the reset globals can only
    end with [shared_data = thread_count], whatever the interleaving;
    and under every schedule with five rounds it does end, with that
    value. *)
Theorem atomic_trial_counts_every_increment (tc : Z) (g : globals) (sched : list nat) :
  1 <= tc <= INT_MAX ->
  thread_count g = tc -> wait_lock g = 0 -> shared_data g = 0 ->
  (forall g',
     Trial.create_threads_and_launch_worker true tc sched g = Some g' ->
     shared_data g' = tc)
  /\ (Trial.rounds 5 (Z.to_nat tc) sched ->
      exists g',
        Trial.create_threads_and_launch_worker true tc sched g = Some g'
        /\ shared_data g' = tc).
Proof.
  intros Htc Hg Hwl Hsd.
  assert (Hout : forall g',
    Trial.create_threads_and_launch_worker true tc sched g = Some g' ->
    shared_data g' = tc).
  { intros g' Hrun.
    by destruct (trial_outcome true tc g sched g' ltac:(lia) Hg Hwl Hsd Hrun)
      as (_ & _ & ?). }
  split; [done|]. intros Hr. eexists. split; [|apply Hout];
    apply trial_completes; (done || lia).
Qed.

Lemma atomic_trial_counts_every_increment_witness :
  1 <= 4 <= INT_MAX
  /\ exists g',
       Trial.create_threads_and_launch_worker true 4
         (Trial.round_robin 5 4) (Globals 4 0 0) = Some g'
       /\ shared_data g' = 4.
Proof.
  split; [unfold INT_MAX; lia|].
  apply (atomic_trial_counts_every_increment 4 (Globals 4 0 0)
           (Trial.round_robin 5 4));
    [unfold INT_MAX; lia|reflexivity..|].
  apply (rounds_round_robin 5 4).
Defined.

(** C2.  In every state a trial of [thread_count] workers can reach, a
    worker that is past the barrier finds [wait_lock] equal to
    [thread_count], with every worker having arrived; and after two
    rounds of the scheduler every one of the [thread_count] workers is
    past the barrier: none is left spinning. *)
Theorem barrier_holds_then_releases
    (USE_ATOMICS : bool) (tc : Z) (g : globals) (sched : list nat) :
  1 <= tc <= INT_MAX ->
  thread_count g = tc -> wait_lock g = 0 ->
  let m := Trial.run USE_ATOMICS sched (Trial.spawn tc g) in
  length (Trial.threads m) = Z.to_nat tc
  /\ (forall tid p,
       Trial.threads m !! tid = Some p -> Trial.past_barrier p = true ->
       wait_lock (Trial.mem m) = tc
       /\ forall q, q ∈ Trial.threads m -> Trial.arrived q = 1)
  /\ (Trial.rounds 2 (Z.to_nat tc) sched ->
      forall tid p,
        Trial.threads m !! tid = Some p -> Trial.past_barrier p = true).
Proof.
  intros Htc Hg Hwl m. subst m.
  rewrite <- (Z2Nat.id tc) in Hg |- * by lia.
  set (n := Z.to_nat tc) in *. rewrite Nat2Z.id.
  assert (Hn : Z.of_nat n <= INT_MAX) by lia.
  pose proof (barrier_inv_spawn n g Hn Hg Hwl) as Hinv0.
  pose proof (barrier_inv_run USE_ATOMICS n sched _ Hinv0) as Hinv.
  split_and!.
  - by destruct Hinv.
  - intros tid p Hp Hpast.
    pose proof (Trial.inv_released _ _ Hinv _ _ Hp Hpast) as Hopen.
    split; [|by apply (arrivals_complete n)].
    rewrite Hopen. by destruct Hinv.
  - intros Hr tid p Hp.
    pose proof (rounds_advance USE_ATOMICS n 2 0 sched _ Hinv0
                  (ranked_0 _) Hr _ _ Hp) as H2.
    destruct p; simpl in *; (done || lia).
Qed.

Lemma barrier_holds_then_releases_witness :
  1 <= 4 <= INT_MAX
  /\ forall tid p,
       Trial.threads
         (Trial.run false (Trial.round_robin 2 4) (Trial.spawn 4 (Globals 4 0 0)))
         !! tid = Some p ->
       Trial.past_barrier p = true.
Proof.
  split; [unfold INT_MAX; lia|].
  apply (barrier_holds_then_releases false 4 (Globals 4 0 0)
           (Trial.round_robin 2 4));
    [unfold INT_MAX; lia|reflexivity..|].
  apply (rounds_round_robin 2 4).
Defined.

(** C3.  With the plain [int] counter ([USE_ATOMICS] clear: a load, an
    add and a store per worker), a trial with [thread_count >= 2]
    workers started from the reset globals can only end with
    [1 <= shared_data <= thread_count], whatever the interleaving; and
    under every schedule with five rounds it does end. *)
Theorem racy_trial_outcome_bounded (tc : Z) (g : globals) (sched : list nat) :
  2 <= tc <= INT_MAX ->
  thread_count g = tc -> wait_lock g = 0 -> shared_data g = 0 ->
  (forall g',
     Trial.create_threads_and_launch_worker false tc sched g = Some g' ->
     1 <= shared_data g' <= tc)
  /\ (Trial.rounds 5 (Z.to_nat tc) sched ->
      exists g',
        Trial.create_threads_and_launch_worker false tc sched g = Some g').
Proof.
  intros Htc Hg Hwl Hsd. split.
  - intros g' Hrun.
    destruct (trial_outcome false tc g sched g' ltac:(lia) Hg Hwl Hsd Hrun)
      as (_ & _ & ? & ?). lia.
  - intros Hr. eexists. apply trial_completes; (done || lia).
Qed.

Lemma racy_trial_outcome_bounded_witness :
  2 <= 2 <= INT_MAX
  /\ Trial.create_threads_and_launch_worker false 2
       (Trial.round_robin 5 2) (Globals 2 0 0) = Some (Globals 2 2 1)
  /\ 1 <= shared_data (Globals 2 2 1) <= 2.
Proof.
  split; [unfold INT_MAX; lia|]. split; [reflexivity|].
  apply (racy_trial_outcome_bounded 2 (Globals 2 0 0) (Trial.round_robin 5 2));
    [unfold INT_MAX; lia|reflexivity..].
Defined.

(** The second table of the source: two workers load 0, both store 1. *)
Example racy_trial_loses_an_increment :
  Trial.create_threads_and_launch_worker false 2
    [0; 1; 0; 1; 0; 1; 0; 1; 0; 1]%nat (Globals 2 0 0)
  = Some (Globals 2 2 1).
Proof. reflexivity. Qed.

(** ** Facts about [print_stats] *)
Section PrintStatsFacts.
Import Sweep.

(** A loop over the indices of an array is a fold over its elements. *)
Lemma foldl_indices {A : Type} (f : A -> Z -> A)
    (g : list Z -> option A -> nat -> option A) :
  (forall l a i x, l !! i = Some x -> g l (Some a) i = Some (f a x)) ->
  forall l pre a,
    foldl (g (pre ++ l)) (Some a) (seq (length pre) (length l))
    = Some (foldl f a l).
Proof.
  intros Hg l. induction l as [|x l IH]; intros pre a; [done|].
  cbn [length seq foldl].
  rewrite (Hg _ a _ x) by apply list_lookup_middle, eq_refl.
  replace (pre ++ x :: l) with ((pre ++ [x]) ++ l) by by rewrite <- app_assoc.
  replace (S (length pre)) with (length (pre ++ [x]))
    by (rewrite length_app; simpl; lia).
  apply IH.
Qed.

Lemma scan_loop results a :
  foldl (scan_step results) (Some a) (seq 0 (length results))
  = Some (foldl scan a results).
Proof.
  apply (foldl_indices scan scan_step) with (pre := []).
  intros l acc i x H. unfold scan_step. simpl. by rewrite H.
Qed.

Lemma deviation_loop results average a :
  foldl (deviation_step results average) (Some a) (seq 0 (length results))
  = Some (foldl (deviation average) a results).
Proof.
  apply (foldl_indices (deviation average)
           (fun l => deviation_step l average)) with (pre := []).
  intros l acc i x H. unfold deviation_step. simpl. by rewrite H.
Qed.

(** The three accumulators of the first loop do not depend on each
    other. *)
Lemma scan_components results sum max min :
  foldl scan (sum, max, min) results
  = (foldl (fun sum r => F32.add sum (F32.of_int r)) sum results,
     foldl (fun max r => if max <? r then r else max) max results,
     foldl (fun min r => if r <? min then r else min) min results).
Proof.
  revert sum max min. induction results as [|r l IH]; intros; [done|].
  simpl. apply IH.
Qed.

Lemma max_loop results max :
  foldl (fun max r => if max <? r then r else max) max results
  = foldr Z.max max results.
Proof.
  revert max. induction results as [|r l IH]; intros max; [done|].
  simpl. rewrite IH. destruct (Z.ltb_spec max r).
  - clear IH. induction l as [|x l IH]; simpl; lia.
  - clear IH. induction l as [|x l IH]; simpl; lia.
Qed.

Lemma min_loop results min :
  foldl (fun min r => if r <? min then r else min) min results
  = foldr Z.min min results.
Proof.
  revert min. induction results as [|r l IH]; intros min; [done|].
  simpl. rewrite IH. destruct (Z.ltb_spec r min).
  - clear IH. induction l as [|x l IH]; simpl; lia.
  - clear IH. induction l as [|x l IH]; simpl; lia.
Qed.

(** [print_stats] on an array of [experiment_count] cells, loop by
    loop. *)
Lemma print_stats_row cfg tc successes results :
  print_stats cfg tc successes results (Z.of_nat (length results))
  = Some (Row tc (total_experiments cfg)
            (wrap_int (total_experiments cfg - successes))
            (foldr Z.min (wrap_int (max_threads cfg + 1)) results)
            (mean results)
            (foldr Z.max 0 results)
            (population_variance results)
            (std_dev results)).
Proof.
  unfold print_stats. rewrite Nat2Z.id, scan_loop, scan_components.
  simpl. rewrite deviation_loop. simpl.
  by rewrite max_loop, min_loop.
Qed.

Lemma foldr_min_cases (m0 : Z) (batch : list Z) :
  foldr Z.min m0 batch <= m0
  /\ (forall x, x ∈ batch -> foldr Z.min m0 batch <= x)
  /\ (foldr Z.min m0 batch = m0 \/ foldr Z.min m0 batch ∈ batch).
Proof.
  induction batch as [|y l (IH0 & IHle & IHin)]; simpl.
  - split_and!; [lia| |by left]. intros x Hx. by apply elem_of_nil in Hx.
  - split_and!; [lia| |].
    + intros x [->|Hx]%elem_of_cons; [lia|]. specialize (IHle x Hx). lia.
    + destruct (Z.min_spec y (foldr Z.min m0 l)) as [[_ ->]|[_ ->]].
      * right. left.
      * destruct IHin as [->|Hin]; [by left|right; by right].
Qed.

Lemma foldr_max_cases (m0 : Z) (batch : list Z) :
  m0 <= foldr Z.max m0 batch
  /\ (forall x, x ∈ batch -> x <= foldr Z.max m0 batch)
  /\ (foldr Z.max m0 batch = m0 \/ foldr Z.max m0 batch ∈ batch).
Proof.
  induction batch as [|y l (IH0 & IHle & IHin)]; simpl.
  - split_and!; [lia| |by left]. intros x Hx. by apply elem_of_nil in Hx.
  - split_and!; [lia| |].
    + intros x [->|Hx]%elem_of_cons; [lia|]. specialize (IHle x Hx). lia.
    + destruct (Z.max_spec y (foldr Z.max m0 l)) as [[_ ->]|[_ ->]].
      * destruct IHin as [->|Hin]; [by left|right; by right].
      * right. left.
Qed.

Lemma foldr_min_spec (batch : list Z) (m0 m : Z) :
  is_minimum m batch -> foldr Z.min m0 batch = Z.min m m0.
Proof.
  intros [Hin Hle].
  destruct (foldr_min_cases m0 batch) as (H0 & Hall & [E|Hmem]).
  - specialize (Hall m Hin). lia.
  - specialize (Hall m Hin). specialize (Hle _ Hmem). lia.
Qed.

Lemma foldr_max_spec (batch : list Z) (m0 m : Z) :
  is_maximum m batch -> foldr Z.max m0 batch = Z.max m m0.
Proof.
  intros [Hin Hle].
  destruct (foldr_max_cases m0 batch) as (H0 & Hall & [E|Hmem]).
  - specialize (Hall m Hin). lia.
  - specialize (Hall m Hin). specialize (Hle _ Hmem). lia.
Qed.

End PrintStatsFacts.

(** ** Facts about the experiment loop and the sweep *)
Section SweepFacts.
Import Sweep.
Variable cfg : config.

Lemma failure_count_snoc expected batch v :
  failure_count expected (batch ++ [v])
  = failure_count expected batch + (if v =? expected then 0 else 1).
Proof.
  unfold failure_count. rewrite filter_app, length_app, Nat2Z.inj_add.
  f_equal. destruct (Z.eqb_spec v expected) as [->|Hne].
  - rewrite filter_cons_False by (intros H; by apply H). done.
  - rewrite filter_cons_True by done. done.
Qed.

Lemma failure_count_bounds expected batch :
  0 <= failure_count expected batch <= Z.of_nat (length batch).
Proof.
  unfold failure_count. pose proof (length_filter (fun x => x <> expected) batch).
  lia.
Qed.

Lemma globals_reset g g' :
  wait_lock g = 0 -> shared_data g = 0 -> thread_count g' = thread_count g ->
  set_shared_data 0 (set_wait_lock 0 g') = g.
Proof. destruct g, g'; simpl; intros -> -> ->. done. Qed.

(** The experiment loop after [k] experiments: the globals are reset,
    [successes] counts the outcomes equal to [thread_count] among the
    [k] recorded cells, and each recorded outcome is one a trial can
    leave. *)
Lemma experiments_prefix sched g k :
  let count := Z.to_nat (total_experiments cfg) in
  total_experiments cfg <= INT_MAX ->
  0 <= thread_count g <= INT_MAX -> wait_lock g = 0 -> shared_data g = 0 ->
  (k <= count)%nat ->
  forall g' successes results,
    foldl (experiment_step cfg sched) (Some (g, 0, replicate count 0)) (seq 0 k)
    = Some (g', successes, results) ->
    g' = g /\ length results = count
    /\ successes = Z.of_nat k - failure_count (thread_count g) (take k results)
    /\ Forall (Trial.outcome_ok (USE_ATOMICS cfg) (thread_count g)) (take k results).
Proof.
  intros count HK Htc Hwl Hsd. induction k as [|k IH]; intros Hk g' successes results.
  { simpl. intros [= <- <- <-]. rewrite length_replicate. split_and!; try done. }
  rewrite seq_S, foldl_app. simpl.
  destruct (foldl _ _ (seq 0 k)) as [[[g1 s1] r1]|] eqn:Hfold; [|done].
  destruct (IH ltac:(lia) _ _ _ eq_refl) as (-> & Hlen & -> & Hall).
  unfold experiment_step at 1. simpl.
  destruct (Trial.create_threads_and_launch_worker _ _ _ _) as [g2|] eqn:Hrun;
    [|done].
  simpl. intros [= <- <- <-].
  destruct (trial_outcome _ _ _ _ _ Htc eq_refl Hwl Hsd Hrun) as (Htc2 & _ & Hout).
  assert (Htake : take (S k) (<[k:=shared_data g2]> r1)
                  = take k r1 ++ [shared_data g2]).
  { rewrite (take_S_r _ _ (shared_data g2))
      by (apply list_lookup_insert_eq; lia).
    by rewrite take_insert_ge by lia. }
  split_and!.
  - by apply globals_reset.
  - by rewrite length_insert.
  - rewrite Htake, failure_count_snoc, Htc2.
    pose proof (failure_count_bounds (thread_count g) (take k r1)) as Hb.
    rewrite length_take in Hb.
    destruct (_ =? _); [|lia].
    rewrite wrap_int_id; unfold INT_MIN; lia.
  - rewrite Htake. apply Forall_app. split; [done|]. by apply Forall_singleton.
Qed.

(** Under schedules with five rounds every experiment completes. *)
Lemma experiments_complete sched g k :
  let count := Z.to_nat (total_experiments cfg) in
  total_experiments cfg <= INT_MAX ->
  0 <= thread_count g <= INT_MAX -> wait_lock g = 0 -> shared_data g = 0 ->
  (forall e, Trial.rounds 5 (Z.to_nat (thread_count g)) (sched e)) ->
  (k <= count)%nat ->
  exists successes results,
    foldl (experiment_step cfg sched) (Some (g, 0, replicate count 0)) (seq 0 k)
    = Some (g, successes, results).
Proof.
  intros count HK Htc Hwl Hsd Hfair. induction k as [|k IH]; intros Hk.
  { by eexists _, _. }
  destruct (IH ltac:(lia)) as (s1 & r1 & Hfold).
  rewrite seq_S, foldl_app, Hfold. simpl.
  pose proof (trial_completes (USE_ATOMICS cfg) _ _ _ Htc eq_refl Hwl (Hfair k))
    as Hrun.
  rewrite Hrun. simpl.
  destruct (trial_outcome _ _ _ _ _ Htc eq_refl Hwl Hsd Hrun) as (Htc2 & _).
  rewrite (globals_reset g _ Hwl Hsd Htc2). by eexists _, _.
Qed.

Lemma experiments_results sched g g' successes results :
  0 <= total_experiments cfg <= INT_MAX ->
  0 <= thread_count g <= INT_MAX -> wait_lock g = 0 -> shared_data g = 0 ->
  experiments cfg sched g = Some (g', successes, results) ->
  g' = g /\ Z.of_nat (length results) = total_experiments cfg
  /\ successes = total_experiments cfg - failure_count (thread_count g) results
  /\ Forall (Trial.outcome_ok (USE_ATOMICS cfg) (thread_count g)) results.
Proof.
  intros HK Htc Hwl Hsd Hrun.
  destruct (experiments_prefix sched g _ (proj2 HK) Htc Hwl Hsd (Nat.le_refl _)
              _ _ _ Hrun) as (-> & Hlen & -> & Hall).
  rewrite <- Hlen, firstn_all in *. split_and!; try done; lia.
Qed.

Lemma set_thread_count_same g : set_thread_count (thread_count g) g = g.
Proof. by destruct g. Qed.

(** The loop over [thread_count], from [t] to [max_threads]. *)
Lemma sweep_rows sched :
  0 <= total_experiments cfg <= INT_MAX ->
  max_threads cfg < INT_MAX ->
  (forall tc e, 1 <= tc <= max_threads cfg ->
     Trial.rounds 5 (Z.to_nat tc) (sched tc e)) ->
  forall (j : nat) t g out fuel,
    thread_count g = t -> 1 <= t -> Z.of_nat j = max_threads cfg + 1 - t ->
    wait_lock g = 0 -> shared_data g = 0 -> (j < fuel)%nat ->
    exists rows,
      sweep fuel cfg sched g out
      = Some (set_thread_count (max_threads cfg + 1) g, out ++ rows)
      /\ row_thread_count <$> rows = seqZ t (Z.of_nat j)
      /\ Forall (fun r => row_experiments r = total_experiments cfg) rows.
Proof.
  intros HK HM Hfair j.
  induction j as [|j IH]; intros t g out fuel Ht H1 Hj Hwl Hsd Hfuel;
    (destruct fuel as [|fuel]; [lia|]); simpl.
  - destruct (Z.leb_spec (thread_count g) (max_threads cfg)); [lia|].
    exists []. rewrite app_nil_r. split_and!; [|done..].
    replace (max_threads cfg + 1) with (thread_count g) by lia.
    by rewrite set_thread_count_same.
  - destruct (Z.leb_spec (thread_count g) (max_threads cfg)); [|lia].
    assert (Htc : 0 <= thread_count g <= INT_MAX) by lia.
    destruct (experiments_complete (sched (thread_count g)) g
                (Z.to_nat (total_experiments cfg))
                (proj2 HK) Htc Hwl Hsd) as (successes & results & Hrun);
      [intros e; apply Hfair; lia|done|].
    fold (experiments cfg (sched (thread_count g)) g) in Hrun.
    rewrite Hrun. simpl.
    destruct (experiments_results _ _ _ _ _ HK Htc Hwl Hsd Hrun)
      as (_ & Hlen & _).
    pose proof (print_stats_row cfg (thread_count g) successes results) as Hrow.
    rewrite Hlen in Hrow. rewrite Hrow. simpl.
    rewrite (wrap_int_id (thread_count g + 1)) by (unfold INT_MIN; lia).
    edestruct (IH (t + 1) (set_thread_count (thread_count g + 1) g))
      as (rows & -> & Htcs & HKs); [simpl; lia|lia|lia|done|done|lia|].
    eexists (_ :: rows). split_and!.
    + by rewrite <- app_assoc.
    + rewrite seqZ_cons by lia. rewrite fmap_cons, Htcs. simpl. rewrite Ht.
      do 2 f_equal; lia.
    + by constructor.
Qed.

Lemma filter_complement (expected : Z) (batch : list Z) :
  Z.of_nat (length (filter (fun outcome => outcome = expected) batch))
  = Z.of_nat (length batch) - failure_count expected batch.
Proof.
  unfold failure_count. induction batch as [|x l IH]; [done|].
  destruct (decide (x = expected)) as [->|Hne].
  - rewrite filter_cons_True by done.
    rewrite (filter_cons_False (fun outcome => outcome <> expected))
      by (intros H; by apply H).
    simpl length. lia.
  - rewrite filter_cons_False by done.
    rewrite (filter_cons_True (fun outcome => outcome <> expected)) by done.
    simpl length. lia.
Qed.

End SweepFacts.

(** C6.  For the batch the experiment loop records at a thread count,
    the failure column of its row is the number of recorded outcomes
    that differ from the expected value [thread_count]: the batch size
    less the number of outcomes equal to it, which is what [successes]
    counts. *)
Theorem failures_count_mismatches
    (cfg : Sweep.config) (sched : nat -> list nat)
    (g g' : globals) (successes : Z) (results : list Z) (r : Sweep.row) :
  0 <= Sweep.total_experiments cfg <= INT_MAX ->
  0 <= thread_count g <= INT_MAX -> wait_lock g = 0 -> shared_data g = 0 ->
  Sweep.experiments cfg sched g = Some (g', successes, results) ->
  Sweep.print_stats cfg (thread_count g) successes results
    (Sweep.total_experiments cfg) = Some r ->
  Z.of_nat (length results) = Sweep.total_experiments cfg
  /\ successes
     = Z.of_nat (length (filter (fun outcome => outcome = thread_count g) results))
  /\ Sweep.row_failures r = Sweep.failure_count (thread_count g) results.
Proof.
  intros HK Htc Hwl Hsd Hrun Hrow.
  destruct (experiments_results cfg _ _ _ _ _ HK Htc Hwl Hsd Hrun)
    as (_ & Hlen & -> & _).
  pose proof (print_stats_row cfg (thread_count g)
                (Sweep.total_experiments cfg
                 - Sweep.failure_count (thread_count g) results) results) as E.
  rewrite Hlen in E. rewrite E in Hrow. injection Hrow as <-. simpl.
  pose proof (failure_count_bounds (thread_count g) results).
  split_and!; [done|rewrite filter_complement; lia|].
  rewrite wrap_int_id; unfold INT_MIN; lia.
Qed.

Lemma failures_count_mismatches_witness :
  0 <= 5 <= INT_MAX
  /\ Sweep.row_failures
       (Sweep.Row 3 5 1 2 (S754_finite false 11744051 (-22)) 3
          (S754_finite false 10737418 (-26)) (S754_finite false 13421773 (-25)))
     = Sweep.failure_count 3 [3; 3; 3; 2; 3].
Proof.
  split; [unfold INT_MAX; lia|].
  apply (failures_count_mismatches
           (Sweep.Config 10 5 true true false) (Scenario.schedule 3)
           (Globals 3 0 0) (Globals 3 0 0) 4 [3; 3; 3; 2; 3]);
    try reflexivity; unfold INT_MAX; simpl; lia.
Defined.

Lemma complex_mode_result (cfg : Sweep.config) (sched : Z -> nat -> list nat)
    (g : globals) (fuel : nat) :
  0 <= Sweep.max_threads cfg < INT_MAX ->
  0 <= Sweep.total_experiments cfg <= INT_MAX ->
  wait_lock g = 0 -> shared_data g = 0 ->
  (forall tc e, 1 <= tc <= Sweep.max_threads cfg ->
     Trial.rounds 5 (Z.to_nat tc) (sched tc e)) ->
  (Z.to_nat (Sweep.max_threads cfg) < fuel)%nat ->
  exists rows,
    Sweep.complex_mode fuel cfg sched g = Some (g, rows)
    /\ Sweep.row_thread_count <$> rows = seqZ 1 (Sweep.max_threads cfg)
    /\ Forall (fun r => Sweep.row_experiments r = Sweep.total_experiments cfg) rows.
Proof.
  intros HM HK Hwl Hsd Hfair Hfuel. unfold Sweep.complex_mode.
  destruct (sweep_rows cfg sched HK (proj2 HM) Hfair
              (Z.to_nat (Sweep.max_threads cfg)) 1 (set_thread_count 1 g) [] fuel)
    as (rows & -> & Htcs & HKs); [done|lia|lia|done|done|done|].
  exists rows. simpl. rewrite Z2Nat.id in Htcs by lia.
  split_and!; [|done..]. by destruct g.
Qed.

(** C7.  With [max_threads = M] ([0 <= M < INT_MAX]) and
    [total_experiments = K], under schedules that let every trial end,
    [complex_mode] prints exactly [M] rows; their thread counts are
    1, 2, ..., [M] in this order and every row shows [K] experiments. *)
Theorem complex_mode_rows (cfg : Sweep.config) (sched : Z -> nat -> list nat)
    (g : globals) (fuel : nat) :
  0 <= Sweep.max_threads cfg < INT_MAX ->
  0 <= Sweep.total_experiments cfg <= INT_MAX ->
  wait_lock g = 0 -> shared_data g = 0 ->
  (forall tc e, 1 <= tc <= Sweep.max_threads cfg ->
     Trial.rounds 5 (Z.to_nat tc) (sched tc e)) ->
  (Z.to_nat (Sweep.max_threads cfg) < fuel)%nat ->
  exists g' rows,
    Sweep.complex_mode fuel cfg sched g = Some (g', rows)
    /\ Z.of_nat (length rows) = Sweep.max_threads cfg
    /\ Sweep.row_thread_count <$> rows = seqZ 1 (Sweep.max_threads cfg)
    /\ Forall (fun r => Sweep.row_experiments r = Sweep.total_experiments cfg) rows.
Proof.
  intros HM HK Hwl Hsd Hfair Hfuel.
  destruct (complex_mode_result cfg sched g fuel HM HK Hwl Hsd Hfair Hfuel)
    as (rows & Hrun & Htcs & HKs).
  exists g, rows. split_and!; try done.
  rewrite <- (length_fmap Sweep.row_thread_count), Htcs, length_seqZ. lia.
Qed.

Lemma complex_mode_rows_witness :
  exists g' rows,
    Sweep.complex_mode 6 (Sweep.Config 5 50 true true false)
      (fun tc _ => Trial.round_robin 5 (Z.to_nat tc)) (Sweep.initial_globals 8)
    = Some (g', rows)
    /\ Z.of_nat (length rows) = 5
    /\ Sweep.row_thread_count <$> rows = [1; 2; 3; 4; 5]
    /\ Forall (fun r => Sweep.row_experiments r = 50) rows.
Proof.
  apply (complex_mode_rows (Sweep.Config 5 50 true true false)
           (fun tc _ => Trial.round_robin 5 (Z.to_nat tc))
           (Sweep.initial_globals 8) 6);
    try reflexivity; try (unfold INT_MAX; simpl; lia).
  intros tc e _. apply rounds_round_robin.
Defined.

(** C10.  Whenever [complex_mode] returns, [thread_count] is what it
    was before the call, so the line of a following [simple_mode] shows
    the configured thread count.  Under schedules that let every trial
    end it does return, having printed the rows for thread counts 1 to
    [max_threads], and leaves all three globals as it found them. *)
Theorem complex_mode_restores_thread_count
    (cfg : Sweep.config) (sched : Z -> nat -> list nat) (g : globals) (fuel : nat) :
  0 <= Sweep.max_threads cfg < INT_MAX ->
  0 <= Sweep.total_experiments cfg <= INT_MAX ->
  wait_lock g = 0 -> shared_data g = 0 ->
  (forall tc e, 1 <= tc <= Sweep.max_threads cfg ->
     Trial.rounds 5 (Z.to_nat tc) (sched tc e)) ->
  (Z.to_nat (Sweep.max_threads cfg) < fuel)%nat ->
  (forall f s g' rows,
     Sweep.complex_mode f cfg s g = Some (g', rows) ->
     thread_count g' = thread_count g
     /\ forall s' g'' line,
          Sweep.simple_mode cfg s' g' = Some (g'', line) ->
          line.1 = thread_count g)
  /\ exists rows,
       Sweep.complex_mode fuel cfg sched g = Some (g, rows)
       /\ Sweep.row_thread_count <$> rows = seqZ 1 (Sweep.max_threads cfg).
Proof.
  intros HM HK Hwl Hsd Hfair Hfuel. split.
  - intros f s g' rows. unfold Sweep.complex_mode.
    destruct (Sweep.sweep f cfg s _ _) as [[g1 out]|]; [|done].
    simpl. intros [= <- <-]. split; [done|].
    intros s' g'' line. unfold Sweep.simple_mode.
    destruct (Trial.create_threads_and_launch_worker _ _ _ _) as [g2|] eqn:Hrun;
      [|done].
    simpl. intros [= <- <-]. simpl.
    unfold Trial.create_threads_and_launch_worker in Hrun.
    destruct (forallb _ _); [|done]. injection Hrun as <-.
    by rewrite run_thread_count.
  - destruct (complex_mode_result cfg sched g fuel HM HK Hwl Hsd Hfair Hfuel)
      as (rows & Hrun & Htcs & _).
    by exists rows.
Qed.

Lemma complex_mode_restores_thread_count_witness :
  exists rows,
    Sweep.complex_mode 11 (Sweep.Config 10 100 true true false)
      (fun tc _ => Trial.round_robin 5 (Z.to_nat tc)) (Sweep.initial_globals 8)
    = Some (Sweep.initial_globals 8, rows)
    /\ Sweep.row_thread_count <$> rows = [1; 2; 3; 4; 5; 6; 7; 8; 9; 10].
Proof.
  apply (complex_mode_restores_thread_count (Sweep.Config 10 100 true true false)
           (fun tc _ => Trial.round_robin 5 (Z.to_nat tc))
           (Sweep.initial_globals 8) 11);
    try reflexivity; try (unfold INT_MAX; simpl; lia).
  intros tc e _. apply rounds_round_robin.
Defined.

(** C9 as stated fails at the boundary: with [max_threads = 10] the
    batch [[11]] has no value [<= max_threads], yet the reported minimum
    11 is the true minimum of the batch and one of its elements. *)
Lemma sentinel_boundary_counterexample :
  exists r,
    Sweep.print_stats (Sweep.Config 10 100 true true false) 1 0 [11] 1 = Some r
    /\ Sweep.row_min r = 11
    /\ Sweep.is_minimum 11 [11]
    /\ ~ (exists x, x ∈ [11] /\ x <= 10).
Proof.
  eexists. split; [vm_compute; reflexivity|].
  cbn [Sweep.row_min]. split_and!; [done| |].
  - split; [left|]. by intros x ->%list_elem_of_singleton.
  - intros (x & ->%list_elem_of_singleton & H). lia.
Qed.

(** C9, amended.  The scan starts from [min = max_threads + 1] and
    [max = 0], so the reported minimum is the smaller of the true
    minimum and [max_threads + 1], and the reported maximum the larger
    of the true maximum and 0: the minimum is right exactly when some
    value is [<= max_threads + 1], the maximum exactly when some value
    is [>= 0]; a batch whose values all exceed [max_threads] is
    reported with minimum [max_threads + 1], a batch of negative values
    with maximum 0. *)
Theorem min_max_sentinels
    (cfg : Sweep.config) (tc successes : Z) (results : list Z) :
  INT_MIN <= Sweep.max_threads cfg < INT_MAX ->
  exists r,
    Sweep.print_stats cfg tc successes results (Z.of_nat (length results)) = Some r
    /\ (forall m, Sweep.is_minimum m results ->
          Sweep.row_min r = Z.min m (Sweep.max_threads cfg + 1)
          /\ (Sweep.row_min r = m <-> m <= Sweep.max_threads cfg + 1))
    /\ (forall m, Sweep.is_maximum m results ->
          Sweep.row_max r = Z.max m 0
          /\ (Sweep.row_max r = m <-> 0 <= m))
    /\ ((forall x, x ∈ results -> Sweep.max_threads cfg < x) ->
          Sweep.row_min r = Sweep.max_threads cfg + 1)
    /\ ((forall x, x ∈ results -> x < 0) -> Sweep.row_max r = 0).
Proof.
  intros HM. rewrite print_stats_row. eexists. split; [done|].
  cbn [Sweep.row_min Sweep.row_max].
  rewrite wrap_int_id by (unfold INT_MIN, INT_MAX in *; lia).
  split_and!.
  - intros m Hm. rewrite (foldr_min_spec _ _ m Hm). lia.
  - intros m Hm. rewrite (foldr_max_spec _ _ m Hm). lia.
  - intros Hall.
    destruct (foldr_min_cases (Sweep.max_threads cfg + 1) results)
      as (H0 & _ & [E|Hin]); [done|].
    specialize (Hall _ Hin). lia.
  - intros Hall.
    destruct (foldr_max_cases 0 results) as (H0 & _ & [E|Hin]); [done|].
    specialize (Hall _ Hin). lia.
Qed.

Lemma min_max_sentinels_witness :
  INT_MIN <= 10 < INT_MAX
  /\ exists r,
       Sweep.print_stats (Sweep.Config 10 100 true true false) 3 2 [12; 11; 13] 3
       = Some r
       /\ (forall m, Sweep.is_minimum m [12; 11; 13] ->
             Sweep.row_min r = Z.min m 11
             /\ (Sweep.row_min r = m <-> m <= 11))
       /\ (forall m, Sweep.is_maximum m [12; 11; 13] ->
             Sweep.row_max r = Z.max m 0
             /\ (Sweep.row_max r = m <-> 0 <= m))
       /\ ((forall x, x ∈ [12; 11; 13] -> 10 < x) -> Sweep.row_min r = 11)
       /\ ((forall x, x ∈ [12; 11; 13] -> x < 0) -> Sweep.row_max r = 0).
Proof.
  split; [unfold INT_MIN, INT_MAX; lia|].
  apply (min_max_sentinels (Sweep.Config 10 100 true true false) 3 2 [12; 11; 13]).
  unfold INT_MIN, INT_MAX. cbn [Sweep.max_threads]. lia.
Defined.

(** C4.  When the experiment loop at [thread_count = 3] records the
    batch [[3;3;3;2;3]] (five experiments), [print_stats] reports 1
    failure, minimum 2 and maximum 3; the average, variance and standard
    deviation are the [float]s nearest to 2.8, 0.16 and 0.4, printed
    under [%.2f] as 2.80, 0.16 and 0.40. *)
Theorem summary_of_3_3_3_2_3
    (cfg : Sweep.config) (sched : nat -> list nat) (g g' : globals) (successes : Z) :
  Sweep.total_experiments cfg = 5 ->
  1 <= Sweep.max_threads cfg < INT_MAX ->
  thread_count g = 3 -> wait_lock g = 0 -> shared_data g = 0 ->
  Sweep.experiments cfg sched g = Some (g', successes, [3; 3; 3; 2; 3]) ->
  exists r,
    Sweep.print_stats cfg 3 successes [3; 3; 3; 2; 3] 5 = Some r
    /\ Sweep.row_thread_count r = 3 /\ Sweep.row_experiments r = 5
    /\ Sweep.row_failures r = 1
    /\ Sweep.row_min r = 2 /\ Sweep.row_max r = 3
    /\ Sweep.row_average r = F32.div (F32.of_int 28) (F32.of_int 10)
    /\ Sweep.row_variance r = F32.div (F32.of_int 16) (F32.of_int 100)
    /\ Sweep.row_std_deviation r = F32.div (F32.of_int 4) (F32.of_int 10)
    /\ F32.centi (Sweep.row_average r) = Some 280
    /\ F32.centi (Sweep.row_variance r) = Some 16
    /\ F32.centi (Sweep.row_std_deviation r) = Some 40.
Proof.
  intros HK HM Htc Hwl Hsd Hrun.
  destruct (experiments_results cfg _ _ _ _ _
              ltac:(rewrite HK; unfold INT_MAX; lia)
              ltac:(rewrite Htc; unfold INT_MAX; lia) Hwl Hsd Hrun)
    as (_ & _ & -> & _).
  rewrite Htc, HK.
  change 5 with (Z.of_nat (length [3; 3; 3; 2; 3])) at 3.
  rewrite print_stats_row. eexists. split; [done|].
  cbn [Sweep.row_thread_count Sweep.row_experiments Sweep.row_failures
       Sweep.row_min Sweep.row_max Sweep.row_average Sweep.row_variance
       Sweep.row_std_deviation].
  rewrite HK, (wrap_int_id (Sweep.max_threads cfg + 1))
    by (unfold INT_MIN, INT_MAX in *; lia).
  split_and!; try (vm_compute; reflexivity).
  cbn [foldr]. lia.
Qed.

Lemma summary_of_3_3_3_2_3_witness :
  1 <= 10 < INT_MAX
  /\ exists r,
       Sweep.print_stats (Sweep.Config 10 5 true true false) 3 4 [3; 3; 3; 2; 3] 5
       = Some r
       /\ Sweep.row_thread_count r = 3 /\ Sweep.row_experiments r = 5
       /\ Sweep.row_failures r = 1
       /\ Sweep.row_min r = 2 /\ Sweep.row_max r = 3
       /\ Sweep.row_average r = F32.div (F32.of_int 28) (F32.of_int 10)
       /\ Sweep.row_variance r = F32.div (F32.of_int 16) (F32.of_int 100)
       /\ Sweep.row_std_deviation r = F32.div (F32.of_int 4) (F32.of_int 10)
       /\ F32.centi (Sweep.row_average r) = Some 280
       /\ F32.centi (Sweep.row_variance r) = Some 16
       /\ F32.centi (Sweep.row_std_deviation r) = Some 40.
Proof.
  split; [unfold INT_MAX; lia|].
  apply (summary_of_3_3_3_2_3 (Sweep.Config 10 5 true true false)
           (Scenario.schedule 3) (Globals 3 0 0) (Globals 3 0 0) 4);
    [reflexivity| |reflexivity..].
  unfold INT_MAX. cbn [Sweep.max_threads]. lia.
Defined.

(** ** Facts about binary32 arithmetic on small integers

    Integers below [2^24] in absolute value are [float]s, and sums and
    exact quotients of such integers are computed without rounding. *)

Lemma digits2_pos_bounds m :
  2 ^ (Zpos (digits2_pos m) - 1) <= Zpos m < 2 ^ Zpos (digits2_pos m).
Proof.
  induction m as [m IH|m IH|]; cbn [digits2_pos].
  - rewrite Pos2Z.inj_succ, Z.pow_succ_r by lia.
    replace (Z.succ (Z.pos (digits2_pos m)) - 1)
      with (Z.succ (Z.pos (digits2_pos m) - 1)) by lia.
    rewrite Z.pow_succ_r by lia. lia.
  - rewrite Pos2Z.inj_succ, Z.pow_succ_r by lia.
    replace (Z.succ (Z.pos (digits2_pos m)) - 1)
      with (Z.succ (Z.pos (digits2_pos m) - 1)) by lia.
    rewrite Z.pow_succ_r by lia. lia.
  - simpl. lia.
Qed.

Lemma digits2_pos_unique m d :
  2 ^ (d - 1) <= Zpos m < 2 ^ d -> Zpos (digits2_pos m) = d.
Proof.
  intros [Hlo Hhi]. pose proof (digits2_pos_bounds m) as [Hlo' Hhi'].
  assert (0 < d).
  { destruct (Z.lt_trichotomy d 0) as [H|[->|H]]; [|simpl in Hhi; lia|done].
    rewrite Z.pow_neg_r in Hhi by done. lia. }
  destruct (Z.lt_trichotomy (Zpos (digits2_pos m)) d) as [H1|[H1|H1]]; [|done|].
  - assert (2 ^ Zpos (digits2_pos m) <= 2 ^ (d - 1))
      by (apply Z.pow_le_mono_r; lia). lia.
  - assert (2 ^ d <= 2 ^ (Zpos (digits2_pos m) - 1))
      by (apply Z.pow_le_mono_r; lia). lia.
Qed.

Lemma iter_xO m p : Zpos (Pos.iter xO m p) = Zpos m * 2 ^ Zpos p.
Proof.
  induction p as [|p IH] using Pos.peano_ind.
  - simpl. lia.
  - rewrite Pos.iter_succ, Pos2Z.inj_succ, Z.pow_succ_r by lia.
    rewrite Pos2Z.inj_xO, IH. lia.
Qed.

Lemma iter_pos_iter {A} (f : A -> A) p x : SpecFloat.iter_pos f p x = Pos.iter f x p.
Proof.
  revert x. induction p as [p IH|p IH|]; intros x; simpl.
  - rewrite !IH. by rewrite <- !Pos.iter_swap.
  - by rewrite !IH.
  - done.
Qed.

Lemma shr_exact q p :
  SpecFloat.iter_pos shr_1 p (Build_shr_record (Zpos (Pos.iter xO q p)) false false)
  = Build_shr_record (Zpos q) false false.
Proof.
  rewrite iter_pos_iter. revert q.
  induction p as [|p IH] using Pos.peano_ind; intros q.
  - done.
  - rewrite !Pos.iter_succ. rewrite <- (Pos.iter_swap p _ xO q). by rewrite IH.
Qed.

Lemma fexp32 e : -125 <= e -> fexp 24 128 e = e - 24.
Proof. unfold fexp, emin. lia. Qed.

Lemma digits_normal q : 2 ^ 23 <= Zpos q < 2 ^ 24 -> Zpos (digits2_pos q) = 24.
Proof. intros H. by apply digits2_pos_unique. Qed.

Lemma digits_iter_xO q p :
  Zpos (digits2_pos (Pos.iter xO q p)) = Zpos (digits2_pos q) + Zpos p.
Proof.
  induction p as [|p IH] using Pos.peano_ind.
  - simpl. lia.
  - rewrite Pos.iter_succ. cbn [digits2_pos]. rewrite Pos2Z.inj_succ, IH. lia.
Qed.

Lemma round_aux_normal s q e :
  2 ^ 23 <= Zpos q < 2 ^ 24 -> -149 <= e <= 104 ->
  binary_round_aux 24 128 s (Zpos q) e loc_Exact = S754_finite s q e.
Proof.
  intros Hq He. unfold binary_round_aux, shr_fexp. 
  cbn [Zdigits2 shr_record_of_loc].
  rewrite (digits_normal q Hq), fexp32 by lia.
  replace (24 + e - 24 - e) with 0 by lia. cbn [shr loc_of_shr_record shr_m shr_r shr_s round_nearest_even Zdigits2].
  rewrite (digits_normal q Hq), fexp32 by lia.
  replace (24 + e - 24 - e) with 0 by lia. cbn [shr shr_m].
  destruct (Z.leb_spec e (128 - 24)); [done|lia].
Qed.

Lemma round_aux_shifted s q p e :
  2 ^ 23 <= Zpos q < 2 ^ 24 -> -149 <= e + Zpos p <= 104 ->
  binary_round_aux 24 128 s (Zpos (Pos.iter xO q p)) e loc_Exact
  = S754_finite s q (e + Zpos p).
Proof.
  intros Hq He. unfold binary_round_aux, shr_fexp at 1.
  cbn [Zdigits2 shr_record_of_loc].
  rewrite digits_iter_xO, (digits_normal q Hq), fexp32 by lia.
  replace (24 + Zpos p + e - 24 - e) with (Zpos p) by lia.
  cbn [shr]. rewrite shr_exact.
  cbn [loc_of_shr_record shr_m shr_r shr_s round_nearest_even].
  unfold shr_fexp. cbn [Zdigits2 shr_record_of_loc].
  rewrite (digits_normal q Hq), fexp32 by lia.
  replace (24 + (e + Zpos p) - 24 - (e + Zpos p)) with 0 by lia. cbn [shr shr_m].
  destruct (Z.leb_spec (e + Zpos p) (128 - 24)); [done|lia].
Qed.

(** [binary_round] of a value that a normal mantissa [q] represents at
    exponent [E]. *)
Lemma binary_round_exact s m e q E :
  2 ^ 23 <= Zpos q < 2 ^ 24 -> -149 <= E <= 104 ->
  (E <= e /\ Zpos q = Zpos m * 2 ^ (e - E)
   \/ e <= E /\ Zpos m = Zpos q * 2 ^ (E - e)) ->
  binary_round 24 128 s m e = S754_finite s q E.
Proof.
  intros Hq HE Hval. unfold binary_round.
  assert (Hd : Zpos (digits2_pos m) + e = 24 + E).
  { destruct Hval as [[Hle Hv]|[Hle Hv]].
    - destruct (Z.eq_dec e E) as [->|Hne].
      + rewrite Z.sub_diag, Z.mul_1_r in Hv. injection Hv as ->.
        rewrite (digits_normal _ Hq). lia.
      + destruct (e - E) as [|d|d] eqn:Hd; try lia.
        rewrite <- iter_xO in Hv. injection Hv as ->.
        pose proof (digits_normal _ Hq) as H24.
        rewrite digits_iter_xO in H24. lia.
    - destruct (Z.eq_dec e E) as [->|Hne].
      + rewrite Z.sub_diag, Z.mul_1_r in Hv. injection Hv as ->.
        rewrite (digits_normal _ Hq). lia.
      + destruct (E - e) as [|d|d] eqn:Hd; try lia.
        rewrite <- iter_xO in Hv. injection Hv as ->.
        rewrite digits_iter_xO, (digits_normal _ Hq). lia. }
  rewrite Hd, fexp32 by lia. replace (24 + E - 24) with E by lia.
  unfold shl_align.
  destruct Hval as [[Hle Hv]|[Hle Hv]].
  - destruct (E - e) as [|d|d] eqn:Hd'; try lia.
    + assert (e = E) as -> by lia.
      rewrite Z.sub_diag, Z.mul_1_r in Hv. injection Hv as ->.
      by apply round_aux_normal.
    + replace (e - E) with (Zpos d) in Hv by lia.
      rewrite <- iter_xO in Hv. injection Hv as <-.
      by apply round_aux_normal.
  - destruct (E - e) as [|d|d] eqn:Hd'; try lia.
    + assert (e = E) as -> by lia.
      rewrite Z.mul_1_r in Hv. injection Hv as ->.
      by apply round_aux_normal.
    + rewrite <- iter_xO in Hv. injection Hv as ->.
      replace E with (e + Zpos d) by lia.
      apply round_aux_shifted; [done|lia].
Qed.

(** Every nonzero integer below [2^24] has a normal mantissa. *)
Lemma normal_mantissa z :
  z <> 0 -> Z.abs z < 2 ^ 24 ->
  exists (q : positive) (c : Z),
    0 <= c <= 23 /\ Zpos q = Z.abs z * 2 ^ c /\ 2 ^ 23 <= Zpos q < 2 ^ 24.
Proof.
  intros Hz Hlt.
  pose proof (Z.log2_spec (Z.abs z) ltac:(lia)) as [Hlo Hhi].
  pose proof (Z.log2_nonneg (Z.abs z)) as H0.
  assert (Z.log2 (Z.abs z) < 24).
  { apply Z.log2_lt_pow2; lia. }
  set (c := 23 - Z.log2 (Z.abs z)).
  assert (Hpow : 2 ^ 23 = 2 ^ Z.log2 (Z.abs z) * 2 ^ c).
  { rewrite <- Z.pow_add_r by lia. f_equal. lia. }
  assert (Hpow' : 2 ^ 24 = 2 ^ Z.succ (Z.log2 (Z.abs z)) * 2 ^ c).
  { rewrite <- Z.pow_add_r by lia. f_equal. lia. }
  assert (0 < 2 ^ c) by (apply Z.pow_pos_nonneg; lia).
  exists (Z.to_pos (Z.abs z * 2 ^ c)), c.
  rewrite Z2Pos.id by lia. split_and!; try lia.
  - rewrite Hpow. apply Z.mul_le_mono_nonneg_r; lia.
  - rewrite Hpow'. apply Z.mul_lt_mono_pos_r; lia.
Qed.

Lemma of_int_normal z q c :
  0 <= c <= 23 -> Zpos q = Z.abs z * 2 ^ c -> 2 ^ 23 <= Zpos q < 2 ^ 24 ->
  F32.of_int z = S754_finite (z <? 0) q (- c).
Proof.
  intros Hc Hq Hn. unfold F32.of_int, binary_normalize.
  destruct z as [|p|p]; [simpl in Hq; lia|..].
  - apply binary_round_exact; [done|lia|]. left. split; [lia|].
    by replace (0 - - c) with c by lia.
  - apply binary_round_exact; [done|lia|]. left. split; [lia|].
    by replace (0 - - c) with c by lia.
Qed.

(** Normalizing [z * 2^k] at exponent [-k] gives [(float) z]. *)
Lemma normalize_exact z k :
  Z.abs z < 2 ^ 24 -> 0 <= k ->
  binary_normalize 24 128 (z * 2 ^ k) (- k) false = F32.of_int z.
Proof.
  intros Hz Hk. destruct (Z.eq_dec z 0) as [->|Hne]; [done|].
  destruct (normal_mantissa z Hne Hz) as (q & c & Hc & Hq & Hn).
  assert (Hpk : 0 < 2 ^ k) by (apply Z.pow_pos_nonneg; lia).
  rewrite (of_int_normal z q c Hc Hq Hn). unfold binary_normalize.
  destruct (z * 2 ^ k) as [|m|m] eqn:Hm; [lia|..].
  - assert (0 < z) by nia. replace (z <? 0) with false by lia.
    apply binary_round_exact; [done|lia|].
    rewrite Z.abs_eq in Hq by lia.
    destruct (Z.le_ge_cases k c).
    + left. split; [lia|]. rewrite <- Hm, Hq, <- Z.mul_assoc, <- Z.pow_add_r by lia.
      do 2 f_equal. lia.
    + right. split; [lia|]. rewrite <- Hm, Hq, <- Z.mul_assoc, <- Z.pow_add_r by lia.
      do 2 f_equal. lia.
  - assert (z < 0) by nia. replace (z <? 0) with true by lia.
    apply binary_round_exact; [done|lia|].
    rewrite Z.abs_neq in Hq by lia.
    assert (Hm' : Zpos m = - z * 2 ^ k) by lia.
    destruct (Z.le_ge_cases k c).
    + left. split; [lia|]. rewrite Hm', Hq, <- Z.mul_assoc, <- Z.pow_add_r by lia.
      do 2 f_equal. lia.
    + right. split; [lia|]. rewrite Hm', Hq, <- Z.mul_assoc, <- Z.pow_add_r by lia.
      do 2 f_equal. lia.
Qed.

Lemma shl_align_fst m e e' :
  e' <= e -> Zpos (fst (shl_align m e e')) = Zpos m * 2 ^ (e - e').
Proof.
  intros Hle. unfold shl_align.
  destruct (e' - e) as [|d|d] eqn:Hd; try lia.
  - replace (e - e') with 0 by lia. simpl. lia.
  - simpl. rewrite iter_xO. f_equal. f_equal. lia.
Qed.

Lemma cond_Zopp_abs z k :
  cond_Zopp (z <? 0) (Z.abs z * k) = z * k.
Proof. destruct (Z.ltb_spec z 0); simpl; lia. Qed.

(** The sum of two integers is exact in [float] while everything stays
    below [2^24]. *)
Lemma add_exact a b :
  Z.abs a < 2 ^ 24 -> Z.abs b < 2 ^ 24 -> Z.abs (a + b) < 2 ^ 24 ->
  F32.add (F32.of_int a) (F32.of_int b) = F32.of_int (a + b).
Proof.
  intros Ha Hb Hab.
  destruct (Z.eq_dec b 0) as [->|Hb0].
  { rewrite Z.add_0_r. change (F32.of_int 0) with (S754_zero false).
    destruct (Z.eq_dec a 0) as [->|Ha0]; [done|].
    destruct (normal_mantissa a Ha0 Ha) as (q & c & Hc & Hq & Hn).
    by rewrite (of_int_normal a q c Hc Hq Hn). }
  destruct (normal_mantissa b Hb0 Hb) as (qb & cb & Hcb & Hqb & Hnb).
  destruct (Z.eq_dec a 0) as [->|Ha0].
  { rewrite Z.add_0_l. change (F32.of_int 0) with (S754_zero false).
    by rewrite (of_int_normal b qb cb Hcb Hqb Hnb). }
  destruct (normal_mantissa a Ha0 Ha) as (qa & ca & Hca & Hqa & Hna).
  rewrite (of_int_normal a qa ca Hca Hqa Hna), (of_int_normal b qb cb Hcb Hqb Hnb).
  unfold F32.add. cbn [SFadd].
  set (k := Z.max ca cb).
  replace (Z.min (- ca) (- cb)) with (- k) by lia.
  rewrite !shl_align_fst by lia.
  rewrite Hqa, Hqb, <- !Z.mul_assoc, <- !Z.pow_add_r by lia.
  replace (ca + (- ca - - k)) with k by lia.
  replace (cb + (- cb - - k)) with k by lia.
  rewrite !cond_Zopp_abs, <- Z.mul_add_distr_r.
  by apply normalize_exact; [|lia].
Qed.

Lemma div_eucl_exact b Q : 0 < b -> Z.div_eucl (b * Q) b = (Q, 0).
Proof.
  intros Hb.
  assert (E : Z.div_eucl (b * Q) b = ((b * Q) / b, (b * Q) mod b)).
  { unfold Z.div, Z.modulo. by destruct (Z.div_eucl (b * Q) b). }
  rewrite E, (Z.mul_comm b Q), Z.div_mul, Z.mod_mul by lia. done.
Qed.

Lemma new_location_exact m : new_location m 0 = loc_Exact.
Proof. unfold new_location. by destruct (Z.even m). Qed.

Lemma div_core_exact_gen q1 e1 q2 e2 Q :
  2 ^ 23 <= Zpos q1 < 2 ^ 24 -> 2 ^ 23 <= Zpos q2 < 2 ^ 24 ->
  -125 <= e1 - e2 ->
  Zpos q1 * 2 ^ 24 = Zpos q2 * Q ->
  SFdiv_core_binary 24 128 (Zpos q1) e1 (Zpos q2) e2
  = (Q, e1 - e2 - 24, loc_Exact).
Proof.
  intros H1 H2 He HQ. unfold SFdiv_core_binary. cbn [Zdigits2].
  rewrite (digits_normal _ H1), (digits_normal _ H2).
  replace (fexp 24 128 (24 + e1 - (24 + e2))) with (e1 - e2 - 24)
    by (unfold fexp, emin; lia).
  replace (Z.min (e1 - e2 - 24) (e1 - e2)) with (e1 - e2 - 24) by lia.
  replace (e1 - e2 - (e1 - e2 - 24)) with 24 by lia.
  cbv zeta. cbv iota. rewrite Z.shiftl_mul_pow2 by lia.
  rewrite HQ, div_eucl_exact by lia. by rewrite new_location_exact.
Qed.

Lemma div_core_exact q1 c1 q2 c2 Q :
  2 ^ 23 <= Zpos q1 < 2 ^ 24 -> 2 ^ 23 <= Zpos q2 < 2 ^ 24 ->
  0 <= c1 <= 23 -> 0 <= c2 <= 23 ->
  Zpos q1 * 2 ^ 24 = Zpos q2 * Q ->
  SFdiv_core_binary 24 128 (Zpos q1) (- c1) (Zpos q2) (- c2)
  = (Q, c2 - c1 - 24, loc_Exact).
Proof.
  intros H1 H2 Hc1 Hc2 HQ. rewrite (div_core_exact_gen _ _ _ _ Q) by (done || lia).
  do 2 f_equal. lia.
Qed.

(** Dividing [n * v] by [n] gives back [v] exactly. *)
Lemma div_exact n v :
  1 <= n < 2 ^ 24 -> Z.abs (n * v) < 2 ^ 24 ->
  F32.div (F32.of_int (n * v)) (F32.of_int n) = F32.of_int v.
Proof.
  intros Hn Hnv.
  destruct (normal_mantissa n ltac:(lia) ltac:(lia)) as (q2 & c2 & Hc2 & Hq2 & Hn2).
  rewrite (of_int_normal n q2 c2 Hc2 Hq2 Hn2).
  replace (n <? 0) with false by lia.
  destruct (Z.eq_dec v 0) as [->|Hv0].
  { by rewrite Z.mul_0_r. }
  assert (Hv : Z.abs v < 2 ^ 24) by nia.
  destruct (normal_mantissa v Hv0 Hv) as (qv & cv & Hcv & Hqv & Hnv').
  destruct (normal_mantissa (n * v) ltac:(nia) Hnv) as (q1 & c1 & Hc1 & Hq1 & Hn1).
  rewrite (of_int_normal _ q1 c1 Hc1 Hq1 Hn1), (of_int_normal v qv cv Hcv Hqv Hnv').
  replace (n * v <? 0) with (v <? 0)
    by (destruct (Z.ltb_spec v 0), (Z.ltb_spec (n * v) 0); (done || nia)).
  rewrite Z.abs_eq in Hq2 by lia. rewrite Z.abs_mul, (Z.abs_eq n) in Hq1 by lia.
  (* the three mantissas *)
  assert (Hprod : Zpos q1 * 2 ^ (c2 + cv) = Zpos q2 * Zpos qv * 2 ^ c1).
  { rewrite Hq1, Hq2, Hqv, !Z.pow_add_r by lia. ring. }
  assert (Hlo : 23 <= c2 + cv - c1).
  { destruct (Z.le_gt_cases 23 (c2 + cv - c1)) as [|Hlt]; [done|exfalso].
    assert (2 ^ (c2 + cv) <= 2 ^ (c1 + 22)) by (apply Z.pow_le_mono_r; lia).
    assert (E : 2 ^ (c1 + 22) = 2 ^ c1 * 2 ^ 22) by (rewrite Z.pow_add_r; lia).
    assert (0 < 2 ^ c1) by (apply Z.pow_pos_nonneg; lia).
    assert (2 ^ 23 * 2 ^ 23 <= Zpos q2 * Zpos qv) by nia.
    assert (Zpos q1 * 2 ^ (c2 + cv) < 2 ^ 24 * (2 ^ c1 * 2 ^ 22)) by nia.
    nia. }
  assert (Hhi : c2 + cv - c1 <= 24).
  { destruct (Z.le_gt_cases (c2 + cv - c1) 24) as [|Hlt]; [done|exfalso].
    assert (2 ^ (c1 + 25) <= 2 ^ (c2 + cv)) by (apply Z.pow_le_mono_r; lia).
    assert (E : 2 ^ (c1 + 25) = 2 ^ c1 * 2 ^ 25) by (rewrite Z.pow_add_r; lia).
    assert (0 < 2 ^ c1) by (apply Z.pow_pos_nonneg; lia).
    assert (Zpos q2 * Zpos qv < 2 ^ 24 * 2 ^ 24) by nia.
    assert (2 ^ 23 * (2 ^ c1 * 2 ^ 25) <= Zpos q1 * 2 ^ (c2 + cv)) by nia.
    nia. }
  remember (24 + c1 - c2 - cv) as t eqn:Et.
  unfold F32.div. cbn [SFdiv].
  rewrite (div_core_exact q1 c1 q2 c2 (Zpos qv * 2 ^ t)); try done.
  - rewrite xorb_false_r.
    destruct (Z.eq_dec t 0) as [Ht|Ht].
    + rewrite Ht, Z.mul_1_r.
      replace (c2 - c1 - 24) with (- cv) by lia.
      apply round_aux_normal; [done|lia].
    + assert (t = 1) as Ht1 by lia. rewrite Ht1.
      rewrite <- (iter_xO qv 1).
      replace (- cv) with (c2 - c1 - 24 + 1) by lia.
      apply round_aux_shifted; [done|lia].
  - rewrite Hq1, Hq2, Hqv, Et.
    rewrite <- !Z.mul_assoc, <- !Z.pow_add_r by lia.
    rewrite (Z.mul_comm (2 ^ c2)), <- !Z.mul_assoc, <- Z.pow_add_r by lia.
    do 3 f_equal. lia.
Qed.

Lemma shr_1_mantissa mrs :
  0 <= shr_m mrs -> shr_m (shr_1 mrs) = shr_m mrs / 2 /\ 0 <= shr_m (shr_1 mrs).
Proof.
  destruct mrs as [m r s]. cbn [shr_m]. intros Hm.
  destruct m as [|[p|p|]|p]; cbn [shr_1 shr_m]; try lia.
  - done.
  - split; [|lia]. apply Z.div_unique with 1; lia.
  - split; [|lia]. apply Z.div_unique with 0; lia.
  - done.
Qed.

Lemma shr_mantissa p mrs :
  0 <= shr_m mrs ->
  shr_m (SpecFloat.iter_pos shr_1 p mrs) = shr_m mrs / 2 ^ Zpos p.
Proof.
  rewrite iter_pos_iter. intros Hm.
  enough (shr_m (Pos.iter shr_1 mrs p) = shr_m mrs / 2 ^ Zpos p
          /\ 0 <= shr_m (Pos.iter shr_1 mrs p)) by tauto.
  induction p as [|p [IH IH0]] using Pos.peano_ind.
  - simpl. by apply shr_1_mantissa.
  - rewrite Pos.iter_succ.
    destruct (shr_1_mantissa _ IH0) as [-> H0]. split; [|done].
    rewrite IH, Pos2Z.inj_succ, Z.pow_succ_r, Z.div_div by lia.
    f_equal. lia.
Qed.

Lemma round_nearest_even_cases m l :
  round_nearest_even m l = m \/ round_nearest_even m l = m + 1.
Proof.
  destruct l as [|[]]; simpl; auto. destruct (Z.even m); auto.
Qed.

(** Rounding a mantissa of more than 24 bits gives a normal [float]. *)
Lemma round_aux_wide s m e :
  2 ^ 24 <= Zpos m -> -149 <= e -> Zpos (digits2_pos m) + e <= 127 ->
  exists q e',
    binary_round_aux 24 128 s (Zpos m) e loc_Exact = S754_finite s q e'
    /\ 2 ^ 23 <= Zpos q < 2 ^ 24 /\ e < e' <= 104.
Proof.
  intros Hm He Hd.
  pose proof (digits2_pos_bounds m) as [Hlo Hhi].
  set (d := Zpos (digits2_pos m)) in *.
  assert (Hd25 : 25 <= d).
  { destruct (Z.le_gt_cases 25 d); [done|].
    assert (2 ^ d <= 2 ^ 24) by (apply Z.pow_le_mono_r; lia). lia. }
  unfold binary_round_aux, shr_fexp at 1. cbn [Zdigits2 shr_record_of_loc].
  fold d. rewrite fexp32 by lia.
  replace (d + e - 24 - e) with (d - 24) by lia.
  destruct (d - 24) as [|p|p] eqn:Hp; try lia. cbn [shr].
  set (rec1 := SpecFloat.iter_pos shr_1 p _).
  assert (Hm1 : shr_m rec1 = Zpos m / 2 ^ Zpos p).
  { unfold rec1. by rewrite shr_mantissa. }
  assert (Hpow : 2 ^ d = 2 ^ 24 * 2 ^ Zpos p).
  { rewrite <- Z.pow_add_r by lia. f_equal. lia. }
  assert (Hpow' : 2 ^ (d - 1) = 2 ^ 23 * 2 ^ Zpos p).
  { rewrite <- Z.pow_add_r by lia. f_equal. lia. }
  assert (0 < 2 ^ Zpos p) by (apply Z.pow_pos_nonneg; lia).
  assert (Hn1 : 2 ^ 23 <= shr_m rec1 < 2 ^ 24).
  { rewrite Hm1. split.
    - apply Z.div_le_lower_bound; lia.
    - apply Z.div_lt_upper_bound; lia. }
  destruct (round_nearest_even_cases (shr_m rec1) (loc_of_shr_record rec1))
    as [Hr|Hr]; rewrite Hr.
  - destruct (shr_m rec1) as [|q|q] eqn:Hq; try lia.
    unfold shr_fexp. cbn [Zdigits2 shr_record_of_loc].
    rewrite (digits_normal q Hn1), fexp32 by lia.
    replace (24 + (e + Zpos p) - 24 - (e + Zpos p)) with 0 by lia.
    cbn [shr shr_m].
    destruct (Z.leb_spec (e + Zpos p) (128 - 24)); [|lia].
    exists q, (e + Zpos p). split_and!; (done || lia).
  - destruct (Z.eq_dec (shr_m rec1 + 1) (2 ^ 24)) as [E|E].
    + rewrite E. change (2 ^ 24) with (Zpos (Pos.iter xO 8388608%positive 1)).
      unfold shr_fexp. cbn [Zdigits2 shr_record_of_loc].
      rewrite digits_iter_xO.
      change (Zpos (digits2_pos 8388608%positive)) with 24.
      rewrite fexp32 by lia.
      replace (24 + 1 + (e + Zpos p) - 24 - (e + Zpos p)) with 1 by lia.
      cbn [shr]. rewrite (shr_exact 8388608%positive 1). cbn [shr_m].
      destruct (Z.leb_spec (e + Zpos p + 1) (128 - 24)); [|lia].
      exists 8388608%positive, (e + Zpos p + 1). split_and!; (done || lia).
    + destruct (shr_m rec1 + 1) as [|q|q] eqn:Hq; try lia.
      assert (Hn : 2 ^ 23 <= Zpos q < 2 ^ 24) by lia.
      unfold shr_fexp. cbn [Zdigits2 shr_record_of_loc].
      rewrite (digits_normal q Hn), fexp32 by lia.
      replace (24 + (e + Zpos p) - 24 - (e + Zpos p)) with 0 by lia.
      cbn [shr shr_m].
      destruct (Z.leb_spec (e + Zpos p) (128 - 24)); [|lia].
      exists q, (e + Zpos p). split_and!; (done || lia).
Qed.

(** [(float) i] is a normal [float] for every nonzero [int]. *)
Lemma of_int_finite z :
  z <> 0 -> Z.abs z <= 2 ^ 31 ->
  exists q e,
    F32.of_int z = S754_finite (z <? 0) q e
    /\ 2 ^ 23 <= Zpos q < 2 ^ 24 /\ -23 <= e <= 104.
Proof.
  intros Hz Hint. destruct (Z.lt_ge_cases (Z.abs z) (2 ^ 24)) as [Hs|Hl].
  { destruct (normal_mantissa z Hz Hs) as (q & c & Hc & Hq & Hn).
    exists q, (- c). rewrite (of_int_normal z q c Hc Hq Hn).
    split_and!; (done || lia). }
  assert (Hwide : forall s m, Zpos m = Z.abs z ->
    exists q e, binary_round 24 128 s m 0 = S754_finite s q e
                /\ 2 ^ 23 <= Zpos q < 2 ^ 24 /\ -23 <= e <= 104).
  { intros s m Hm. unfold binary_round.
    pose proof (digits2_pos_bounds m) as [Hlo Hhi].
    assert (25 <= Zpos (digits2_pos m)).
    { destruct (Z.le_gt_cases 25 (Zpos (digits2_pos m))); [done|].
      assert (2 ^ Zpos (digits2_pos m) <= 2 ^ 24)
        by (apply Z.pow_le_mono_r; lia). lia. }
    assert (Zpos (digits2_pos m) <= 32).
    { destruct (Z.le_gt_cases (Zpos (digits2_pos m)) 32); [done|].
      assert (2 ^ 32 <= 2 ^ (Zpos (digits2_pos m) - 1))
        by (apply Z.pow_le_mono_r; lia). lia. }
    rewrite fexp32 by lia. unfold shl_align.
    destruct (Z.pos (digits2_pos m) + 0 - 24 - 0) eqn:E; try lia.
    destruct (round_aux_wide s m 0) as (q & e & -> & Hn & He); try lia.
    exists q, e. split_and!; (done || lia). }
  unfold F32.of_int, binary_normalize. destruct z as [|m|m]; [done|..].
  - apply Hwide. simpl. done.
  - apply Hwide. simpl. done.
Qed.

(** Dividing a normal [float] by [(float) 1] changes nothing. *)
Lemma div_one s q e :
  2 ^ 23 <= Zpos q < 2 ^ 24 -> -148 <= e <= 104 ->
  F32.div (S754_finite s q e) (F32.of_int 1) = S754_finite s q e.
Proof.
  intros Hq He.
  change (F32.of_int 1) with (S754_finite false 8388608 (-23)).
  unfold F32.div. cbn [SFdiv].
  rewrite (div_core_exact_gen q e 8388608 (-23) (Zpos (Pos.iter xO q 1)));
    [|done|done|lia|rewrite iter_xO; lia].
  rewrite xorb_false_r.
  replace e with (e - -23 - 24 + Zpos 1) at 2 by lia.
  apply round_aux_shifted; [done|lia].
Qed.


(** ** Exact operations on integers, in [float] and in [double]

    For a format of [prec] bits, [binary_normalize prec emax z 0 false]
    is the integer [z] as a floating-point number.  Differences, sums
    and squares of integers below [2^prec] are computed without
    rounding, conversions between [float] and [double] keep integers
    below [2^24], and the [double] square root of a square is exact. *)
Section Rounding.
Variables prec emax : Z.
Hypothesis prec_pos : 1 < prec.
Hypothesis prec_emax : prec < emax.

Lemma fexp_normal e : 3 - emax <= e -> fexp prec emax e = e - prec.
Proof. unfold fexp, emin. lia. Qed.

Lemma digits_of_normal q :
  2 ^ (prec - 1) <= Zpos q < 2 ^ prec -> Zpos (digits2_pos q) = prec.
Proof. intros H. by apply digits2_pos_unique. Qed.

(** Rounding a normal mantissa, possibly followed by zeros, changes
    nothing. *)
Lemma round_aux_exact s m q p e :
  2 ^ (prec - 1) <= Zpos q < 2 ^ prec -> 0 <= p ->
  Zpos m = Zpos q * 2 ^ p ->
  3 - emax - prec <= e + p <= emax - prec ->
  binary_round_aux prec emax s (Zpos m) e loc_Exact = S754_finite s q (e + p).
Proof.
  intros Hq Hp Hm He.
  assert (Hfinal : forall e', 3 - emax - prec <= e' <= emax - prec ->
    (let '(mrs, e'') := shr_fexp prec emax (Zpos q) e' loc_Exact in
     match shr_m mrs with
     | 0 => S754_zero s
     | Zpos m => if e'' <=? emax - prec then S754_finite s m e'' else S754_infinity s
     | Zneg _ => S754_nan
     end) = S754_finite s q e').
  { intros e' He'. unfold shr_fexp. cbn [Zdigits2 shr_record_of_loc].
    rewrite (digits_of_normal q Hq), fexp_normal by lia.
    replace (prec + e' - prec - e') with 0 by lia. cbn [shr shr_m].
    destruct (Z.leb_spec e' (emax - prec)); [done|lia]. }
  destruct p as [|p|p]; [| |lia].
  - rewrite Z.mul_1_r in Hm. injection Hm as ->. rewrite Z.add_0_r in *.
    unfold binary_round_aux, shr_fexp at 1. cbn [Zdigits2 shr_record_of_loc].
    rewrite (digits_of_normal q Hq), fexp_normal by lia.
    replace (prec + e - prec - e) with 0 by lia.
    cbn [shr loc_of_shr_record shr_m shr_r shr_s round_nearest_even].
    by apply Hfinal.
  - rewrite <- iter_xO in Hm. injection Hm as ->.
    unfold binary_round_aux, shr_fexp at 1. cbn [Zdigits2 shr_record_of_loc].
    rewrite digits_iter_xO, (digits_of_normal q Hq), fexp_normal by lia.
    replace (prec + Zpos p + e - prec - e) with (Zpos p) by lia.
    cbn [shr]. rewrite shr_exact.
    cbn [loc_of_shr_record shr_m shr_r shr_s round_nearest_even].
    by apply Hfinal.
Qed.


Lemma digits_shift (a b : positive) k :
  0 <= k -> Zpos a = Zpos b * 2 ^ k ->
  Zpos (digits2_pos a) = Zpos (digits2_pos b) + k.
Proof.
  intros Hk H. destruct k as [|k|k]; [| |lia].
  - rewrite Z.mul_1_r in H. injection H as ->. lia.
  - rewrite <- iter_xO in H. injection H as ->. apply digits_iter_xO.
Qed.

(** [binary_round] of a value that the normal mantissa [q] represents
    at exponent [E]. *)
Lemma binary_round_value s m e q E :
  2 ^ (prec - 1) <= Zpos q < 2 ^ prec ->
  3 - emax - prec <= E <= emax - prec ->
  (E <= e /\ Zpos q = Zpos m * 2 ^ (e - E)
   \/ e <= E /\ Zpos m = Zpos q * 2 ^ (E - e)) ->
  binary_round prec emax s m e = S754_finite s q E.
Proof.
  intros Hq HE Hval. unfold binary_round.
  assert (Hd : Zpos (digits2_pos m) + e = prec + E).
  { destruct Hval as [[Hle Hv]|[Hle Hv]].
    - pose proof (digits_shift q m (e - E) ltac:(lia) Hv) as Hd.
      rewrite (digits_of_normal q Hq) in Hd. lia.
    - rewrite (digits_shift m q (E - e) ltac:(lia) Hv), (digits_of_normal q Hq).
      lia. }
  rewrite Hd, fexp_normal by lia. replace (prec + E - prec) with E by lia.
  unfold shl_align.
  destruct Hval as [[Hle Hv]|[Hle Hv]].
  - destruct (E - e) as [|d|d] eqn:Hd'; try lia.
    + replace (e - E) with 0 in Hv by lia.
      rewrite (round_aux_exact s m q 0 e) by (done || lia).
      f_equal. lia.
    + replace (e - E) with (Zpos d) in Hv by lia.
      rewrite (round_aux_exact s _ q 0 E); [f_equal; lia|done|lia| |lia].
      rewrite iter_xO. lia.
  - destruct (E - e) as [|d|d] eqn:Hd'; try lia.
    + rewrite (round_aux_exact s m q 0 e) by (done || lia).
      f_equal. lia.
    + rewrite (round_aux_exact s m q (Zpos d) e) by (done || lia).
      f_equal. lia.
Qed.

(** Every nonzero integer below [2^prec] has a normal mantissa. *)
Lemma normal_mantissa_of z :
  z <> 0 -> Z.abs z < 2 ^ prec ->
  exists (q : positive) (c : Z),
    0 <= c <= prec - 1 /\ Zpos q = Z.abs z * 2 ^ c
    /\ 2 ^ (prec - 1) <= Zpos q < 2 ^ prec.
Proof.
  intros Hz Hlt.
  pose proof (Z.log2_spec (Z.abs z) ltac:(lia)) as [Hlo Hhi].
  pose proof (Z.log2_nonneg (Z.abs z)) as H0.
  assert (Z.log2 (Z.abs z) < prec).
  { apply Z.log2_lt_pow2; lia. }
  set (c := prec - 1 - Z.log2 (Z.abs z)).
  assert (Hpow : 2 ^ (prec - 1) = 2 ^ Z.log2 (Z.abs z) * 2 ^ c).
  { rewrite <- Z.pow_add_r by lia. f_equal. lia. }
  assert (Hpow' : 2 ^ prec = 2 ^ Z.succ (Z.log2 (Z.abs z)) * 2 ^ c).
  { rewrite <- Z.pow_add_r by lia. f_equal. lia. }
  assert (0 < 2 ^ c) by (apply Z.pow_pos_nonneg; lia).
  exists (Z.to_pos (Z.abs z * 2 ^ c)), c.
  rewrite Z2Pos.id by lia. split_and!; try lia.
  - rewrite Hpow. apply Z.mul_le_mono_nonneg_r; lia.
  - rewrite Hpow'. apply Z.mul_lt_mono_pos_r; lia.
Qed.

(** The integer [z] as a floating-point number. *)
Lemma integer_normal z q c :
  0 <= c <= prec - 1 -> Zpos q = Z.abs z * 2 ^ c ->
  2 ^ (prec - 1) <= Zpos q < 2 ^ prec ->
  binary_normalize prec emax z 0 false = S754_finite (z <? 0) q (- c).
Proof.
  intros Hc Hq Hn. unfold binary_normalize.
  destruct z as [|p|p]; [simpl in Hq; lia|..].
  - apply binary_round_value; [done|lia|]. left. split; [lia|].
    by replace (0 - - c) with c by lia.
  - apply binary_round_value; [done|lia|]. left. split; [lia|].
    by replace (0 - - c) with c by lia.
Qed.

(** Normalizing [z * 2^k] at exponent [-k] gives the integer [z]. *)
Lemma normalize_integer z k :
  Z.abs z < 2 ^ prec -> 0 <= k ->
  binary_normalize prec emax (z * 2 ^ k) (- k) false
  = binary_normalize prec emax z 0 false.
Proof.
  intros Hz Hk. destruct (Z.eq_dec z 0) as [->|Hne]; [done|].
  destruct (normal_mantissa_of z Hne Hz) as (q & c & Hc & Hq & Hn).
  assert (Hpk : 0 < 2 ^ k) by (apply Z.pow_pos_nonneg; lia).
  rewrite (integer_normal z q c Hc Hq Hn).
  unfold binary_normalize at 1.
  destruct (z * 2 ^ k) as [|m|m] eqn:Hm; [lia|..].
  - assert (0 < z) by nia. replace (z <? 0) with false by lia.
    apply binary_round_value; [done|lia|].
    rewrite Z.abs_eq in Hq by lia.
    destruct (Z.le_ge_cases k c).
    + left. split; [lia|]. rewrite <- Hm, Hq, <- Z.mul_assoc, <- Z.pow_add_r by lia.
      do 2 f_equal. lia.
    + right. split; [lia|]. rewrite <- Hm, Hq, <- Z.mul_assoc, <- Z.pow_add_r by lia.
      do 2 f_equal. lia.
  - assert (z < 0) by nia. replace (z <? 0) with true by lia.
    apply binary_round_value; [done|lia|].
    rewrite Z.abs_neq in Hq by lia.
    assert (Hm' : Zpos m = - z * 2 ^ k) by lia.
    destruct (Z.le_ge_cases k c).
    + left. split; [lia|]. rewrite Hm', Hq, <- Z.mul_assoc, <- Z.pow_add_r by lia.
      do 2 f_equal. lia.
    + right. split; [lia|]. rewrite Hm', Hq, <- Z.mul_assoc, <- Z.pow_add_r by lia.
      do 2 f_equal. lia.
Qed.

(** Sums and differences of integers are exact while everything stays
    below [2^prec]. *)
Lemma add_integers a b :
  Z.abs a < 2 ^ prec -> Z.abs b < 2 ^ prec -> Z.abs (a + b) < 2 ^ prec ->
  SFadd prec emax (binary_normalize prec emax a 0 false)
    (binary_normalize prec emax b 0 false)
  = binary_normalize prec emax (a + b) 0 false.
Proof.
  intros Ha Hb Hab.
  destruct (Z.eq_dec b 0) as [->|Hb0].
  { rewrite Z.add_0_r. change (binary_normalize prec emax 0 0 false) with (S754_zero false).
    destruct (Z.eq_dec a 0) as [->|Ha0]; [done|].
    destruct (normal_mantissa_of a Ha0 Ha) as (q & c & Hc & Hq & Hn).
    by rewrite (integer_normal a q c Hc Hq Hn). }
  destruct (normal_mantissa_of b Hb0 Hb) as (qb & cb & Hcb & Hqb & Hnb).
  destruct (Z.eq_dec a 0) as [->|Ha0].
  { rewrite Z.add_0_l. change (binary_normalize prec emax 0 0 false) with (S754_zero false).
    by rewrite (integer_normal b qb cb Hcb Hqb Hnb). }
  destruct (normal_mantissa_of a Ha0 Ha) as (qa & ca & Hca & Hqa & Hna).
  rewrite (integer_normal a qa ca Hca Hqa Hna), (integer_normal b qb cb Hcb Hqb Hnb).
  cbn [SFadd].
  set (k := Z.max ca cb).
  replace (Z.min (- ca) (- cb)) with (- k) by lia.
  rewrite !shl_align_fst by lia.
  rewrite Hqa, Hqb, <- !Z.mul_assoc, <- !Z.pow_add_r by lia.
  replace (ca + (- ca - - k)) with k by lia.
  replace (cb + (- cb - - k)) with k by lia.
  rewrite !cond_Zopp_abs, <- Z.mul_add_distr_r.
  by apply normalize_integer; [|lia].
Qed.

Lemma sub_integers a b :
  Z.abs a < 2 ^ prec -> Z.abs b < 2 ^ prec -> Z.abs (a - b) < 2 ^ prec ->
  SFsub prec emax (binary_normalize prec emax a 0 false)
    (binary_normalize prec emax b 0 false)
  = binary_normalize prec emax (a - b) 0 false.
Proof.
  intros Ha Hb Hab.
  destruct (Z.eq_dec b 0) as [->|Hb0].
  { rewrite Z.sub_0_r. change (binary_normalize prec emax 0 0 false) with (S754_zero false).
    destruct (Z.eq_dec a 0) as [->|Ha0]; [done|].
    destruct (normal_mantissa_of a Ha0 Ha) as (q & c & Hc & Hq & Hn).
    by rewrite (integer_normal a q c Hc Hq Hn). }
  destruct (normal_mantissa_of b Hb0 Hb) as (qb & cb & Hcb & Hqb & Hnb).
  destruct (Z.eq_dec a 0) as [->|Ha0].
  { rewrite Z.sub_0_l. change (binary_normalize prec emax 0 0 false) with (S754_zero false).
    rewrite (integer_normal b qb cb Hcb Hqb Hnb).
    rewrite (integer_normal (- b) qb cb Hcb) by (done || (rewrite Z.abs_opp; done)).
    cbn [SFsub]. f_equal.
    destruct (Z.ltb_spec b 0), (Z.ltb_spec (- b) 0); (done || lia). }
  destruct (normal_mantissa_of a Ha0 Ha) as (qa & ca & Hca & Hqa & Hna).
  rewrite (integer_normal a qa ca Hca Hqa Hna), (integer_normal b qb cb Hcb Hqb Hnb).
  cbn [SFsub].
  set (k := Z.max ca cb).
  replace (Z.min (- ca) (- cb)) with (- k) by lia.
  rewrite !shl_align_fst by lia.
  rewrite Hqa, Hqb, <- !Z.mul_assoc, <- !Z.pow_add_r by lia.
  replace (ca + (- ca - - k)) with k by lia.
  replace (cb + (- cb - - k)) with k by lia.
  rewrite !cond_Zopp_abs, <- Z.mul_sub_distr_r.
  by apply normalize_integer; [|lia].
Qed.

(** The square of an integer is exact while it stays below [2^prec]. *)
Lemma square_integer a :
  a * a < 2 ^ prec ->
  SFmul prec emax (binary_normalize prec emax a 0 false)
    (binary_normalize prec emax a 0 false)
  = binary_normalize prec emax (a * a) 0 false.
Proof.
  intros Haa.
  destruct (Z.eq_dec a 0) as [->|Ha0]; [done|].
  assert (Ha : Z.abs a < 2 ^ prec) by nia.
  destruct (normal_mantissa_of a Ha0 Ha) as (q & c & Hc & Hq & Hn).
  assert (Haa0 : a * a <> 0) by nia.
  assert (Haa' : Z.abs (a * a) < 2 ^ prec) by lia.
  destruct (normal_mantissa_of (a * a) Haa0 Haa') as (Q & C & HC & HQ & HN).
  rewrite (integer_normal a q c Hc Hq Hn), (integer_normal (a * a) Q C HC HQ HN).
  cbn [SFmul]. rewrite xorb_nilpotent.
  replace (a * a <? 0) with false by nia.
  rewrite Z.abs_mul in HQ.
  assert (Hprod : Zpos (q * q) * 2 ^ C = Zpos Q * 2 ^ (c + c)).
  { rewrite Pos2Z.inj_mul, Hq, HQ, Z.pow_add_r by lia. ring. }
  assert (HCc : C <= c + c).
  { destruct (Z.le_gt_cases C (c + c)) as [|Hgt]; [done|exfalso].
    assert (E : 2 ^ C = 2 ^ (c + c) * 2 ^ (C - (c + c))).
    { rewrite <- Z.pow_add_r by lia. f_equal. lia. }
    assert (2 ^ 1 <= 2 ^ (C - (c + c))) by (apply Z.pow_le_mono_r; lia).
    assert (0 < 2 ^ (c + c)) by (apply Z.pow_pos_nonneg; lia).
    assert (E2 : 2 ^ prec = 2 ^ (prec - 1) * 2).
    { replace prec with (prec - 1 + 1) at 1 by lia.
      rewrite Z.pow_add_r by lia. done. }
    assert (2 <= 2 ^ (prec - 1)).
    { change 2 with (2 ^ 1) at 1. apply Z.pow_le_mono_r; lia. }
    assert (Zpos (q * q) * 2 ^ (C - (c + c)) = Zpos Q) by nia.
    assert (2 ^ (prec - 1) * 2 ^ (prec - 1) <= Zpos (q * q))
      by (rewrite Pos2Z.inj_mul; nia).
    nia. }
  replace (- C) with (- c + - c + (c + c - C)) by lia.
  apply round_aux_exact; [done|lia| |lia].
  assert (E : 2 ^ (c + c) = 2 ^ (c + c - C) * 2 ^ C).
  { rewrite <- Z.pow_add_r by lia. f_equal. lia. }
  assert (0 < 2 ^ C) by (apply Z.pow_pos_nonneg; lia).
  rewrite E in Hprod. nia.
Qed.

End Rounding.

(** The integer [z] as a [double]. *)
Lemma to_double_integer z :
  Z.abs z < 2 ^ 24 ->
  F32.to_double (F32.of_int z) = binary_normalize 53 1024 z 0 false.
Proof.
  intros Hz. destruct (Z.eq_dec z 0) as [->|Hne]; [done|].
  destruct (normal_mantissa z Hne Hz) as (q & c & Hc & Hq & Hn).
  rewrite (of_int_normal z q c Hc Hq Hn).
  assert (HQ : Zpos (Pos.iter xO q 29) = Z.abs z * 2 ^ (c + 29)).
  { rewrite iter_xO, Hq, Z.pow_add_r by lia. ring. }
  assert (HN : 2 ^ (53 - 1) <= Zpos (Pos.iter xO q 29) < 2 ^ 53).
  { rewrite iter_xO. lia. }
  rewrite (integer_normal 53 1024 ltac:(lia) ltac:(lia) z _ (c + 29)
             ltac:(lia) HQ HN).
  assert (E : forall s, binary_round 53 1024 s q (- c)
                        = S754_finite s (Pos.iter xO q 29) (- (c + 29))).
  { intros s. apply binary_round_value; [lia|done|lia|].
    left. split; [lia|]. rewrite iter_xO. do 2 f_equal. lia. }
  unfold F32.to_double, binary_normalize.
  destruct (z <? 0); cbn [cond_Zopp Z.opp]; apply E.
Qed.

(** A [double] that holds an integer below [2^24] is stored in a
    [float] unchanged. *)
Lemma of_double_integer z :
  Z.abs z < 2 ^ 24 ->
  F32.of_double (binary_normalize 53 1024 z 0 false) = F32.of_int z.
Proof.
  intros Hz. rewrite <- to_double_integer by done.
  destruct (Z.eq_dec z 0) as [->|Hne]; [done|].
  destruct (normal_mantissa z Hne Hz) as (q & c & Hc & Hq & Hn).
  rewrite (of_int_normal z q c Hc Hq Hn).
  assert (E : forall s, F32.to_double (S754_finite s q (- c))
                        = S754_finite s (Pos.iter xO q 29) (- c - 29)).
  { intros s. unfold F32.to_double, binary_normalize.
    assert (E : binary_round 53 1024 s q (- c)
                = S754_finite s (Pos.iter xO q 29) (- c - 29)).
    { apply binary_round_value; [lia|rewrite iter_xO; lia|lia|].
      left. split; [lia|]. rewrite iter_xO. do 2 f_equal. lia. }
    destruct s; cbn [cond_Zopp Z.opp]; apply E. }
  rewrite E. unfold F32.of_double, binary_normalize.
  assert (E' : forall s, binary_round 24 128 s (Pos.iter xO q 29) (- c - 29)
                         = S754_finite s q (- c)).
  { intros s. apply binary_round_exact; [done|lia|].
    right. split; [lia|]. rewrite iter_xO. do 2 f_equal. lia. }
  destruct (z <? 0); cbn [cond_Zopp Z.opp]; apply E'.
Qed.

(** The square root of a square is exact in [double]. *)
Lemma sqrt_integer r :
  0 <= r -> r * r < 2 ^ 53 ->
  SFsqrt 53 1024 (binary_normalize 53 1024 (r * r) 0 false)
  = binary_normalize 53 1024 r 0 false.
Proof.
  intros Hr Hrr. destruct (Z.eq_dec r 0) as [->|Hne]; [done|].
  assert (Hrr0 : r * r <> 0) by nia.
  destruct (normal_mantissa_of 53 ltac:(lia) (r * r) Hrr0 ltac:(lia))
    as (Q & C & HC & HQ & HN).
  rewrite (integer_normal 53 1024 ltac:(lia) ltac:(lia) _ Q C HC HQ HN).
  replace (r * r <? 0) with false by nia.
  rewrite Z.abs_eq in HQ by nia.
  cbn [SFsqrt]. unfold SFsqrt_core_binary. cbn [Zdigits2].
  rewrite (digits_of_normal 53 Q HN).
  rewrite !Z.div2_div.
  replace ((53 + - C + 1) / 2) with (27 + - C / 2)
    by (pose proof (Z.div_mod (- C) 2 ltac:(lia));
        pose proof (Z.div_mod (53 + - C + 1) 2 ltac:(lia));
        pose proof (Z.mod_pos_bound (- C) 2 ltac:(lia));
        pose proof (Z.mod_pos_bound (53 + - C + 1) 2 ltac:(lia)); lia).
  assert (Hhalf : -26 <= - C / 2 <= 0).
  { pose proof (Z.div_mod (- C) 2 ltac:(lia)).
    pose proof (Z.mod_pos_bound (- C) 2 ltac:(lia)). lia. }
  rewrite fexp_normal by lia.
  replace (Z.min (27 + - C / 2 - 53) (- C / 2)) with (- C / 2 - 26) by lia.
  set (e' := - C / 2 - 26).
  assert (Hs : - C - 2 * e' = 52 \/ - C - 2 * e' = 53).
  { unfold e'. pose proof (Z.div_mod (- C) 2 ltac:(lia)).
    pose proof (Z.mod_pos_bound (- C) 2 ltac:(lia)). lia. }
  assert (Hqq : Zpos Q * 2 ^ (- C - 2 * e')
                = (r * 2 ^ (- e')) * (r * 2 ^ (- e'))).
  { rewrite HQ, <- Z.mul_assoc, <- Z.pow_add_r by lia.
    replace (C + (- C - 2 * e')) with (- e' + - e') by lia.
    rewrite Z.pow_add_r by lia. ring. }
  assert (Hshift : match - C - 2 * e' with
                   | 0 => Zpos Q
                   | Zpos _ => Z.shiftl (Zpos Q) (- C - 2 * e')
                   | Zneg _ => 0
                   end = (r * 2 ^ (- e')) * (r * 2 ^ (- e'))).
  { rewrite <- Hqq.
    destruct Hs as [E | E]; rewrite E; by rewrite Z.shiftl_mul_pow2. }
  rewrite Hshift.
  set (q := r * 2 ^ (- e')) in *.
  assert (Hq0 : 0 < q).
  { unfold q. assert (0 < 2 ^ (- e')) by (apply Z.pow_pos_nonneg; lia). nia. }
  pose proof (Z.sqrtrem_spec (q * q) ltac:(nia)) as Hspec.
  pose proof (Z.sqrtrem_sqrt (q * q)) as Hfst.
  rewrite Z.sqrt_square in Hfst by lia.
  destruct (Z.sqrtrem (q * q)) as [s0 r0]. simpl in Hfst. subst s0.
  assert (r0 = 0) as -> by lia.
  cbn [Z.eqb].
  assert (Hn : 2 ^ (53 - 1) <= q < 2 ^ 53).
  { destruct Hs as [E | E]; rewrite E in Hqq; clear - Hqq HN Hq0; nia. }
  destruct q as [|qp|qp] eqn:Eq; try lia.
  assert (Hqp : Zpos qp = Z.abs r * 2 ^ (- e')).
  { rewrite Z.abs_eq by lia. unfold q in Eq. lia. }
  rewrite (integer_normal 53 1024 ltac:(lia) ltac:(lia) r qp (- e')
             ltac:(lia) Hqp Hn).
  replace (r <? 0) with false by lia.
  replace (S754_finite false qp (- - e')) with (S754_finite false qp (e' + 0))
    by (f_equal; lia).
  apply round_aux_exact; [done|lia|lia|lia].
Qed.

(** ** Facts about the summary *)
Section SummaryFacts.
Import Sweep.

Lemma magnitude_nonneg batch : 0 <= magnitude batch.
Proof. induction batch as [|x l IH]; simpl; lia. Qed.

(** The running sum of the first loop is the integer sum. *)
Lemma sum_loop_exact batch a :
  Z.abs a + magnitude batch < 2 ^ 24 ->
  foldl (fun sum r => F32.add sum (F32.of_int r)) (F32.of_int a) batch
  = F32.of_int (a + foldr Z.add 0 batch).
Proof.
  revert a. induction batch as [|x l IH]; intros a Ha; simpl in *.
  - by rewrite Z.add_0_r.
  - pose proof (magnitude_nonneg l).
    rewrite add_exact by lia. rewrite IH by lia. f_equal. lia.
Qed.

Lemma batch_sum_exact batch :
  magnitude batch < 2 ^ 24 ->
  batch_sum batch = F32.of_int (foldr Z.add 0 batch).
Proof.
  intros H. unfold batch_sum. change F32.zero with (F32.of_int 0).
  rewrite sum_loop_exact; [done|simpl; lia].
Qed.

Lemma sum_permutation (l l' : list Z) :
  l ≡ₚ l' -> foldr Z.add 0 l = foldr Z.add 0 l'.
Proof. induction 1; simpl; lia. Qed.

Lemma magnitude_permutation (l l' : list Z) :
  l ≡ₚ l' -> magnitude l = magnitude l'.
Proof. induction 1; simpl in *; lia. Qed.

Lemma min_permutation (m0 : Z) (l l' : list Z) :
  l ≡ₚ l' -> foldr Z.min m0 l = foldr Z.min m0 l'.
Proof. induction 1; simpl; lia. Qed.

Lemma max_permutation (m0 : Z) (l l' : list Z) :
  l ≡ₚ l' -> foldr Z.max m0 l = foldr Z.max m0 l'.
Proof. induction 1; simpl; lia. Qed.

Lemma failure_count_permutation expected (l l' : list Z) :
  l ≡ₚ l' -> failure_count expected l = failure_count expected l'.
Proof. intros H. unfold failure_count. by rewrite H. Qed.

Lemma mean_permutation (l l' : list Z) :
  l ≡ₚ l' -> magnitude l < 2 ^ 24 -> mean l = mean l'.
Proof.
  intros Hp Hm. unfold mean, batch_size.
  rewrite !batch_sum_exact by (by rewrite <- ?(magnitude_permutation _ _ Hp)).
  by rewrite (sum_permutation _ _ Hp), (Permutation_length Hp).
Qed.

Lemma sum_replicate n (v : Z) : foldr Z.add 0 (replicate n v) = Z.of_nat n * v.
Proof. induction n as [|n IH]; [done|]. cbn [replicate foldr]. lia. Qed.

Lemma magnitude_replicate n (v : Z) :
  magnitude (replicate n v) = Z.of_nat n * Z.abs v.
Proof.
  unfold magnitude. induction n as [|n IH]; [done|].
  cbn [replicate foldr]. rewrite IH. generalize (Z.abs v). intros a. lia.
Qed.

Lemma all_equal_replicate (batch : list Z) v :
  (forall x, x ∈ batch -> x = v) -> batch = replicate (length batch) v.
Proof.
  induction batch as [|x l IH]; intros H; [done|]. simpl.
  rewrite (H x) by left. f_equal. apply IH. intros y Hy. apply H. by right.
Qed.

(** [x - x] is [+0] for every finite [x]. *)
Lemma sub_self x :
  (forall s, x <> S754_infinity s) -> x <> S754_nan -> F32.sub x x = F32.zero.
Proof.
  intros Hinf Hnan. destruct x as [[]|s| |s m e]; try done.
  - by destruct (Hinf s).
  - unfold F32.sub. cbn [SFsub]. by rewrite Z.sub_diag.
Qed.

Lemma of_int_finite_small z :
  Z.abs z < 2 ^ 24 ->
  (forall s, F32.of_int z <> S754_infinity s) /\ F32.of_int z <> S754_nan.
Proof.
  intros Hz. destruct (Z.eq_dec z 0) as [->|H0]; [done|].
  destruct (normal_mantissa z H0 Hz) as (q & c & Hc & Hq & Hn).
  by rewrite (of_int_normal z q c Hc Hq Hn).
Qed.

(** When the average is the common value, no deviation is accumulated. *)
Lemma deviations_of_equal n v :
  Z.abs v < 2 ^ 24 ->
  foldl (fun sum1 outcome =>
           F32.of_double
             (SFadd 53 1024 (F32.to_double sum1)
                (squared_deviation (F32.of_int v) outcome)))
        F32.zero (replicate n v) = F32.zero.
Proof.
  intros Hv. induction n as [|n IH]; [done|]. cbn [replicate foldl].
  unfold squared_deviation at 2.
  destruct (of_int_finite_small v Hv) as [Hinf Hnan].
  by rewrite (sub_self _ Hinf Hnan).
Qed.

(** The summary of [n] copies of [v]. *)
Lemma summary_of_equal n v :
  (1 <= n)%nat -> Z.of_nat n < 2 ^ 24 -> Z.of_nat n * Z.abs v < 2 ^ 24 ->
  mean (replicate n v) = F32.of_int v
  /\ population_variance (replicate n v) = F32.zero
  /\ std_dev (replicate n v) = F32.zero.
Proof.
  intros H1 Hn Hnv.
  assert (Hv : Z.abs v < 2 ^ 24) by nia.
  assert (Hmean : mean (replicate n v) = F32.of_int v).
  { unfold mean, batch_size.
    rewrite batch_sum_exact by (rewrite magnitude_replicate; lia).
    rewrite sum_replicate, length_replicate.
    apply div_exact; [lia|]. rewrite Z.abs_mul. lia. }
  assert (Hvar : population_variance (replicate n v) = F32.zero).
  { unfold population_variance, squared_deviations, batch_size.
    rewrite Hmean, deviations_of_equal, length_replicate by done.
    destruct (normal_mantissa (Z.of_nat n) ltac:(lia) ltac:(lia))
      as (q & c & Hc & Hq & Hnq).
    rewrite (of_int_normal _ q c Hc Hq Hnq).
    by replace (Z.of_nat n <? 0) with false by lia. }
  split_and!; [done..|]. unfold std_dev. by rewrite Hvar.
Qed.

(** The summary of a single outcome. *)
Lemma summary_of_one v :
  INT_MIN <= v <= INT_MAX ->
  mean [v] = F32.of_int v
  /\ population_variance [v] = F32.zero
  /\ std_dev [v] = F32.zero.
Proof.
  intros Hv.
  assert (Hmean : mean [v] = F32.of_int v).
  { unfold mean, batch_sum, batch_size. cbn [foldl length].
    change (Z.of_nat 1) with 1.
    destruct (Z.eq_dec v 0) as [->|H0]; [done|].
    destruct (of_int_finite v H0) as (q & e & E & Hn & He);
      [unfold INT_MIN, INT_MAX in *; lia|].
    rewrite E. unfold F32.add, F32.zero. cbn [SFadd].
    apply div_one; [done|lia]. }
  assert (Hvar : population_variance [v] = F32.zero).
  { unfold population_variance, squared_deviations, batch_size.
    rewrite Hmean. cbn [foldl length]. unfold squared_deviation.
    rewrite sub_self; [done|..].
    - intros s. destruct (Z.eq_dec v 0) as [->|H0]; [done|].
      destruct (of_int_finite v H0) as (q & e & E & _);
        [unfold INT_MIN, INT_MAX in *; lia|]. by rewrite E.
    - destruct (Z.eq_dec v 0) as [->|H0]; [done|].
      destruct (of_int_finite v H0) as (q & e & E & _);
        [unfold INT_MIN, INT_MAX in *; lia|]. by rewrite E. }
  split_and!; [done..|]. unfold std_dev. by rewrite Hvar.
Qed.

End SummaryFacts.

(** ** The summary when the mean and the variance are integers *)
Section ExactSummary.
Import Sweep.

Lemma squares_about_nonneg m batch : 0 <= squares_about m batch.
Proof.
  unfold squares_about. induction batch as [|x l IH]; cbn [foldr]; [done|].
  pose proof (Z.square_nonneg (x - m)). lia.
Qed.

Lemma sum_le_magnitude batch : Z.abs (foldr Z.add 0 batch) <= magnitude batch.
Proof. unfold magnitude. induction batch as [|x l IH]; simpl; lia. Qed.

(** One squared deviation, between integers. *)
Lemma squared_deviation_exact m x :
  Z.abs m < 2 ^ 24 -> Z.abs x < 2 ^ 24 -> (x - m) * (x - m) < 2 ^ 24 ->
  squared_deviation (F32.of_int m) x
  = binary_normalize 53 1024 ((x - m) * (x - m)) 0 false.
Proof.
  intros Hm Hx Hsq. unfold squared_deviation.
  assert (Hd : Z.abs (x - m) < 2 ^ 24) by nia.
  replace (F32.sub (F32.of_int x) (F32.of_int m)) with (F32.of_int (x - m))
    by (symmetry; apply (sub_integers 24 128); (done || lia)).
  rewrite to_double_integer by done. cbv zeta.
  apply (square_integer 53 1024); lia.
Qed.

(** The running sum of the second loop is the integer sum of the
    squares. *)
Lemma squares_loop_exact m batch a :
  Z.abs m < 2 ^ 24 -> Forall (fun x => Z.abs x < 2 ^ 24) batch ->
  0 <= a -> a + squares_about m batch < 2 ^ 24 ->
  foldl (fun sum1 outcome =>
           F32.of_double
             (SFadd 53 1024 (F32.to_double sum1)
                (squared_deviation (F32.of_int m) outcome)))
        (F32.of_int a) batch
  = F32.of_int (a + squares_about m batch).
Proof.
  intros Hm Hall. revert a.
  induction Hall as [|x l Hx Hl IH]; intros a Ha Hsum.
  - simpl. by rewrite Z.add_0_r.
  - cbn [foldl]. unfold squares_about in Hsum |- *. cbn [foldr] in Hsum |- *.
    fold (squares_about m l) in Hsum |- *.
    pose proof (squares_about_nonneg m l) as H0.
    pose proof (Z.square_nonneg (x - m)) as Hsq.
    rewrite squared_deviation_exact by (done || lia).
    rewrite to_double_integer by lia.
    rewrite (add_integers 53 1024) by lia.
    rewrite of_double_integer by lia.
    rewrite IH by lia. f_equal. lia.
Qed.

Lemma magnitude_bounds batch :
  magnitude batch < 2 ^ 24 -> Forall (fun x => Z.abs x < 2 ^ 24) batch.
Proof.
  induction batch as [|x l IH]; intros H; [done|]. simpl in H.
  pose proof (magnitude_nonneg l). constructor; [lia|apply IH; lia].
Qed.

(** The summary of a batch whose mean [m] and population variance [q]
    are integers. *)
Lemma summary_of_integers batch m q :
  batch <> [] -> Z.of_nat (length batch) < 2 ^ 24 ->
  magnitude batch < 2 ^ 24 ->
  foldr Z.add 0 batch = Z.of_nat (length batch) * m ->
  squares_about m batch = Z.of_nat (length batch) * q ->
  squares_about m batch < 2 ^ 24 ->
  mean batch = F32.of_int m
  /\ population_variance batch = F32.of_int q
  /\ forall s, 0 <= s -> q = s * s -> std_dev batch = F32.of_int s.
Proof.
  intros Hne Hn Hmag Hsum Hsq Hsmall.
  assert (H1 : 1 <= Z.of_nat (length batch)) by (destruct batch; [done|simpl; lia]).
  pose proof (sum_le_magnitude batch) as Hle.
  pose proof (squares_about_nonneg m batch) as H0.
  assert (Hm : Z.abs m < 2 ^ 24) by nia.
  assert (Hmean : mean batch = F32.of_int m).
  { unfold mean, batch_size. rewrite batch_sum_exact, Hsum by done.
    apply div_exact; lia. }
  assert (Hvar : population_variance batch = F32.of_int q).
  { unfold population_variance, squared_deviations, batch_size.
    rewrite Hmean. change F32.zero with (F32.of_int 0).
    rewrite squares_loop_exact; [|done|by apply magnitude_bounds|lia|lia].
    rewrite Z.add_0_l, Hsq. apply div_exact; lia. }
  split_and!; [done..|].
  intros s Hs ->. unfold std_dev. rewrite Hvar.
  assert (s * s < 2 ^ 24) by nia.
  rewrite to_double_integer by lia. unfold F32.dsqrt.
  rewrite sqrt_integer by lia.
  apply of_double_integer. nia.
Qed.

End ExactSummary.

(** C8 as stated fails: [float] sums depend on the order of the terms.
    The batches [[4;2;1]] and [[1;2;4]] (outcomes of three trials at four
    threads) get variances and standard deviations that differ in the
    last bits.  For [[16777216;1;1]] the running sum stays at [2^24]
    (adding 1 to [2^24] rounds back), for [[1;1;16777216]] it is
    [2^24 + 2], and the two means differ. *)
Lemma summary_order_counterexample :
  [4; 2; 1] ≡ₚ [1; 2; 4]
  /\ Sweep.population_variance [4; 2; 1] = S754_finite false 13048947 (-23)
  /\ Sweep.population_variance [1; 2; 4] = S754_finite false 13048945 (-23)
  /\ Sweep.std_dev [4; 2; 1] = S754_finite false 10462433 (-23)
  /\ Sweep.std_dev [1; 2; 4] = S754_finite false 10462432 (-23)
  /\ (exists r r',
        Sweep.print_stats (Sweep.Config 10 3 true true false) 4 1 [4; 2; 1] 3 = Some r
        /\ Sweep.print_stats (Sweep.Config 10 3 true true false) 4 1 [1; 2; 4] 3 = Some r'
        /\ Sweep.row_variance r <> Sweep.row_variance r'
        /\ Sweep.row_std_deviation r <> Sweep.row_std_deviation r')
  /\ [16777216; 1; 1] ≡ₚ [1; 1; 16777216]
  /\ Sweep.batch_sum [16777216; 1; 1] = F32.of_int 16777216
  /\ Sweep.batch_sum [1; 1; 16777216] = F32.of_int 16777218
  /\ Sweep.mean [16777216; 1; 1] <> Sweep.mean [1; 1; 16777216].
Proof.
  split_and!; try (vm_compute; (reflexivity || discriminate)).
  - exact (Permutation_rev [4; 2; 1]).
  - eexists _, _. split_and!; [vm_compute; reflexivity..| |];
      cbn [Sweep.row_variance Sweep.row_std_deviation]; discriminate.
  - exact (Permutation_rev [16777216; 1; 1]).
Qed.

(** C8, amended.  Permuting a batch leaves the failure count, the
    minimum and the maximum of its summary unchanged, and the mean as
    well whenever the absolute values of the outcomes sum to less than
    [2^24]. *)
Theorem summary_under_permutation
    (cfg : Sweep.config) (tc successes : Z) (results results' : list Z) :
  results ≡ₚ results' ->
  exists r r',
    Sweep.print_stats cfg tc successes results (Z.of_nat (length results)) = Some r
    /\ Sweep.print_stats cfg tc successes results' (Z.of_nat (length results')) = Some r'
    /\ Sweep.row_thread_count r = Sweep.row_thread_count r'
    /\ Sweep.row_experiments r = Sweep.row_experiments r'
    /\ Sweep.row_failures r = Sweep.row_failures r'
    /\ Sweep.failure_count tc results = Sweep.failure_count tc results'
    /\ Sweep.row_min r = Sweep.row_min r'
    /\ Sweep.row_max r = Sweep.row_max r'
    /\ (Sweep.magnitude results < 2 ^ 24 ->
        Sweep.row_average r = Sweep.row_average r').
Proof.
  intros Hp. rewrite !print_stats_row. eexists _, _.
  split; [done|]. split; [done|].
  cbn [Sweep.row_thread_count Sweep.row_experiments Sweep.row_failures
       Sweep.row_min Sweep.row_max Sweep.row_average].
  split_and!; try done.
  - by apply failure_count_permutation.
  - by apply min_permutation.
  - by apply max_permutation.
  - by apply mean_permutation.
Qed.

Lemma summary_under_permutation_witness :
  exists r r',
    Sweep.print_stats (Sweep.Config 10 5 true true false) 3 4 [3; 3; 3; 2; 3] 5 = Some r
    /\ Sweep.print_stats (Sweep.Config 10 5 true true false) 3 4 [3; 2; 3; 3; 3] 5 = Some r'
    /\ Sweep.row_thread_count r = Sweep.row_thread_count r'
    /\ Sweep.row_experiments r = Sweep.row_experiments r'
    /\ Sweep.row_failures r = Sweep.row_failures r'
    /\ Sweep.failure_count 3 [3; 3; 3; 2; 3] = Sweep.failure_count 3 [3; 2; 3; 3; 3]
    /\ Sweep.row_min r = Sweep.row_min r'
    /\ Sweep.row_max r = Sweep.row_max r'
    /\ (Sweep.magnitude [3; 3; 3; 2; 3] < 2 ^ 24 ->
        Sweep.row_average r = Sweep.row_average r').
Proof.
  apply (summary_under_permutation (Sweep.Config 10 5 true true false) 3 4
           [3; 3; 3; 2; 3] [3; 2; 3; 3; 3]).
  exact (Permutation_rev [3; 3; 3; 2; 3]).
Defined.

(** C5 as stated fails for large values.  For three copies of
    [2^23 - 1 = 8388607] the running sum 25165821 is not a [float] and
    is rounded to 25165820; the mean is computed as 8388606.5, every
    deviation as 0.5, and the batch of equal values is reported with
    variance 0.25 and standard deviation 0.5. *)
Lemma equal_batch_counterexample :
  Sweep.batch_sum [8388607; 8388607; 8388607] = F32.of_int 25165820
  /\ exists r,
       Sweep.print_stats (Sweep.Config 10 3 true true false) 3 0
         [8388607; 8388607; 8388607] 3 = Some r
       /\ Sweep.row_average r = F32.div (F32.of_int 16777213) (F32.of_int 2)
       /\ Sweep.row_variance r = F32.div (F32.of_int 1) (F32.of_int 4)
       /\ Sweep.row_std_deviation r = F32.div (F32.of_int 1) (F32.of_int 2)
       /\ Sweep.row_variance r <> S754_zero false
       /\ Sweep.row_variance r <> S754_zero true
       /\ Sweep.row_std_deviation r <> S754_zero false
       /\ Sweep.row_std_deviation r <> S754_zero true.
Proof.
  split; [vm_compute; reflexivity|].
  eexists. split; [vm_compute; reflexivity|].
  cbn [Sweep.row_average Sweep.row_variance Sweep.row_std_deviation].
  split_and!; vm_compute; (reflexivity || discriminate).
Qed.

(** Two remarks on the precision of [print_stats].  The mean of one
    outcome [v] is [(float) v], which is [v] only when [v] is a
    [float]: the outcome 16777217 is reported with mean 16777216.  The
    squares are computed and added in [double]: for the batch
    [[1;1;2]] the variance is [14913081 * 2^-26], where squaring and
    adding in [float] would give [14913080 * 2^-26]. *)
Example print_stats_precision :
  (exists r,
     Sweep.print_stats (Sweep.Config 10 1 true true false) 1 0 [16777217] 1 = Some r
     /\ Sweep.row_average r = F32.of_int 16777217
     /\ Sweep.row_average r = F32.of_int 16777216
     /\ Sweep.row_variance r = F32.zero
     /\ Sweep.row_std_deviation r = F32.zero)
  /\ (exists r,
        Sweep.print_stats (Sweep.Config 10 3 true true false) 3 0 [1; 1; 2] 3 = Some r
        /\ Sweep.row_variance r = S754_finite false 14913081 (-26))
  /\ F32.div
       (foldl (fun sum1 outcome =>
                 let d := F32.sub (F32.of_int outcome) (Sweep.mean [1; 1; 2]) in
                 F32.add sum1 (SFmul 24 128 d d))
          F32.zero [1; 1; 2])
       (F32.of_int 3)
     = S754_finite false 14913080 (-26).
Proof.
  split; [|split].
  - eexists. split; [vm_compute; reflexivity|].
    cbn [Sweep.row_average Sweep.row_variance Sweep.row_std_deviation].
    split_and!; vm_compute; reflexivity.
  - eexists. split; [vm_compute; reflexivity|].
    cbn [Sweep.row_variance]. reflexivity.
  - vm_compute. reflexivity.
Qed.

(** C5, amended.  For every batch, [print_stats] reports as mean the
    running [float] sum of the outcomes divided by the batch size, as
    variance the running sum of the squared deviations from that mean
    divided by the batch size (the population variance: the divisor is
    the batch size, not one less), and as standard deviation the square
    root of that variance.  The sum of the outcomes, the mean, each
    deviation and both divisions are rounded to [float]; each deviation
    is multiplied by itself in [double], the product is added to the
    running sum in [double] and the sum is rounded to [float]; the
    square root is taken in [double] and rounded to [float].

    No operation rounds for a non-empty batch of fewer than [2^24]
    outcomes whose absolute values sum to less than [2^24], whose sum
    is [n * m] and whose squared distances from [m] sum to
    [n * q < 2^24], for the batch size [n] and integers [m] and [q]:
    the reported mean is [m], the variance is [q], and the standard
    deviation is [s] when [q = s * s].

    Every single-element batch, and every non-empty batch of [n] equal
    values [v] with [n < 2^24] and [n * |v| < 2^24], is reported with
    variance 0 and standard deviation 0; its mean is [(float) v], the
    value [v] rounded to [float]. *)
Theorem variance_is_population_variance
    (cfg : Sweep.config) (tc successes : Z) (results : list Z) :
  exists r,
    Sweep.print_stats cfg tc successes results (Z.of_nat (length results)) = Some r
    /\ Sweep.row_average r
       = F32.div
           (foldl (fun sum outcome => F32.add sum (F32.of_int outcome))
              F32.zero results)
           (F32.of_int (Z.of_nat (length results)))
    /\ Sweep.row_variance r
       = F32.div
           (foldl (fun sum1 outcome =>
                     let d := F32.to_double
                                (F32.sub (F32.of_int outcome) (Sweep.row_average r)) in
                     F32.of_double
                       (SFadd 53 1024 (F32.to_double sum1) (SFmul 53 1024 d d)))
              F32.zero results)
           (F32.of_int (Z.of_nat (length results)))
    /\ Sweep.row_std_deviation r
       = F32.of_double (SFsqrt 53 1024 (F32.to_double (Sweep.row_variance r)))
    /\ (forall m q,
          results <> [] ->
          Z.of_nat (length results) < 2 ^ 24 ->
          Sweep.magnitude results < 2 ^ 24 ->
          foldr Z.add 0 results = Z.of_nat (length results) * m ->
          Sweep.squares_about m results = Z.of_nat (length results) * q ->
          Sweep.squares_about m results < 2 ^ 24 ->
          Sweep.row_average r = F32.of_int m
          /\ Sweep.row_variance r = F32.of_int q
          /\ forall s, 0 <= s -> q = s * s ->
               Sweep.row_std_deviation r = F32.of_int s)
    /\ forall v,
         results <> [] -> (forall x, x ∈ results -> x = v) ->
         (results = [v] /\ INT_MIN <= v <= INT_MAX
          \/ Z.of_nat (length results) < 2 ^ 24
             /\ Z.of_nat (length results) * Z.abs v < 2 ^ 24) ->
         Sweep.row_average r = F32.of_int v
         /\ Sweep.row_variance r = F32.zero
         /\ Sweep.row_std_deviation r = F32.zero.
Proof.
  rewrite print_stats_row. eexists. split; [done|].
  cbn [Sweep.row_average Sweep.row_variance Sweep.row_std_deviation].
  split_and!; try done.
  - intros m q Hne Hn Hmag Hsum Hsq Hsmall. by apply summary_of_integers.
  - intros v Hne Hall [[-> Hv]|[Hn Hnv]].
    + by apply summary_of_one.
    + rewrite (all_equal_replicate results v Hall).
      apply summary_of_equal; [|done..].
      destruct results; [done|simpl; lia].
Qed.

Lemma variance_is_population_variance_witness :
  (exists r,
     Sweep.print_stats (Sweep.Config 10 8 true true false) 9 0
       [2; 4; 4; 4; 5; 5; 7; 9] 8 = Some r
     /\ Sweep.row_average r = F32.of_int 5
     /\ Sweep.row_variance r = F32.of_int 4
     /\ Sweep.row_std_deviation r = F32.of_int 2)
  /\ exists r,
       Sweep.print_stats (Sweep.Config 10 4 true true false) 3 4 [3; 3; 3; 3] 4 = Some r
       /\ Sweep.row_average r = F32.of_int 3
       /\ Sweep.row_variance r = F32.zero
       /\ Sweep.row_std_deviation r = F32.zero.
Proof.
  split.
  - destruct (variance_is_population_variance
                (Sweep.Config 10 8 true true false) 9 0 [2; 4; 4; 4; 5; 5; 7; 9])
      as (r & Hr & _ & _ & _ & Hexact & _).
    exists r. split; [exact Hr|].
    destruct (Hexact 5 4) as (Hmean & Hvar & Hstd);
      [discriminate|cbn [length]; lia|vm_compute; reflexivity
      |reflexivity|reflexivity|vm_compute; reflexivity|].
    split; [exact Hmean|]. split; [exact Hvar|].
    apply (Hstd 2); [lia|reflexivity].
  - destruct (variance_is_population_variance
                (Sweep.Config 10 4 true true false) 3 4 [3; 3; 3; 3])
      as (r & Hr & _ & _ & _ & _ & Hequal).
    exists r. split; [exact Hr|]. apply (Hequal 3).
    + discriminate.
    + intros x Hx. repeat (apply elem_of_cons in Hx as [->|Hx]; [reflexivity|]).
      by apply elem_of_nil in Hx.
    + right. cbn [length]. lia.
Defined.

(** * Further facts about the program *)

(** ** The barrier when the counts do not match *)
Section BarrierMismatch.
Import Trial.
Variable USE_ATOMICS : bool.
Variable n : nat.
Variable w0 : Z.

Lemma tally_short {A : Type} (f : A -> Z) (l : list A) :
  (forall x, 0 <= f x <= 1) -> tally f l < Z.of_nat (length l) ->
  exists i x, l !! i = Some x /\ f x = 0.
Proof.
  intros mark. induction l as [|a l IH]; cbn [tally length]; [lia|]. intros H.
  destruct (decide (f a = 0)) as [E|E].
  - by exists 0%nat, a.
  - pose proof (mark a). destruct IH as (i & x & Hi & Hx); [lia|].
    by exists (S i), x.
Qed.

(** With [w0] in [wait_lock] at the start and [n] workers, some worker
    is always short of the barrier's exit unless [thread_count] is
    [w0 + n]. *)
Lemma mismatch_step m tid :
  INT_MIN <= w0 -> w0 + Z.of_nat n <= INT_MAX ->
  thread_count (mem m) <> w0 + Z.of_nat n ->
  length (threads m) = n ->
  wait_lock (mem m) = w0 + tally arrived (threads m) ->
  (exists j p, threads m !! j = Some p /\ past_barrier p = false) ->
  let m' := step USE_ATOMICS m tid in
  thread_count (mem m') = thread_count (mem m)
  /\ length (threads m') = n
  /\ wait_lock (mem m') = w0 + tally arrived (threads m')
  /\ exists j p, threads m' !! j = Some p /\ past_barrier p = false.
Proof.
  intros Hlo Hhi Hne Hlen Hwl (j & q & Hj & Hq). cbn zeta.
  destruct (threads m !! tid) as [p|] eqn:Hp;
    [|rewrite step_outside by done; eauto 10].
  rewrite (step_inside _ _ _ _ Hp). cbn [mem threads].
  pose proof (tally_bounds arrived arrived_mark (threads m)) as Hb.
  assert (Hin : (tid < length (threads m))%nat) by by eapply lookup_lt_Some.
  split_and!.
  - apply worker_thread_count.
  - by rewrite length_insert.
  - rewrite (tally_insert _ _ _ _ _ Hp).
    destruct p; simpl; try lia.
    + pose proof (tally_missing arrived arrived_mark _ _ _ Hp eq_refl).
      rewrite wrap_int_id; lia.
    + destruct (_ =? _); simpl; lia.
    + destruct USE_ATOMICS; simpl; lia.
  - destruct (decide (tid = j)) as [->|Hj'];
      [|exists j, q; by rewrite list_lookup_insert_ne].
    simplify_eq. destruct q; try done; simpl.
    + exists j, BarrierSpin. by rewrite list_lookup_insert_eq.
    + destruct (Z.eqb_spec (wait_lock (mem m)) (thread_count (mem m))) as [E|E];
        [|exists j, BarrierSpin; by rewrite list_lookup_insert_eq].
      simpl.
      destruct (tally_short arrived (threads m) arrived_mark)
        as (i & x & Hi & Hx); [lia|].
      exists i, x. destruct (decide (j = i)) as [->|Hji]; [by simplify_eq|].
      rewrite list_lookup_insert_ne by done. split; [done|]. by destruct x.
Qed.

Lemma mismatch_run sched m :
  INT_MIN <= w0 -> w0 + Z.of_nat n <= INT_MAX ->
  thread_count (mem m) <> w0 + Z.of_nat n ->
  length (threads m) = n ->
  wait_lock (mem m) = w0 + tally arrived (threads m) ->
  (exists j p, threads m !! j = Some p /\ past_barrier p = false) ->
  exists j p,
    threads (run USE_ATOMICS sched m) !! j = Some p /\ past_barrier p = false.
Proof.
  intros Hlo Hhi. revert m.
  induction sched as [|tid s IH]; intros m Hne Hlen Hwl Hw; [done|].
  destruct (mismatch_step m tid Hlo Hhi Hne Hlen Hwl Hw) as (Htc & ? & ? & ?).
  apply IH; [by rewrite Htc|done..].
Qed.

End BarrierMismatch.

(** X1.  [create_threads_and_launch_worker(n)] with [n >= 1] workers
    never returns when [thread_count] differs from the starting
    [wait_lock] plus [n] (fewer or more workers than the barrier's
    target, or a [wait_lock] that was not reset): under every schedule
    some worker is still short of the barrier's exit. *)
Theorem barrier_mismatch_blocks
    (USE_ATOMICS : bool) (n : Z) (g : globals) (sched : list nat) :
  1 <= n ->
  INT_MIN <= wait_lock g -> wait_lock g + n <= INT_MAX ->
  thread_count g <> wait_lock g + n ->
  (exists tid p,
     Trial.threads (Trial.run USE_ATOMICS sched (Trial.spawn n g)) !! tid = Some p
     /\ Trial.past_barrier p = false)
  /\ Trial.create_threads_and_launch_worker USE_ATOMICS n sched g = None.
Proof.
  intros Hn Hlo Hhi Hne.
  assert (Hstuck : exists tid p,
    Trial.threads (Trial.run USE_ATOMICS sched (Trial.spawn n g)) !! tid = Some p
    /\ Trial.past_barrier p = false).
  { apply (mismatch_run USE_ATOMICS (Z.to_nat n) (wait_lock g)); simpl;
      rewrite ?Z2Nat.id by lia; try done.
    - by rewrite length_replicate.
    - rewrite tally_replicate. simpl. lia.
    - exists 0%nat, Trial.BarrierArrive. split; [|done].
      apply lookup_replicate_2. lia. }
  split; [done|]. unfold Trial.create_threads_and_launch_worker.
  destruct (forallb _ _) eqn:Hall; [|done].
  destruct Hstuck as (tid & p & Hp & Hpast).
  rewrite forallb_forall in Hall.
  assert (Hin : In p (Trial.threads (Trial.run USE_ATOMICS sched (Trial.spawn n g)))).
  { apply list_elem_of_In, list_elem_of_lookup. eauto. }
  apply Hall in Hin. by destruct p.
Qed.

Lemma barrier_mismatch_blocks_witness :
  1 <= 3
  /\ Trial.create_threads_and_launch_worker false 3
       (Trial.round_robin 5 3) (Globals 4 0 0) = None.
Proof.
  split; [lia|].
  apply (barrier_mismatch_blocks false 3 (Globals 4 0 0) (Trial.round_robin 5 3));
    unfold INT_MIN, INT_MAX; simpl; lia.
Defined.

(** ** The counter during a trial *)

Lemma tally_le {A : Type} (f h : A -> Z) (l : list A) :
  (forall x, f x <= h x) -> tally f l <= tally h l.
Proof.
  intros Hle. induction l as [|a l IH]; cbn [tally]; [lia|].
  pose proof (Hle a). lia.
Qed.

Lemma tally_some {A : Type} (f : A -> Z) (l : list A) :
  (forall x, 0 <= f x <= 1) -> 1 <= tally f l ->
  exists i x, l !! i = Some x /\ f x = 1.
Proof.
  intros mark. induction l as [|a l IH]; cbn [tally]; [lia|]. intros H.
  destruct (decide (f a = 1)) as [E|E].
  - by exists 0%nat, a.
  - pose proof (mark a). destruct IH as (i & x & Hi & Hx); [lia|].
    by exists (S i), x.
Qed.

(** X2.  At every point of a trial started from the reset globals,
    [0 <= shared_data <= wait_lock <= thread_count], and [shared_data]
    is still 0 unless every worker has arrived at the barrier: no worker
    touches the counter before all of them have reached [barrier]. *)
Theorem counter_waits_for_barrier
    (USE_ATOMICS : bool) (tc : Z) (g : globals) (sched : list nat) :
  0 <= tc <= INT_MAX ->
  thread_count g = tc -> wait_lock g = 0 -> shared_data g = 0 ->
  let m := Trial.run USE_ATOMICS sched (Trial.spawn tc g) in
  0 <= shared_data (Trial.mem m) <= wait_lock (Trial.mem m)
  /\ wait_lock (Trial.mem m) <= thread_count (Trial.mem m)
  /\ thread_count (Trial.mem m) = tc
  /\ (shared_data (Trial.mem m) <> 0 ->
      wait_lock (Trial.mem m) = tc
      /\ forall q, q ∈ Trial.threads m -> Trial.arrived q = 1).
Proof.
  intros Htc Hg Hwl Hsd m. subst m.
  rewrite <- (Z2Nat.id tc) in Hg |- * by lia.
  set (n := Z.to_nat tc) in *.
  assert (Hn : Z.of_nat n <= INT_MAX) by lia.
  pose proof (barrier_inv_spawn n g Hn Hg Hwl) as Hinv0.
  pose proof (counter_inv_spawn USE_ATOMICS n g Hsd) as Hc0.
  pose proof (counter_inv_run USE_ATOMICS n sched _ Hinv0 Hc0) as [Hc _].
  pose proof (barrier_inv_run USE_ATOMICS n sched _ Hinv0) as Hinv.
  set (m := Trial.run USE_ATOMICS sched (Trial.spawn (Z.of_nat n) g)) in *.
  pose proof (Trial.inv_pool _ _ Hinv) as Hlen.
  pose proof (Trial.inv_target _ _ Hinv) as Htarget.
  pose proof (Trial.inv_arrivals _ _ Hinv) as Harr.
  pose proof (tally_bounds Trial.stored stored_mark (Trial.threads m)) as Hb.
  pose proof (tally_bounds Trial.arrived arrived_mark (Trial.threads m)) as Hb'.
  assert (Hsa : tally Trial.stored (Trial.threads m)
                <= tally Trial.arrived (Trial.threads m)).
  { apply tally_le. intros p. by destruct p. }
  assert (Hsd' : 0 <= shared_data (Trial.mem m)
                 <= tally Trial.stored (Trial.threads m)).
  { destruct USE_ATOMICS; lia. }
  split_and!; try lia.
  intros Hne.
  destruct (tally_some Trial.stored (Trial.threads m) stored_mark)
    as (i & p & Hp & Hst); [lia|].
  assert (Hpast : Trial.past_barrier p = true) by by destruct p.
  pose proof (Trial.inv_released _ _ Hinv _ _ Hp Hpast) as Hopen.
  split; [lia|]. by apply (arrivals_complete n).
Qed.

Lemma counter_waits_for_barrier_witness :
  0 <= 3 <= INT_MAX
  /\ 0 <= shared_data
            (Trial.mem (Trial.run false [0; 1; 0; 0]%nat
                          (Trial.spawn 3 (Globals 3 0 0))))
       <= wait_lock
            (Trial.mem (Trial.run false [0; 1; 0; 0]%nat
                          (Trial.spawn 3 (Globals 3 0 0)))).
Proof.
  split; [unfold INT_MAX; lia|].
  apply (counter_waits_for_barrier false 3 (Globals 3 0 0) [0; 1; 0; 0]%nat);
    (reflexivity || unfold INT_MAX; lia).
Defined.

(** X3.  With a single worker both variants count right: a trial at
    [thread_count = 1] can only end with [shared_data = 1] (and
    [wait_lock = 1]), and it ends under every schedule with five
    rounds. *)
Theorem single_worker_counts
    (USE_ATOMICS : bool) (g : globals) (sched : list nat) :
  thread_count g = 1 -> wait_lock g = 0 -> shared_data g = 0 ->
  (forall g',
     Trial.create_threads_and_launch_worker USE_ATOMICS 1 sched g = Some g' ->
     g' = Globals 1 1 1)
  /\ (Trial.rounds 5 1 sched ->
      Trial.create_threads_and_launch_worker USE_ATOMICS 1 sched g
      = Some (Globals 1 1 1)).
Proof.
  intros Hg Hwl Hsd.
  assert (Hint : 0 <= 1 <= INT_MAX) by (unfold INT_MAX; lia).
  assert (Hout : forall g',
    Trial.create_threads_and_launch_worker USE_ATOMICS 1 sched g = Some g' ->
    g' = Globals 1 1 1).
  { intros g' Hrun.
    destruct (trial_outcome USE_ATOMICS 1 g sched g' Hint Hg Hwl Hsd Hrun)
      as (Htc & Hwl' & Hok).
    destruct g' as [t w s]. simpl in *. subst t w. f_equal.
    unfold Trial.outcome_ok in Hok. destruct USE_ATOMICS; lia. }
  split; [done|]. intros Hr.
  pose proof (trial_completes USE_ATOMICS 1 g sched Hint Hg Hwl Hr) as Hrun.
  by rewrite Hrun, (Hout _ Hrun).
Qed.

Lemma single_worker_counts_witness :
  Trial.create_threads_and_launch_worker false 1
    (Trial.round_robin 5 1) (Globals 1 0 0)
  = Some (Globals 1 1 1).
Proof.
  apply (single_worker_counts false (Globals 1 0 0) (Trial.round_robin 5 1));
    try reflexivity.
  apply (rounds_round_robin 5 1).
Defined.

(** ** [simple_mode] and [main] *)

(** X4.  [simple_mode], started with [wait_lock] and [shared_data] at
    0, can only print its own [thread_count] next to a counter value a
    trial can leave (equal to [thread_count] with atomics, between 1 and
    [thread_count] without), and it hands the globals back reset, as it
    found them; under a schedule with five rounds it does print. *)
Theorem simple_mode_line (cfg : Sweep.config) (sched : list nat) (g : globals) :
  0 <= thread_count g <= INT_MAX -> wait_lock g = 0 -> shared_data g = 0 ->
  (forall g' line,
     Sweep.simple_mode cfg sched g = Some (g', line) ->
     g' = g /\ line.1 = thread_count g
     /\ Trial.outcome_ok (Sweep.USE_ATOMICS cfg) (thread_count g) line.2)
  /\ (Trial.rounds 5 (Z.to_nat (thread_count g)) sched ->
      exists v, Sweep.simple_mode cfg sched g = Some (g, (thread_count g, v))).
Proof.
  intros Htc Hwl Hsd.
  assert (Hout : forall g' line,
    Sweep.simple_mode cfg sched g = Some (g', line) ->
    g' = g /\ line.1 = thread_count g
    /\ Trial.outcome_ok (Sweep.USE_ATOMICS cfg) (thread_count g) line.2).
  { intros g' line. unfold Sweep.simple_mode.
    destruct (Trial.create_threads_and_launch_worker _ _ _ _) as [g1|] eqn:Hrun;
      [|done].
    simpl. intros [= <- <-]. simpl.
    destruct (trial_outcome _ _ _ _ _ Htc eq_refl Hwl Hsd Hrun) as (Htc1 & _ & Hok).
    split_and!; [by apply globals_reset|done..]. }
  split; [done|]. intros Hr.
  pose proof (trial_completes (Sweep.USE_ATOMICS cfg) _ g sched Htc eq_refl Hwl Hr)
    as Hrun.
  assert (Hsome : exists g' line, Sweep.simple_mode cfg sched g = Some (g', line)).
  { unfold Sweep.simple_mode. rewrite Hrun. simpl. eauto. }
  destruct Hsome as (g' & [t v] & Hs).
  destruct (Hout _ _ Hs) as (-> & Ht & _). simpl in Ht. subst t. eauto.
Qed.

Lemma simple_mode_line_witness :
  0 <= 8 <= INT_MAX
  /\ exists v,
       Sweep.simple_mode (Sweep.Config 10 100 true true false)
         (Trial.round_robin 5 8) (Sweep.initial_globals 8)
       = Some (Sweep.initial_globals 8, (8, v)).
Proof.
  split; [unfold INT_MAX; lia|].
  apply (simple_mode_line (Sweep.Config 10 100 true true false)
           (Trial.round_robin 5 8) (Sweep.initial_globals 8));
    try reflexivity; try (unfold INT_MAX; simpl; lia).
  apply (rounds_round_robin 5 8).
Defined.

(** X5.  [main], started from the initial globals under schedules that
    let every trial end, returns with the globals as they were at the
    start; it prints the rows for thread counts 1 to [max_threads] when
    [do_complex_mode] is set and none otherwise, and the line of simple
    mode, showing the configured [thread_count], exactly when
    [do_simple_mode] is set. *)
Theorem main_output (cfg : Sweep.config) (sched : Z -> nat -> list nat)
    (simple_sched : list nat) (g : globals) (fuel : nat) :
  0 <= Sweep.max_threads cfg < INT_MAX ->
  0 <= Sweep.total_experiments cfg <= INT_MAX ->
  0 <= thread_count g <= INT_MAX -> wait_lock g = 0 -> shared_data g = 0 ->
  (forall tc e, 1 <= tc <= Sweep.max_threads cfg ->
     Trial.rounds 5 (Z.to_nat tc) (sched tc e)) ->
  Trial.rounds 5 (Z.to_nat (thread_count g)) simple_sched ->
  (Z.to_nat (Sweep.max_threads cfg) < fuel)%nat ->
  exists rows line,
    Sweep.main fuel cfg sched simple_sched g = Some (g, rows, line)
    /\ Sweep.row_thread_count <$> rows
       = (if Sweep.do_complex_mode cfg then seqZ 1 (Sweep.max_threads cfg) else [])
    /\ match line with
       | Some (t, v) =>
           Sweep.do_simple_mode cfg = true /\ t = thread_count g
           /\ Trial.outcome_ok (Sweep.USE_ATOMICS cfg) t v
       | None => Sweep.do_simple_mode cfg = false
       end.
Proof.
  intros HM HK Htc Hwl Hsd Hfair Hsimple Hfuel. unfold Sweep.main.
  assert (Hc : exists rows,
    (if Sweep.do_complex_mode cfg then Sweep.complex_mode fuel cfg sched g
     else Some (g, [])) = Some (g, rows)
    /\ Sweep.row_thread_count <$> rows
       = (if Sweep.do_complex_mode cfg then seqZ 1 (Sweep.max_threads cfg) else [])).
  { destruct (Sweep.do_complex_mode cfg); [|by exists []].
    destruct (complex_mode_result cfg sched g fuel HM HK Hwl Hsd Hfair Hfuel)
      as (rows & Hrun & Htcs & _). by exists rows. }
  destruct Hc as (rows & -> & Hrows). simpl.
  destruct (Sweep.do_simple_mode cfg) eqn:Hds; [|by exists rows, None].
  destruct (simple_mode_line cfg simple_sched g Htc Hwl Hsd) as [Hout Hrun].
  destruct (Hrun Hsimple) as (v & Hs). rewrite Hs. simpl.
  exists rows, (Some (thread_count g, v)). split_and!; try done.
  by destruct (Hout _ _ Hs) as (_ & _ & Hok).
Qed.

Lemma main_output_witness :
  exists rows line,
    Sweep.main 11 (Sweep.Config 10 100 true true false)
      (fun tc _ => Trial.round_robin 5 (Z.to_nat tc)) (Trial.round_robin 5 8)
      (Sweep.initial_globals 8)
    = Some (Sweep.initial_globals 8, rows, line)
    /\ Sweep.row_thread_count <$> rows = [1; 2; 3; 4; 5; 6; 7; 8; 9; 10]
    /\ match line with
       | Some (t, v) => true = true /\ t = 8 /\ Trial.outcome_ok false t v
       | None => true = false
       end.
Proof.
  apply (main_output (Sweep.Config 10 100 true true false)
           (fun tc _ => Trial.round_robin 5 (Z.to_nat tc)) (Trial.round_robin 5 8)
           (Sweep.initial_globals 8) 11);
    try reflexivity; try (unfold INT_MAX; simpl; lia).
  - intros tc e _. apply rounds_round_robin.
  - apply (rounds_round_robin 5 8).
Defined.

(** ** The table of [complex_mode], row by row *)

Lemma sweep_recorded (cfg : Sweep.config) (sched : Z -> nat -> list nat) :
  0 <= Sweep.total_experiments cfg <= INT_MAX ->
  Sweep.max_threads cfg < INT_MAX ->
  (forall tc e, 1 <= tc <= Sweep.max_threads cfg ->
     Trial.rounds 5 (Z.to_nat tc) (sched tc e)) ->
  forall (j : nat) t g out fuel,
    thread_count g = t -> 1 <= t -> Z.of_nat j = Sweep.max_threads cfg + 1 - t ->
    wait_lock g = 0 -> shared_data g = 0 -> (j < fuel)%nat ->
    exists rows,
      Sweep.sweep fuel cfg sched g out
      = Some (set_thread_count (Sweep.max_threads cfg + 1) g, out ++ rows)
      /\ Forall2 (Sweep.recorded_row cfg) (seqZ t (Z.of_nat j)) rows.
Proof.
  intros HK HM Hfair j.
  induction j as [|j IH]; intros t g out fuel Ht H1 Hj Hwl Hsd Hfuel;
    (destruct fuel as [|fuel]; [lia|]); simpl.
  - destruct (Z.leb_spec (thread_count g) (Sweep.max_threads cfg)); [lia|].
    exists []. rewrite app_nil_r. split; [|constructor].
    replace (Sweep.max_threads cfg + 1) with (thread_count g) by lia.
    by rewrite set_thread_count_same.
  - destruct (Z.leb_spec (thread_count g) (Sweep.max_threads cfg)); [|lia].
    assert (Htc : 0 <= thread_count g <= INT_MAX) by lia.
    destruct (experiments_complete cfg (sched (thread_count g)) g
                (Z.to_nat (Sweep.total_experiments cfg))
                (proj2 HK) Htc Hwl Hsd) as (successes & results & Hrun);
      [intros e; apply Hfair; lia|done|].
    fold (Sweep.experiments cfg (sched (thread_count g)) g) in Hrun.
    rewrite Hrun. simpl.
    destruct (experiments_results cfg _ _ _ _ _ HK Htc Hwl Hsd Hrun)
      as (_ & Hlen & Hsucc & Hall).
    pose proof (print_stats_row cfg (thread_count g) successes results) as Hrow.
    rewrite Hlen in Hrow. rewrite Hrow. simpl.
    rewrite (wrap_int_id (thread_count g + 1)) by (unfold INT_MIN; lia).
    edestruct (IH (t + 1) (set_thread_count (thread_count g + 1) g))
      as (rows & -> & Hrows); [simpl; lia|lia|lia|done|done|lia|].
    eexists (_ :: rows). split; [by rewrite <- app_assoc|].
    rewrite seqZ_cons by lia.
    replace (Z.succ t) with (t + 1) by lia.
    replace (Z.pred (Z.of_nat (S j))) with (Z.of_nat j) by lia.
    constructor; [|done].
    exists results. subst t. split_and!; [done..|].
    by rewrite <- Hsucc.
Qed.

Lemma complex_mode_recorded (cfg : Sweep.config) (sched : Z -> nat -> list nat)
    (g : globals) (fuel : nat) :
  0 <= Sweep.max_threads cfg < INT_MAX ->
  0 <= Sweep.total_experiments cfg <= INT_MAX ->
  wait_lock g = 0 -> shared_data g = 0 ->
  (forall tc e, 1 <= tc <= Sweep.max_threads cfg ->
     Trial.rounds 5 (Z.to_nat tc) (sched tc e)) ->
  (Z.to_nat (Sweep.max_threads cfg) < fuel)%nat ->
  exists rows,
    Sweep.complex_mode fuel cfg sched g = Some (g, rows)
    /\ Forall2 (Sweep.recorded_row cfg) (seqZ 1 (Sweep.max_threads cfg)) rows.
Proof.
  intros HM HK Hwl Hsd Hfair Hfuel. unfold Sweep.complex_mode.
  destruct (sweep_recorded cfg sched HK (proj2 HM) Hfair
              (Z.to_nat (Sweep.max_threads cfg)) 1 (set_thread_count 1 g) [] fuel)
    as (rows & -> & Hrows); [done|lia|lia|done|done|done|].
  exists rows. simpl. rewrite Z2Nat.id in Hrows by lia.
  split; [|done]. by destruct g.
Qed.

Lemma foldr_min_replicate (m0 v : Z) n :
  (1 <= n)%nat -> foldr Z.min m0 (replicate n v) = Z.min v m0.
Proof.
  induction n as [|[|n] IH]; intros Hn; [lia|done|].
  change (replicate (S (S n)) v) with (v :: replicate (S n) v).
  cbn [foldr]. rewrite IH by lia. lia.
Qed.

Lemma foldr_max_replicate (m0 v : Z) n :
  (1 <= n)%nat -> foldr Z.max m0 (replicate n v) = Z.max v m0.
Proof.
  induction n as [|[|n] IH]; intros Hn; [lia|done|].
  change (replicate (S (S n)) v) with (v :: replicate (S n) v).
  cbn [foldr]. rewrite IH by lia. lia.
Qed.

Lemma failure_count_replicate (v : Z) n :
  Sweep.failure_count v (replicate n v) = 0.
Proof.
  unfold Sweep.failure_count. induction n as [|n IH]; [done|].
  cbn [replicate]. by rewrite filter_cons_False by (intros H; by apply H).
Qed.

(** The row of a batch without a lost increment. *)
Lemma recorded_row_atomic (cfg : Sweep.config) (tc : Z) (r : Sweep.row) :
  Sweep.USE_ATOMICS cfg = true ->
  1 <= Sweep.total_experiments cfg < 2 ^ 24 ->
  1 <= tc <= Sweep.max_threads cfg -> Sweep.max_threads cfg < INT_MAX ->
  Sweep.total_experiments cfg * tc < 2 ^ 24 ->
  Sweep.recorded_row cfg tc r ->
  r = Sweep.Row tc (Sweep.total_experiments cfg) 0 tc (F32.of_int tc) tc
        F32.zero F32.zero.
Proof.
  intros Ha HK Htc HM Hsmall (results & Hlen & Hall & Hrow).
  rewrite Ha in Hall.
  assert (Heq : results = replicate (length results) tc).
  { apply all_equal_replicate. intros x Hx.
    by apply (proj1 (Forall_forall _ _) Hall x Hx). }
  pose proof (print_stats_row cfg tc
                (Sweep.total_experiments cfg - Sweep.failure_count tc results)
                results) as E.
  rewrite Hlen in E. rewrite E in Hrow. injection Hrow as <-.
  rewrite Heq.
  destruct (summary_of_equal (length results) tc) as (-> & -> & ->);
    [lia|lia|rewrite Z.abs_eq by lia; lia|].
  rewrite failure_count_replicate, foldr_min_replicate, foldr_max_replicate by lia.
  rewrite (wrap_int_id (Sweep.max_threads cfg + 1))
    by (unfold INT_MIN, INT_MAX in *; lia).
  rewrite !wrap_int_id by (unfold INT_MIN, INT_MAX in *; lia).
  f_equal; lia.
Qed.

(** X6.  With the atomic counter the whole table is determined: for
    [1 <= total_experiments] and [total_experiments * max_threads < 2^24],
    under schedules that let every trial end, the row of each thread
    count from 1 to [max_threads] shows no failure, minimum, average and
    maximum all equal to the thread count, and variance and standard
    deviation 0. *)
Theorem atomic_table (cfg : Sweep.config) (sched : Z -> nat -> list nat)
    (g : globals) (fuel : nat) :
  Sweep.USE_ATOMICS cfg = true ->
  0 <= Sweep.max_threads cfg < INT_MAX ->
  1 <= Sweep.total_experiments cfg ->
  Sweep.total_experiments cfg * Z.max 1 (Sweep.max_threads cfg) < 2 ^ 24 ->
  wait_lock g = 0 -> shared_data g = 0 ->
  (forall tc e, 1 <= tc <= Sweep.max_threads cfg ->
     Trial.rounds 5 (Z.to_nat tc) (sched tc e)) ->
  (Z.to_nat (Sweep.max_threads cfg) < fuel)%nat ->
  Sweep.complex_mode fuel cfg sched g
  = Some (g, (fun tc => Sweep.Row tc (Sweep.total_experiments cfg) 0 tc
                          (F32.of_int tc) tc F32.zero F32.zero)
             <$> seqZ 1 (Sweep.max_threads cfg)).
Proof.
  intros Ha HM HK Hsmall Hwl Hsd Hfair Hfuel.
  assert (HK24 : Sweep.total_experiments cfg < 2 ^ 24) by nia.
  destruct (complex_mode_recorded cfg sched g fuel HM
              ltac:(unfold INT_MAX; lia) Hwl Hsd Hfair Hfuel)
    as (rows & -> & Hrows).
  do 2 f_equal.
  assert (Hin : forall tc, tc ∈ seqZ 1 (Sweep.max_threads cfg) ->
                  1 <= tc <= Sweep.max_threads cfg).
  { intros tc Htc. apply elem_of_seqZ in Htc. lia. }
  revert Hrows Hin. generalize (seqZ 1 (Sweep.max_threads cfg)).
  intros tcs Hrows.
  induction Hrows as [|tc r tcs' rows' Hr Hrows IH]; intros Hin; [done|].
  rewrite fmap_cons. f_equal.
  - apply (recorded_row_atomic cfg tc r Ha); try lia; try done.
    + apply Hin. left.
    + specialize (Hin tc ltac:(left)). nia.
  - apply IH. intros x Hx. apply Hin. by right.
Qed.

Lemma atomic_table_witness :
  Sweep.complex_mode 4 (Sweep.Config 3 5 true true true)
    (fun tc _ => Trial.round_robin 5 (Z.to_nat tc)) (Sweep.initial_globals 8)
  = Some (Sweep.initial_globals 8,
          [Sweep.Row 1 5 0 1 (F32.of_int 1) 1 F32.zero F32.zero;
           Sweep.Row 2 5 0 2 (F32.of_int 2) 2 F32.zero F32.zero;
           Sweep.Row 3 5 0 3 (F32.of_int 3) 3 F32.zero F32.zero]).
Proof.
  apply (atomic_table (Sweep.Config 3 5 true true true)
           (fun tc _ => Trial.round_robin 5 (Z.to_nat tc))
           (Sweep.initial_globals 8) 4);
    try reflexivity; try (unfold INT_MAX; simpl; lia).
  intros tc e _. apply rounds_round_robin.
Defined.

Lemma failure_count_none (expected : Z) (batch : list Z) :
  Sweep.failure_count expected batch = 0 <-> forall x, x ∈ batch -> x = expected.
Proof.
  unfold Sweep.failure_count. induction batch as [|y l IH].
  - split; [|done]. intros _ x Hx. by apply elem_of_nil in Hx.
  - destruct (decide (y = expected)) as [->|Hne].
    + rewrite filter_cons_False by (intros H; by apply H). rewrite IH. split.
      * intros H x [->|Hx]%elem_of_cons; [done|by apply H].
      * intros H x Hx. apply H. by right.
    + rewrite filter_cons_True by done. cbn [length]. split; [lia|].
      intros H. exfalso. apply Hne, H. left.
Qed.

Lemma failure_count_some (expected : Z) (batch : list Z) :
  Sweep.failure_count expected batch < Z.of_nat (length batch)
  <-> expected ∈ batch.
Proof.
  unfold Sweep.failure_count. induction batch as [|y l IH].
  - split; [simpl; lia|]. intros H. by apply elem_of_nil in H.
  - pose proof (length_filter (fun x => x <> expected) l).
    destruct (decide (y = expected)) as [->|Hne].
    + rewrite filter_cons_False by (intros E; by apply E). cbn [length].
      split; [left|lia].
    + rewrite filter_cons_True by done. cbn [length].
      rewrite elem_of_cons, <- IH. split; [lia|]. intros [E|E]; [done|lia].
Qed.

(** What the columns of a recorded row tell about each other. *)
Lemma recorded_row_columns (cfg : Sweep.config) (tc : Z) (r : Sweep.row) :
  1 <= Sweep.total_experiments cfg <= INT_MAX ->
  1 <= tc <= Sweep.max_threads cfg -> Sweep.max_threads cfg < INT_MAX ->
  Sweep.recorded_row cfg tc r ->
  Sweep.row_thread_count r = tc
  /\ Sweep.row_experiments r = Sweep.total_experiments cfg
  /\ 0 <= Sweep.row_failures r <= Sweep.total_experiments cfg
  /\ 1 <= Sweep.row_min r <= Sweep.row_max r
  /\ Sweep.row_max r <= tc
  /\ (Sweep.row_failures r = 0 <-> Sweep.row_min r = tc)
  /\ (Sweep.row_failures r < Sweep.total_experiments cfg <-> Sweep.row_max r = tc).
Proof.
  intros HK Htc HM (results & Hlen & Hall & Hrow).
  pose proof (print_stats_row cfg tc
                (Sweep.total_experiments cfg - Sweep.failure_count tc results)
                results) as E.
  rewrite Hlen in E. rewrite E in Hrow. injection Hrow as <-.
  cbn [Sweep.row_thread_count Sweep.row_experiments Sweep.row_failures
       Sweep.row_min Sweep.row_max].
  pose proof (failure_count_bounds tc results) as Hfc.
  rewrite (wrap_int_id (Sweep.max_threads cfg + 1))
    by (unfold INT_MIN, INT_MAX in *; lia).
  rewrite wrap_int_id by (unfold INT_MIN, INT_MAX in *; lia).
  replace (Sweep.total_experiments cfg
           - (Sweep.total_experiments cfg - Sweep.failure_count tc results))
    with (Sweep.failure_count tc results) by lia.
  assert (Hrange : forall x, x ∈ results -> 1 <= x <= tc).
  { intros x Hx. pose proof (proj1 (Forall_forall _ _) Hall x Hx) as Hok.
    unfold Trial.outcome_ok in Hok. destruct (Sweep.USE_ATOMICS cfg); lia. }
  destruct results as [|x0 rest]; [simpl in Hlen; lia|].
  set (results := x0 :: rest) in *.
  assert (Hx0 : x0 ∈ results) by left.
  destruct (foldr_min_cases (Sweep.max_threads cfg + 1) results)
    as (Hm0 & Hmle & Hmin).
  destruct (foldr_max_cases 0 results) as (HM0 & HMle & Hmax).
  pose proof (Hrange _ Hx0). pose proof (Hmle _ Hx0). pose proof (HMle _ Hx0).
  destruct Hmin as [Hmin|Hmin]; [lia|].
  destruct Hmax as [Hmax|Hmax]; [lia|].
  pose proof (Hrange _ Hmin). pose proof (Hrange _ Hmax).
  split_and!; try lia.
  - rewrite failure_count_none. split.
    + intros Heq. by apply Heq.
    + intros Heq x Hx. specialize (Hmle x Hx). specialize (Hrange x Hx). lia.
  - rewrite <- Hlen, failure_count_some. split.
    + intros Hin. specialize (HMle tc Hin). lia.
    + intros Heq. by rewrite <- Heq.
Qed.

(** X7.  In either variant, under schedules that let every trial end
    and with at least one experiment per thread count, every row of the
    table is consistent: it shows its thread count and
    [total_experiments], a failure count between 0 and
    [total_experiments], and [1 <= min <= max <= thread_count]; it shows
    no failure exactly when its minimum is the thread count, and fewer
    failures than experiments exactly when its maximum is the thread
    count. *)
Theorem table_rows_consistent (cfg : Sweep.config) (sched : Z -> nat -> list nat)
    (g : globals) (fuel : nat) :
  0 <= Sweep.max_threads cfg < INT_MAX ->
  1 <= Sweep.total_experiments cfg <= INT_MAX ->
  wait_lock g = 0 -> shared_data g = 0 ->
  (forall tc e, 1 <= tc <= Sweep.max_threads cfg ->
     Trial.rounds 5 (Z.to_nat tc) (sched tc e)) ->
  (Z.to_nat (Sweep.max_threads cfg) < fuel)%nat ->
  exists rows,
    Sweep.complex_mode fuel cfg sched g = Some (g, rows)
    /\ Forall2
         (fun tc r =>
            Sweep.row_thread_count r = tc
            /\ Sweep.row_experiments r = Sweep.total_experiments cfg
            /\ 0 <= Sweep.row_failures r <= Sweep.total_experiments cfg
            /\ 1 <= Sweep.row_min r <= Sweep.row_max r
            /\ Sweep.row_max r <= tc
            /\ (Sweep.row_failures r = 0 <-> Sweep.row_min r = tc)
            /\ (Sweep.row_failures r < Sweep.total_experiments cfg
                <-> Sweep.row_max r = tc))
         (seqZ 1 (Sweep.max_threads cfg)) rows.
Proof.
  intros HM HK Hwl Hsd Hfair Hfuel.
  destruct (complex_mode_recorded cfg sched g fuel HM ltac:(lia) Hwl Hsd Hfair Hfuel)
    as (rows & Hrun & Hrows).
  exists rows. split; [done|]. clear Hrun.
  assert (Hin : forall tc, tc ∈ seqZ 1 (Sweep.max_threads cfg) ->
                  1 <= tc <= Sweep.max_threads cfg).
  { intros tc Htc. apply elem_of_seqZ in Htc. lia. }
  revert Hrows Hin. generalize (seqZ 1 (Sweep.max_threads cfg)).
  intros tcs Hrows.
  induction Hrows as [|tc r tcs' rows' Hr Hrows IH]; intros Hin; constructor.
  - apply recorded_row_columns; [done| |lia|done]. apply Hin. left.
  - apply IH. intros x Hx. apply Hin. by right.
Qed.

Lemma table_rows_consistent_witness :
  exists rows,
    Sweep.complex_mode 4 (Sweep.Config 3 5 true true false)
      (fun tc _ => Trial.round_robin 5 (Z.to_nat tc)) (Sweep.initial_globals 8)
    = Some (Sweep.initial_globals 8, rows)
    /\ Forall2
         (fun tc r =>
            Sweep.row_thread_count r = tc
            /\ Sweep.row_experiments r = 5
            /\ 0 <= Sweep.row_failures r <= 5
            /\ 1 <= Sweep.row_min r <= Sweep.row_max r
            /\ Sweep.row_max r <= tc
            /\ (Sweep.row_failures r = 0 <-> Sweep.row_min r = tc)
            /\ (Sweep.row_failures r < 5 <-> Sweep.row_max r = tc))
         [1; 2; 3] rows.
Proof.
  apply (table_rows_consistent (Sweep.Config 3 5 true true false)
           (fun tc _ => Trial.round_robin 5 (Z.to_nat tc))
           (Sweep.initial_globals 8) 4);
    try reflexivity; try (unfold INT_MAX; simpl; lia).
  intros tc e _. apply rounds_round_robin.
Defined.

(** ** Edges of [print_stats] *)

(** X8.  With [experiment_count <= 0] [print_stats] reads no cell: the
    row shows the sentinels [max_threads + 1] and 0 as minimum and
    maximum; average, variance and standard deviation are NaN for
    [experiment_count = 0] (0 divided by 0) and [-0.0] for a negative
    [experiment_count]. *)
Theorem print_stats_of_nothing
    (cfg : Sweep.config) (tc successes : Z) (results : list Z) (count : Z) :
  INT_MIN <= count <= 0 ->
  Sweep.print_stats cfg tc successes results count
  = Some (Sweep.Row tc (Sweep.total_experiments cfg)
            (wrap_int (Sweep.total_experiments cfg - successes))
            (wrap_int (Sweep.max_threads cfg + 1))
            (if count =? 0 then S754_nan else S754_zero true)
            0
            (if count =? 0 then S754_nan else S754_zero true)
            (if count =? 0 then S754_nan else S754_zero true)).
Proof.
  intros Hcount. destruct (Z.eqb_spec count 0) as [->|Hne]; [reflexivity|].
  destruct (of_int_finite count Hne) as (q & e & Hq & _);
    [unfold INT_MIN in Hcount; lia|].
  unfold Sweep.print_stats.
  replace (Z.to_nat count) with 0%nat by lia.
  cbn [seq foldl mbind option_bind]. rewrite Hq.
  replace (count <? 0) with true by lia.
  reflexivity.
Qed.

Lemma print_stats_of_nothing_witness :
  INT_MIN <= -3 <= 0
  /\ Sweep.print_stats (Sweep.Config 10 100 true true false) 3 0 [3; 3; 3] (-3)
     = Some (Sweep.Row 3 100 100 11 (S754_zero true) 0 (S754_zero true)
               (S754_zero true)).
Proof.
  split; [unfold INT_MIN; lia|].
  apply (print_stats_of_nothing (Sweep.Config 10 100 true true false) 3 0
           [3; 3; 3] (-3)).
  unfold INT_MIN. lia.
Defined.

Lemma foldl_indices_prefix {A : Type} (f : A -> Z -> A)
    (g : list Z -> option A -> nat -> option A) :
  (forall l a i x, l !! i = Some x -> g l (Some a) i = Some (f a x)) ->
  forall l pre post a,
    foldl (g (pre ++ l ++ post)) (Some a) (seq (length pre) (length l))
    = Some (foldl f a l).
Proof.
  intros Hg l. induction l as [|x l IH]; intros pre post a; [done|].
  cbn [length seq foldl].
  rewrite (Hg _ a _ x) by apply (list_lookup_middle pre (l ++ post)), eq_refl.
  replace (pre ++ (x :: l) ++ post) with ((pre ++ [x]) ++ l ++ post)
    by by rewrite <- app_assoc.
  replace (S (length pre)) with (length (pre ++ [x]))
    by (rewrite length_app; simpl; lia).
  apply IH.
Qed.

Lemma print_stats_row_prefix cfg tc successes (batch rest : list Z) :
  Sweep.print_stats cfg tc successes (batch ++ rest) (Z.of_nat (length batch))
  = Some (Sweep.Row tc (Sweep.total_experiments cfg)
            (wrap_int (Sweep.total_experiments cfg - successes))
            (foldr Z.min (wrap_int (Sweep.max_threads cfg + 1)) batch)
            (Sweep.mean batch)
            (foldr Z.max 0 batch)
            (Sweep.population_variance batch)
            (Sweep.std_dev batch)).
Proof.
  assert (Hscan : forall a,
    foldl (Sweep.scan_step (batch ++ rest)) (Some a) (seq 0 (length batch))
    = Some (foldl Sweep.scan a batch)).
  { intros a.
    apply (foldl_indices_prefix Sweep.scan Sweep.scan_step) with (pre := []).
    intros l acc i x H. unfold Sweep.scan_step. simpl. by rewrite H. }
  assert (Hdev : forall average a,
    foldl (Sweep.deviation_step (batch ++ rest) average) (Some a)
      (seq 0 (length batch))
    = Some (foldl (Sweep.deviation average) a batch)).
  { intros average a.
    apply (foldl_indices_prefix (Sweep.deviation average)
             (fun l => Sweep.deviation_step l average)) with (pre := []).
    intros l acc i x H. unfold Sweep.deviation_step. simpl. by rewrite H. }
  unfold Sweep.print_stats. rewrite Nat2Z.id, Hscan, scan_components.
  simpl. rewrite Hdev. simpl.
  by rewrite max_loop, min_loop.
Qed.

(** X9.  [print_stats] looks at the first [experiment_count] cells of
    [results] only: on an array with at least that many cells it
    returns the row of the prefix, whatever the later cells hold. *)
Theorem print_stats_reads_prefix
    (cfg : Sweep.config) (tc successes : Z) (results : list Z) (count : nat) :
  (count <= length results)%nat ->
  Sweep.print_stats cfg tc successes results (Z.of_nat count)
  = Sweep.print_stats cfg tc successes (take count results) (Z.of_nat count)
  /\ Sweep.print_stats cfg tc successes results (Z.of_nat count)
     = Some (Sweep.Row tc (Sweep.total_experiments cfg)
               (wrap_int (Sweep.total_experiments cfg - successes))
               (foldr Z.min (wrap_int (Sweep.max_threads cfg + 1))
                  (take count results))
               (Sweep.mean (take count results))
               (foldr Z.max 0 (take count results))
               (Sweep.population_variance (take count results))
               (Sweep.std_dev (take count results))).
Proof.
  intros Hle.
  assert (Hlen : length (take count results) = count)
    by (rewrite length_take; lia).
  pose proof (print_stats_row_prefix cfg tc successes
                (take count results) (drop count results)) as Hrow.
  rewrite take_drop, Hlen in Hrow.
  pose proof (print_stats_row cfg tc successes (take count results)) as Hrow'.
  rewrite Hlen in Hrow'.
  by rewrite Hrow, Hrow'.
Qed.

Lemma print_stats_reads_prefix_witness :
  Sweep.print_stats (Sweep.Config 10 5 true true false) 3 4
    [3; 3; 3; 2; 3; 99; -7] 5
  = Sweep.print_stats (Sweep.Config 10 5 true true false) 3 4 [3; 3; 3; 2; 3] 5.
Proof.
  apply (print_stats_reads_prefix (Sweep.Config 10 5 true true false) 3 4
           [3; 3; 3; 2; 3; 99; -7] 5).
  simpl. lia.
Defined.

(** X10.  For a batch whose outcomes sum to less than [2^24] in
    absolute value the running [float] sum of [print_stats] is the
    integer sum, so the reported average is the [float] quotient of
    that integer sum by the batch size converted to [float]. *)
Theorem average_rounds_once
    (cfg : Sweep.config) (tc successes : Z) (results : list Z) :
  Sweep.magnitude results < 2 ^ 24 ->
  Sweep.batch_sum results = F32.of_int (foldr Z.add 0 results)
  /\ exists r,
       Sweep.print_stats cfg tc successes results (Z.of_nat (length results))
       = Some r
       /\ Sweep.row_average r
          = F32.div (F32.of_int (foldr Z.add 0 results))
              (F32.of_int (Z.of_nat (length results))).
Proof.
  intros Hm. split; [by apply batch_sum_exact|].
  rewrite print_stats_row. eexists. split; [done|].
  cbn [Sweep.row_average]. unfold Sweep.mean, Sweep.batch_size.
  by rewrite batch_sum_exact.
Qed.

Lemma average_rounds_once_witness :
  Sweep.magnitude [3; 3; 3; 2; 3] < 2 ^ 24
  /\ Sweep.batch_sum [3; 3; 3; 2; 3] = F32.of_int 14.
Proof.
  split; [vm_compute; reflexivity|].
  apply (average_rounds_once (Sweep.Config 10 5 true true false) 3 4
           [3; 3; 3; 2; 3]).
  vm_compute. reflexivity.
Defined.

(** ** The loop over [thread_count] at the top of the [int] range *)

Lemma wrap_int_range z : INT_MIN <= wrap_int z <= INT_MAX.
Proof.
  unfold wrap_int, INT_MIN, INT_MAX.
  pose proof (Z.mod_pos_bound (z + 2147483648) 4294967296). lia.
Qed.

Lemma sweep_without_exit cfg sched fuel :
  Sweep.max_threads cfg = INT_MAX ->
  forall g out,
    INT_MIN <= thread_count g <= INT_MAX ->
    Sweep.sweep fuel cfg sched g out = None.
Proof.
  intros HM. induction fuel as [|fuel IH]; intros g out Hg; [done|].
  simpl. destruct (Z.leb_spec (thread_count g) (Sweep.max_threads cfg)); [|lia].
  destruct (Sweep.experiments cfg _ g) as [[[g1 s1] r1]|]; [|done].
  simpl. destruct (Sweep.print_stats _ _ _ _ _) as [r|]; [|done].
  simpl. apply IH. simpl. apply wrap_int_range.
Qed.

(** X11.  With [max_threads = INT_MAX] the test
    [thread_count <= max_threads] holds for every value [thread_count]
    can take, the increment wrapping around: [complex_mode] does not
    return, whatever the schedules and however long it runs. *)
Theorem complex_mode_without_exit
    (cfg : Sweep.config) (sched : Z -> nat -> list nat) (g : globals) (fuel : nat) :
  Sweep.max_threads cfg = INT_MAX ->
  Sweep.complex_mode fuel cfg sched g = None.
Proof.
  intros HM. unfold Sweep.complex_mode.
  rewrite (sweep_without_exit cfg sched fuel HM); [done|].
  simpl. unfold INT_MIN, INT_MAX. lia.
Qed.

Lemma complex_mode_without_exit_witness :
  Sweep.complex_mode 3 (Sweep.Config 2147483647 1 true true false)
    (fun tc _ => Trial.round_robin 5 (Z.to_nat tc)) (Sweep.initial_globals 8)
  = None.
Proof.
  apply (complex_mode_without_exit (Sweep.Config 2147483647 1 true true false)).
  reflexivity.
Defined.

(** ** Schedules that lose a chosen number of increments *)
Section Blocks.
Import Trial.
Variable USE_ATOMICS : bool.

Lemma run_app s1 s2 m :
  run USE_ATOMICS (s1 ++ s2) m = run USE_ATOMICS s2 (run USE_ATOMICS s1 m).
Proof. unfold run. apply foldl_app. Qed.

(** A step of the thread that comes after [l1]. *)
Lemma step_at g (l1 : list pc) p l2 :
  step USE_ATOMICS (Machine g (l1 ++ p :: l2)) (length l1)
  = Machine (worker USE_ATOMICS g p).1 (l1 ++ (worker USE_ATOMICS g p).2 :: l2).
Proof.
  rewrite (step_inside _ _ _ p) by apply list_lookup_middle, eq_refl.
  cbn [mem threads]. f_equal.
  rewrite insert_app_r_alt by lia. by rewrite Nat.sub_diag.
Qed.

(** A block of steps that takes each thread of a run of threads at [p]
    to [p'], with the globals going through [G 0], [G 1], ... *)
Lemma block_run (count : nat) (p p' : pc) :
  forall (many : nat) (G : nat -> globals) (l0 l2 : list pc),
    (forall k (l1 l3 : list pc), (k < many)%nat ->
       run USE_ATOMICS (replicate count (length l1)) (Machine (G k) (l1 ++ p :: l3))
       = Machine (G (S k)) (l1 ++ p' :: l3)) ->
    run USE_ATOMICS (Scenario.block count (length l0) many)
      (Machine (G 0%nat) (l0 ++ replicate many p ++ l2))
    = Machine (G many) (l0 ++ replicate many p' ++ l2).
Proof.
  induction many as [|many IH]; intros G l0 l2 H; [done|].
  unfold Scenario.block. cbn [seq fmap list_fmap concat replicate].
  rewrite run_app. cbn [app].
  rewrite (H 0%nat l0 (replicate many p ++ l2)) by lia.
  replace (l0 ++ p' :: replicate many p ++ l2)
    with ((l0 ++ [p']) ++ replicate many p ++ l2) by by rewrite <- app_assoc.
  replace (S (length l0)) with (length (l0 ++ [p']))
    by (rewrite length_app; simpl; lia).
  fold (Scenario.block count (length (l0 ++ [p'])) many).
  rewrite (IH (fun k => G (S k))).
  - by rewrite <- app_assoc.
  - intros k l1 l3 Hk. apply H. lia.
Qed.

Lemma step_once m tid :
  run USE_ATOMICS (replicate 1 tid) m = step USE_ATOMICS m tid.
Proof. done. Qed.

Lemma returned_replicate k : forallb is_returned (replicate k Returned) = true.
Proof. induction k as [|k IH]; [done|]. simpl. apply IH. Qed.

End Blocks.

(** The schedule [Scenario.losing n lost] loses exactly [lost]
    increments. *)
Lemma losing_run (n lost : nat) :
  (lost < n)%nat -> Z.of_nat n <= INT_MAX ->
  Trial.run false (Scenario.losing n lost)
    (Trial.spawn (Z.of_nat n) (Globals (Z.of_nat n) 0 0))
  = Trial.Machine (Globals (Z.of_nat n) (Z.of_nat n) (Z.of_nat (n - lost)))
      (replicate n Trial.Returned).
Proof.
  intros Hlost Hn.
  unfold Trial.spawn, Scenario.losing. rewrite Nat2Z.id, !run_app.
  (* every worker arrives *)
  pose proof (block_run false 1 Trial.BarrierArrive Trial.BarrierSpin n
                (fun k => Globals (Z.of_nat n) (Z.of_nat k) 0) [] []) as H1.
  cbn beta in H1. cbn [app length] in H1. rewrite !app_nil_r in H1.
  change (Z.of_nat 0) with 0 in H1. rewrite H1; clear H1.
  2:{ intros k l1 l3 Hk. rewrite step_once, step_at.
      cbn [Trial.worker Trial.barrier fst snd].
      unfold set_wait_lock. cbn [thread_count wait_lock shared_data].
      rewrite wrap_int_id by (unfold INT_MIN; lia).
      do 2 f_equal. lia. }
  (* every worker leaves the barrier *)
  pose proof (block_run false 1 Trial.BarrierSpin Trial.Increment n
                (fun _ => Globals (Z.of_nat n) (Z.of_nat n) 0) [] []) as H2.
  cbn beta in H2. cbn [app length] in H2. rewrite !app_nil_r in H2.
  rewrite H2; clear H2.
  2:{ intros k l1 l3 Hk. rewrite step_once, step_at.
      cbn [Trial.worker Trial.barrier thread_count wait_lock].
      by rewrite Z.eqb_refl. }
  (* the first [lost + 1] workers load 0, add and store 1 *)
  assert (E : replicate n Trial.Increment
              = replicate (S lost) Trial.Increment
                ++ replicate (n - S lost) Trial.Increment)
    by (rewrite <- replicate_add; f_equal; lia).
  rewrite E; clear E.
  pose proof (block_run false 1 Trial.Increment (Trial.AddEax 0) (S lost)
                (fun _ => Globals (Z.of_nat n) (Z.of_nat n) 0) []
                (replicate (n - S lost) Trial.Increment)) as H3.
  cbn beta in H3. cbn [app length] in H3. rewrite H3; clear H3.
  2:{ intros k l1 l3 Hk. by rewrite step_once, step_at. }
  pose proof (block_run false 1 (Trial.AddEax 0) (Trial.StoreEax 1) (S lost)
                (fun _ => Globals (Z.of_nat n) (Z.of_nat n) 0) []
                (replicate (n - S lost) Trial.Increment)) as H4.
  cbn beta in H4. cbn [app length] in H4. rewrite H4; clear H4.
  2:{ intros k l1 l3 Hk. by rewrite step_once, step_at. }
  pose proof (block_run false 1 (Trial.StoreEax 1) Trial.Returned (S lost)
                (fun k => Globals (Z.of_nat n) (Z.of_nat n)
                            (match k with O => 0 | S _ => 1 end)) []
                (replicate (n - S lost) Trial.Increment)) as H5.
  cbn beta iota in H5. cbn [app length] in H5. rewrite H5; clear H5.
  2:{ intros k l1 l3 Hk. rewrite step_once, step_at. by destruct k. }
  (* the other workers increment one at a time *)
  pose proof (block_run false 3 Trial.Increment Trial.Returned (n - S lost)
                (fun k => Globals (Z.of_nat n) (Z.of_nat n) (1 + Z.of_nat k))
                (replicate (S lost) Trial.Returned) []) as H6.
  cbn beta in H6. change (Z.of_nat 0) with 0 in H6.
  rewrite length_replicate, Z.add_0_r, !app_nil_r in H6. rewrite H6; clear H6.
  2:{ intros k l1 l3 Hk. cbn [replicate]. unfold Trial.run. cbn [foldl].
      rewrite !step_at. cbn [Trial.worker fst snd].
      unfold set_shared_data. cbn [thread_count wait_lock shared_data].
      rewrite wrap_int_id by (unfold INT_MIN; lia).
      do 2 f_equal. lia. }
  rewrite <- replicate_add.
  replace (S lost + (n - S lost))%nat with n by lia.
  do 2 f_equal. lia.
Qed.

(** X12.  Without atomics every outcome between 1 and [thread_count] can
    happen: for [1 <= v <= thread_count] there is a schedule (the first
    [thread_count - v + 1] workers load the counter before any of them
    stores, the others increment one at a time) under which the trial
    ends with [shared_data = v]. *)
Theorem racy_outcomes_all_reachable (tc v : Z) (g : globals) :
  1 <= v <= tc -> tc <= INT_MAX ->
  thread_count g = tc -> wait_lock g = 0 -> shared_data g = 0 ->
  Trial.create_threads_and_launch_worker false tc
    (Scenario.losing (Z.to_nat tc) (Z.to_nat (tc - v))) g
  = Some (Globals tc tc v).
Proof.
  intros Hv Htc Hg Hwl Hsd. destruct g as [t w s]. simpl in *. subst t w s.
  unfold Trial.create_threads_and_launch_worker.
  remember (Z.to_nat tc) as n eqn:En.
  assert (E : tc = Z.of_nat n) by lia. subst tc.
  rewrite losing_run by lia. cbn [Trial.threads Trial.mem].
  rewrite returned_replicate. do 2 f_equal; lia.
Qed.

Lemma racy_outcomes_all_reachable_witness :
  1 <= 2 <= 4
  /\ Trial.create_threads_and_launch_worker false 4
       (Scenario.losing 4 2) (Globals 4 0 0)
     = Some (Globals 4 4 2).
Proof.
  split; [lia|].
  apply (racy_outcomes_all_reachable 4 2 (Globals 4 0 0));
    (reflexivity || unfold INT_MAX; lia).
Defined.

(** ** What the experiment loop leaves untouched *)

(** X13.  Whatever the globals at the start and whatever the schedules,
    when the experiment loop returns it has not changed
    [thread_count], the array has its [total_experiments] cells, and, if
    an experiment ran at all, [wait_lock] and [shared_data] are back at
    0; with no experiment to run it changes nothing and counts no
    success. *)
Theorem experiments_frame (cfg : Sweep.config) (sched : nat -> list nat)
    (g g' : globals) (successes : Z) (results : list Z) :
  Sweep.experiments cfg sched g = Some (g', successes, results) ->
  thread_count g' = thread_count g
  /\ length results = Z.to_nat (Sweep.total_experiments cfg)
  /\ (1 <= Sweep.total_experiments cfg -> wait_lock g' = 0 /\ shared_data g' = 0)
  /\ (Sweep.total_experiments cfg <= 0 -> g' = g /\ successes = 0 /\ results = []).
Proof.
  unfold Sweep.experiments.
  set (count := Z.to_nat (Sweep.total_experiments cfg)).
  assert (Hpre : forall k g1 s1 r1,
    foldl (Sweep.experiment_step cfg sched) (Some (g, 0, replicate count 0))
      (seq 0 k) = Some (g1, s1, r1) ->
    thread_count g1 = thread_count g /\ length r1 = count
    /\ ((1 <= k)%nat -> wait_lock g1 = 0 /\ shared_data g1 = 0)).
  { induction k as [|k IH]; intros g1 s1 r1.
    { simpl. intros [= <- <- <-]. rewrite length_replicate.
      split_and!; [done..|lia]. }
    rewrite seq_S, foldl_app. simpl.
    destruct (foldl _ _ (seq 0 k)) as [[[g2 s2] r2]|] eqn:Hfold; [|done].
    destruct (IH _ _ _ eq_refl) as (Htc & Hlen & _).
    unfold Sweep.experiment_step at 1. simpl.
    destruct (Trial.create_threads_and_launch_worker _ _ _ _) as [g3|] eqn:Hrun;
      [|done].
    simpl. intros [= <- <- <-]. simpl. rewrite length_insert.
    split_and!; [|done..]. rewrite <- Htc.
    unfold Trial.create_threads_and_launch_worker in Hrun.
    destruct (forallb _ _); [|done]. injection Hrun as <-.
    by rewrite run_thread_count. }
  intros Hrun. destruct (Hpre _ _ _ _ Hrun) as (Htc & Hlen & Hreset).
  split_and!; [done..| |].
  - intros HK. apply Hreset. lia.
  - intros HK. revert Hrun. replace count with 0%nat by lia.
    simpl. by intros [= <- <- <-].
Qed.

Lemma experiments_frame_witness :
  Sweep.experiments (Sweep.Config 10 5 true true false) (Scenario.schedule 3)
    (Globals 3 0 0) = Some (Globals 3 0 0, 4, [3; 3; 3; 2; 3])
  /\ thread_count (Globals 3 0 0) = 3
  /\ length [3; 3; 3; 2; 3] = Z.to_nat 5.
Proof.
  split; [reflexivity|].
  destruct (experiments_frame (Sweep.Config 10 5 true true false)
              (Scenario.schedule 3) (Globals 3 0 0) (Globals 3 0 0) 4
              [3; 3; 3; 2; 3] eq_refl) as (Htc & Hlen & _).
  split; [exact Htc|exact Hlen].
Defined.
